(** * ESDoc: the documentation-generation pipeline of [src/ESDoc.js]

    A shallow embedding of the static methods of the class [ESDoc]
    ([generate], [_setDefaultConfig], [_walk], [_traverse],
    [_generateForIndex], [_generateForPackageJSON], [_resolveDuplication],
    [_publish]) and the properties of the pipeline proved on it. *)

From Stdlib Require Import String List Bool Arith ZArith Lia.
From Stdlib Require Import Permutation Sorted OrderedTypeEx.
Import ListNotations.
Local Open Scope string_scope.
Local Open Scope list_scope.

(** * Part I: the program *)

(** ** Doc objects *)

(** Modelled from the spec: the type of the identifiers that the doc
    factory ([Factory/DocFactory.js], not part of this file) assigns to the
    docs.  They are strings, which [_resolveDuplication] compares as strings
    (section 4.6, "sort their identifiers as strings in ascending lexical
    order"); so the [a < b] of its comparator is JavaScript's comparison of
    two strings, lexicographic on the code units, here 8-bit characters. *)
Definition DocId : Type := string.

(** The fields of a doc object that [ESDoc.js] reads or writes.  The two
    docs built in this file ([_generateForIndex], [_generateForPackageJSON])
    have no [__docId__] property, so the field is optional: [None] is
    [undefined]. *)
Record DocObject : Type := mkDoc {
  kind : string;
  longname : string;
  name : string;
  static : bool;
  access : string;
  content : string;
  __docId__ : option DocId
}.

(** ** Arrays *)

Module JsArray.

(** The comparisons of [Array.prototype.sort(compareFn)] on the defined
    elements: [a] comes before [b] when [compareFn(a, b) < 0] and after
    it when [compareFn(a, b) > 0]; the sort is stable.  With a comparator
    that is consistent, as [compareIds] is on identifiers that are all
    different, the order that comes out is the same for every sorting
    algorithm; insertion is one. *)
Fixpoint insert {A : Type} (compareFn : A -> A -> Z) (a : A) (l : list A) : list A :=
  match l with
  | [] => [a]
  | b :: l' =>
      if (0 <? compareFn a b)%Z then b :: insert compareFn a l'
      else a :: b :: l'
  end.

Definition defined {A : Type} (l : list (option A)) : list A :=
  flat_map (fun x => match x with Some a => [a] | None => [] end) l.

Definition undefineds {A : Type} (l : list (option A)) : list (option A) :=
  filter (fun x => match x with Some _ => false | None => true end) l.

(** [Array.prototype.sort(compareFn)]: [undefined] elements go to the
    end and are never passed to [compareFn]. *)
Definition sort {A : Type} (compareFn : A -> A -> Z) (l : list (option A))
  : list (option A) :=
  map Some (fold_right (insert compareFn) [] (defined l)) ++ undefineds l.

(** [Array.prototype.shift()], as far as the array that is left goes. *)
Definition shift {A : Type} (l : list A) : list A := tl l.

(** Equality of two identifiers ([undefined] or a string) as
    [Array.prototype.includes] tests it. *)
Definition sameValueZero (x y : option DocId) : bool :=
  match x, y with
  | Some a, Some b => (a =? b)%string
  | None, None => true
  | _, _ => false
  end.

Definition includes (l : list (option DocId)) (x : option DocId) : bool :=
  existsb (sameValueZero x) l.

End JsArray.

(** ** Duplicate resolution *)

(** The comparator [(a, b) => a < b ? -1 : 1]. *)
Definition compareIds (a b : DocId) : Z :=
  if (a <? b)%string then (-1)%Z else 1%Z.

(** The body of the loop over [memberDocs]: what one [memberDoc] pushes
    onto [removeIds]. *)
Definition resolveMember (docs : list DocObject) (removeIds : list (option DocId))
    (memberDoc : DocObject) : list (option DocId) :=
  let sameLongnameDoc :=
    find (fun doc => (longname doc =? longname memberDoc)
                     && negb (kind doc =? "member")) docs in
  match sameLongnameDoc with
  | Some _ => removeIds ++ [__docId__ memberDoc]
  | None =>
      let dup := filter (fun doc => (longname doc =? longname memberDoc)
                                    && (kind doc =? "member")) docs in
      if (1 <? List.length dup)%nat then
        let ids := map __docId__ dup in
        let ids := JsArray.sort compareIds ids in
        let ids := JsArray.shift ids in
        removeIds ++ ids
      else removeIds
  end.

Definition _resolveDuplication (docs : list DocObject) : list DocObject :=
  let memberDocs := filter (fun doc => kind doc =? "member") docs in
  let removeIds := fold_left (resolveMember docs) memberDocs [] in
  filter (fun doc => negb (JsArray.includes removeIds (__docId__ doc))) docs.

(** ** Errors and results *)

Inductive JsError : Type :=
| AssertionError
| TypeError (message : string)
| Error (message : string).

(** What a call into a collaborator gives: a value, or a raised error. *)
Inductive result (A : Type) : Type :=
| Ok (a : A)
| Raise (e : JsError).
Arguments Ok {A} a.
Arguments Raise {A} e.

(** ** Configuration *)

Record ESDocConfig : Type := mkConfig {
  source : option string;
  destination : option string;
  includes : option (list string);
  excludes : option (list string);
  index : option string;
  package : option string;
  plugins : option (list string);
  debug : option bool
}.

(** JavaScript's truthiness of an optional string: [undefined] and the
    empty string are falsy.  [truthy] gives the string when it is truthy. *)
Definition truthy (v : option string) : option string :=
  match v with
  | Some s => if s =? "" then None else Some s
  | None => None
  end.

Definition isTruthy (v : option string) : bool :=
  match truthy v with Some _ => true | None => false end.

Definition _setDefaultConfig (config : ESDocConfig) : ESDocConfig :=
  let config :=
    match includes config with
    | None => mkConfig (source config) (destination config)
                (Some ["\.(js|es6)$"]) (excludes config) (index config)
                (package config) (plugins config) (debug config)
    | Some _ => config
    end in
  let config :=
    match excludes config with
    | None => mkConfig (source config) (destination config)
                (includes config) (Some ["\.config\.(js|es6)$"]) (index config)
                (package config) (plugins config) (debug config)
    | Some _ => config
    end in
  let config :=
    if negb (isTruthy (index config)) then
      mkConfig (source config) (destination config)
        (includes config) (excludes config) (Some "./README.md")
        (package config) (plugins config) (debug config)
    else config in
  let config :=
    if negb (isTruthy (package config)) then
      mkConfig (source config) (destination config)
        (includes config) (excludes config) (index config)
        (Some "./package.json") (plugins config) (debug config)
    else config in
  config.

(** [_deprecatedConfig] does nothing. *)
Definition _deprecatedConfig (config : ESDocConfig) : unit := tt.

(** ** The file system under the source root *)

(** What [fs.readdirSync] and [fs.statSync] answer along the recursion of
    [_walk], for one entry of a directory: a plain file, a directory with
    its entries, a directory whose listing raises, an entry that is neither
    a file nor a directory, an entry whose [statSync] raises. *)
#[local] Unset Elimination Schemes.
Inductive Entry : Type :=
| File (entry : string)
| Directory (entry : string) (entries : list Entry)
| Unlistable (entry : string) (e : JsError)
| Special (entry : string)
| Unstatable (entry : string) (e : JsError).
#[local] Set Elimination Schemes.

(** The files with their contents and the directories with what is under
    them. *)
Definition Files : Type := (list (string * string) * list (string * list Entry))%type.

(** ** What a plugin does in [onPublish] *)

(** The calls of [Plugin.onPublish] to the three functions it receives, as
    a tree: each call hands its outcome to the rest of the hook. *)
Inductive Publishing : Type :=
| Published
| PublishRaise (e : JsError)
| PublishWrite (filePath content : string) (next : result unit -> Publishing)
| PublishCopy (srcPath destPath : string) (next : result unit -> Publishing)
| PublishRead (filePath : string) (next : result string -> Publishing).

(** ** The collaborators *)

(** The modules [ESDoc.js] imports, which are not part of this file:
    [path], [RegExp] and [JSON] of the platform, [ESParser], [ASTUtil],
    [DocFactory] with [PathResolver], and the hooks of [Plugin].  The calls
    that [ESDoc.js] guards with a [try] ([ESParser.parse], [factory.push],
    [Plugin.onPublish]) and [new RegExp] may raise; the other hooks of
    [Plugin] and the functions of [path] and [JSON.stringify] complete.
    The two functions of [fs-extra] that write are collaborators as well:
    nothing is said of what they leave of the files, and they may raise. *)
Record Externals : Type := {
  AST : Type;
  Node : Type;
  DocFactory : Type;
  RegExp : Type;
  (* new RegExp(v) raises a SyntaxError on an invalid pattern *)
  RegExp_new : string -> result RegExp;
  (* str.match(reg) is not null *)
  String_match : string -> RegExp -> bool;
  path_resolve : list string -> string;
  path_relative : string -> string -> string;
  path_basename : string -> string;
  path_sep : string;
  (* JSON.parse(packageJSON), then the properties name and main *)
  JSON_parse_package : string -> result (option string * option string);
  JSON_stringify_docs : list DocObject -> string;
  JSON_stringify_ast : AST -> string;
  ESParser_parse : string -> result AST;
  (* the nodes ASTUtil.traverse visits, each with its parent, in order *)
  ASTUtil_nodes : AST -> list (Node * option Node);
  (* new DocFactory(ast, new PathResolver(inDirPath, filePath, packageName, mainFilePath)) *)
  DocFactory_new : AST -> string -> string -> option string -> option string -> DocFactory;
  DocFactory_push : DocFactory -> Node -> option Node -> result DocFactory;
  DocFactory_results : DocFactory -> list DocObject;
  Plugin_onHandleConfig : ESDocConfig -> ESDocConfig;
  Plugin_onHandleDocs : list DocObject -> list DocObject;
  Plugin_onHandleContent : string -> string -> string;
  Plugin_onPublish : Publishing;
  (* fs.outputFileSync(path, content) and fs.copySync(srcPath, destPath):
     the files they leave, or what they raise *)
  fs_outputFileSync : Files -> string -> string -> result Files;
  fs_copySync : Files -> string -> string -> result Files
}.

Section Pipeline.

Context (X : Externals).

(** ** The world: files, and what the run did *)

Inductive Event : Type :=
| EvPluginInit (plugins : option (list string))
| EvOnStart
| EvOnHandleConfig (config : ESDocConfig)
| EvLoggerDebug (on : bool)
| EvReadFile (path : string)
| EvReaddir (path : string)
| EvStat (path : string)
| EvConsoleLog (message : string)
| EvLoggerInfo (message : string)
| EvParse (filePath : string)
| EvShowFile (filePath : string) (e : JsError)
| EvShow (filePath : string) (node : Node X)
| EvShowError (e : JsError)
| EvOnHandleDocs (docs : list DocObject)
| EvOutputFile (path content : string)
| EvCopy (srcPath destPath : string)
| EvOnHandleContent (content path : string)
| EvOnPublish
| EvOnComplete.

(** The files with their contents and the directories with what is under
    them, each as a list of bindings of which the first for a path counts;
    a path that is not bound does not exist. *)
Record World : Type := mkWorld {
  fs_files : list (string * string);
  fs_dirs : list (string * list Entry);
  trace : list Event
}.

Definition lookup {A : Type} (path : string) (bindings : list (string * A)) : result A :=
  match find (fun b => fst b =? path) bindings with
  | Some b => Ok (snd b)
  | None => Raise (Error ("ENOENT: no such file or directory '" ++ path ++ "'"))
  end.

(** ** Computations *)

(** A statement ends by completing with a value, by raising, or by
    [process.exit]. *)
Inductive Outcome (A : Type) : Type :=
| Return (a : A)
| Throw (e : JsError)
| Exit (code : Z).
Arguments Return {A} a.
Arguments Throw {A} e.
Arguments Exit {A} code.

Definition M (A : Type) : Type := World -> Outcome A * World.

Definition ret {A : Type} (a : A) : M A := fun w => (Return a, w).

Definition bind {A B : Type} (m : M A) (k : A -> M B) : M B :=
  fun w =>
    match m w with
    | (Return a, w') => k a w'
    | (Throw e, w') => (Throw e, w')
    | (Exit code, w') => (Exit code, w')
    end.

Definition throw {A : Type} (e : JsError) : M A := fun w => (Throw e, w).

Definition process_exit {A : Type} (code : Z) : M A := fun w => (Exit code, w).

(** [try { m } catch (e) { handler }] *)
Definition try_catch {A : Type} (m : M A) (handler : JsError -> M A) : M A :=
  fun w =>
    match m w with
    | (Throw e, w') => handler e w'
    | r => r
    end.

Definition emit (ev : Event) : M unit :=
  fun w => (Return tt, mkWorld (fs_files w) (fs_dirs w) (trace w ++ [ev])).

Definition call {A : Type} (r : result A) : M A :=
  match r with
  | Ok a => ret a
  | Raise e => throw e
  end.

Notation "x <- m ;; k" := (bind m (fun x => k))
  (at level 61, m at next level, right associativity).
Notation "m ;; k" := (bind m (fun _ => k))
  (at level 61, right associativity).
Notation "' pat <- m ;; k" := (bind m (fun x => match x with pat => k end))
  (at level 61, pat pattern, m at next level, right associativity).

(** A [for ... of] loop whose body updates the variables [acc]. *)
Fixpoint for_of {A S : Type} (body : S -> A -> M S) (l : list A) (acc : S) : M S :=
  match l with
  | [] => ret acc
  | a :: l' => acc' <- body acc a ;; for_of body l' acc'
  end.

(** [array.map(f)] with an [f] that may raise. *)
Fixpoint map_of {A B : Type} (f : A -> M B) (l : list A) : M (list B) :=
  match l with
  | [] => ret []
  | a :: l' => b <- f a ;; bs <- map_of f l' ;; ret (b :: bs)
  end.

(** A string argument of [path.resolve] or of [fs]: [undefined] raises. *)
Definition string_arg (v : option string) : M string :=
  match v with
  | Some s => ret s
  | None => throw (TypeError "The path argument must be of type string")
  end.

Definition assert (v : option string) : M unit :=
  match truthy v with
  | Some _ => ret tt
  | None => throw AssertionError
  end.

(** ** [fs] *)

Definition readFileSync (path : string) : M string :=
  emit (EvReadFile path) ;;
  fun w => call (lookup path (fs_files w)) w.

Definition readdirSync (path : string) : M (list Entry) :=
  emit (EvReaddir path) ;;
  fun w => call (lookup path (fs_dirs w)) w.

(** The call is recorded, then the platform writes or raises. *)
Definition outputFileSync (path content : string) : M unit :=
  emit (EvOutputFile path content) ;;
  fun w =>
    match fs_outputFileSync X (fs_files w, fs_dirs w) path content with
    | Ok files => (Return tt, mkWorld (fst files) (snd files) (trace w))
    | Raise e => (Throw e, w)
    end.

Definition copySync (srcPath destPath : string) : M unit :=
  emit (EvCopy srcPath destPath) ;;
  fun w =>
    match fs_copySync X (fs_files w, fs_dirs w) srcPath destPath with
    | Ok files => (Return tt, mkWorld (fst files) (snd files) (trace w))
    | Raise e => (Throw e, w)
    end.

(** ** [_walk] *)

(** The loop of [_walk] on one entry; [acc] holds the variables the
    callback updates. *)
Fixpoint walkEntry {S : Type} (callback : S -> string -> M S) (dirPath : string)
    (acc : S) (entry : Entry) {struct entry} : M S :=
  match entry with
  | File name =>
      let entryPath := path_resolve X [dirPath; name] in
      emit (EvStat entryPath) ;;
      callback acc entryPath
  | Directory name entries =>
      let entryPath := path_resolve X [dirPath; name] in
      emit (EvStat entryPath) ;;
      emit (EvReaddir entryPath) ;;
      for_of (walkEntry callback entryPath) entries acc
  | Unlistable name e =>
      let entryPath := path_resolve X [dirPath; name] in
      emit (EvStat entryPath) ;;
      emit (EvReaddir entryPath) ;;
      throw e
  | Special name =>
      let entryPath := path_resolve X [dirPath; name] in
      emit (EvStat entryPath) ;;
      ret acc
  | Unstatable name e =>
      let entryPath := path_resolve X [dirPath; name] in
      emit (EvStat entryPath) ;;
      throw e
  end.

Definition _walk {S : Type} (dirPath : string) (callback : S -> string -> M S)
    (acc : S) : M S :=
  entries <- readdirSync dirPath ;;
  for_of (walkEntry callback dirPath) entries acc.

(** ** [_traverse] *)

Definition _traverse (inDirPath filePath : string) (packageName mainFilePath : option string)
    : M (option (list DocObject * AST X)) :=
  emit (EvLoggerInfo ("parsing: " ++ filePath)) ;;
  parsed <- try_catch
              (emit (EvParse filePath) ;;
               ast <- call (ESParser_parse X filePath) ;;
               ret (Some ast))
              (fun e => emit (EvShowFile filePath e) ;; ret None) ;;
  match parsed with
  | None => ret None
  | Some ast =>
      let factory := DocFactory_new X ast inDirPath filePath packageName mainFilePath in
      factory <- for_of
                   (fun factory '(node, parent) =>
                      try_catch
                        (call (DocFactory_push X factory node parent))
                        (fun e => emit (EvShow filePath node) ;; throw e))
                   (ASTUtil_nodes X ast) factory ;;
      ret (Some (DocFactory_results X factory, ast))
  end.

(** ** The synthetic docs *)

Definition _generateForIndex (config : ESDocConfig) : M DocObject :=
  path <- string_arg (index config) ;;
  indexContent <- readFileSync path ;;
  ret (mkDoc "index" (path_resolve X [path]) path true "public" indexContent None).

Definition _generateForPackageJSON (config : ESDocConfig) : M DocObject :=
  '(packageJSON, packagePath) <-
     try_catch
       (path <- string_arg (package config) ;;
        packageJSON <- readFileSync path ;;
        ret (packageJSON, path_resolve X [path]))
       (fun _ => ret ("", "")) ;;
  ret (mkDoc "packageJSON" packagePath (path_basename X packagePath) true "public"
         packageJSON None).

(** ** [_publish] *)

(** An attempt hands the outcome of a call to the plugin, which may catch
    what the call raises. *)
Definition attempt {A : Type} (m : M A) : M (result A) :=
  try_catch (a <- m ;; ret (Ok a)) (fun e => ret (Raise e)).

Definition write (config : ESDocConfig) (filePath content : string) : M unit :=
  dest <- string_arg (destination config) ;;
  let _filePath := path_resolve X [dest; filePath] in
  emit (EvOnHandleContent content _filePath) ;;
  let content := Plugin_onHandleContent X content _filePath in
  emit (EvConsoleLog ("output: " ++ _filePath)) ;;
  outputFileSync _filePath content.

Definition copy (config : ESDocConfig) (srcPath destPath : string) : M unit :=
  dest <- string_arg (destination config) ;;
  let _destPath := path_resolve X [dest; destPath] in
  emit (EvConsoleLog ("output: " ++ _destPath)) ;;
  copySync srcPath _destPath.

Definition read (config : ESDocConfig) (filePath : string) : M string :=
  dest <- string_arg (destination config) ;;
  let _filePath := path_resolve X [dest; filePath] in
  readFileSync _filePath.

(** [Plugin.onPublish(write, copy, read)] *)
Fixpoint onPublish (config : ESDocConfig) (hook : Publishing) : M unit :=
  match hook with
  | Published => ret tt
  | PublishRaise e => throw e
  | PublishWrite filePath content next =>
      r <- attempt (write config filePath content) ;;
      onPublish config (next r)
  | PublishCopy srcPath destPath next =>
      r <- attempt (copy config srcPath destPath) ;;
      onPublish config (next r)
  | PublishRead filePath next =>
      r <- attempt (read config filePath) ;;
      onPublish config (next r)
  end.

Definition _publish (config : ESDocConfig) : M unit :=
  try_catch
    (emit EvOnPublish ;;
     onPublish config (Plugin_onPublish X))
    (fun e => emit (EvShowError e) ;; process_exit 1%Z).

(** ** [generate] *)

(** The variables the callback of [_walk] updates: [results] and [asts]. *)
Definition Collected : Type := (list DocObject * list (string * AST X))%type.

(** The callback [generate] gives to [_walk]. *)
Definition visit (inDirPath sourceDirPath : string) (includes excludes : list (RegExp X))
    (packageName mainFilePath : option string)
    (acc : Collected) (filePath : string) : M Collected :=
  let relativeFilePath := path_relative X sourceDirPath filePath in
  let matched := existsb (String_match X relativeFilePath) includes in
  if negb matched then ret acc
  else if existsb (String_match X relativeFilePath) excludes then ret acc
  else
    emit (EvConsoleLog ("parse: " ++ filePath)) ;;
    temp <- _traverse inDirPath filePath packageName mainFilePath ;;
    match temp with
    | None => ret acc
    | Some (results, ast) =>
        ret (fst acc ++ results,
             snd acc ++ [(("source" ++ path_sep X ++ relativeFilePath)%string, ast)])
    end.

Definition compile (patterns : option (list string)) : M (list (RegExp X)) :=
  match patterns with
  | Some l => map_of (fun v => call (RegExp_new X v)) l
  | None => throw (TypeError "Cannot read property 'map' of undefined")
  end.

(** [generate] from the comment [// config.index] on, with the [results]
    and [asts] the walk has collected. *)
Definition generate_output (config : ESDocConfig) (collected : Collected) : M unit :=
  let '(results, asts) := collected in
  results <-
     (if isTruthy (index config)
      then tag <- _generateForIndex config ;; ret (results ++ [tag])
      else ret results) ;;
  results <-
     (if isTruthy (package config)
      then tag <- _generateForPackageJSON config ;; ret (results ++ [tag])
      else ret results) ;;
  let results := _resolveDuplication results in
  emit (EvOnHandleDocs results) ;;
  let results := Plugin_onHandleDocs X results in
  dest <- string_arg (destination config) ;;
  outputFileSync (path_resolve X [dest; "index.json"]) (JSON_stringify_docs X results) ;;
  for_of
    (fun (_ : unit) '(astPath, ast) =>
       outputFileSync (path_resolve X [dest; ("ast/" ++ astPath ++ ".json")%string])
         (JSON_stringify_ast X ast))
    asts tt ;;
  _publish config ;;
  emit EvOnComplete.

(** [generate] from [Logger.debug = !!config.debug] on, with the config
    that [Plugin.onHandleConfig] and [_setDefaultConfig] leave. *)
Definition generate_body (config : ESDocConfig) : M unit :=
  emit (EvLoggerDebug (match debug config with Some b => b | None => false end)) ;;
  includes <- compile (includes config) ;;
  excludes <- compile (excludes config) ;;
  '(packageName, mainFilePath) <-
     match truthy (package config) with
     | Some path =>
         try_catch
           (packageJSON <- readFileSync path ;;
            call (JSON_parse_package X packageJSON))
           (fun _ => ret (None, None))
     | None => ret (None, None)
     end ;;
  inDirPath <- string_arg (source config) ;;
  let sourceDirPath := path_resolve X [inDirPath] in
  collected <-
     _walk inDirPath
       (visit inDirPath sourceDirPath includes excludes packageName mainFilePath)
       ([], []) ;;
  generate_output config collected.

Definition generate (config : ESDocConfig) : M unit :=
  assert (source config) ;;
  assert (destination config) ;;
  emit (EvPluginInit (plugins config)) ;;
  emit EvOnStart ;;
  emit (EvOnHandleConfig config) ;;
  let config := Plugin_onHandleConfig X config in
  let config := _setDefaultConfig config in
  let _ := _deprecatedConfig config in
  generate_body config.

(** ** Vocabulary of the properties of the pipeline *)

(** The world [w] after the events [evs], the files as they were. *)
Definition emitting (w : World) (evs : list Event) : World :=
  mkWorld (fs_files w) (fs_dirs w) (trace w ++ evs).

(** The calls of [factory.push] along the nodes: the factory they leave,
    or the first node on which [push] raises, with what it raises. *)
Fixpoint pushAll (factory : DocFactory X) (nodes : list (Node X * option (Node X)))
    : DocFactory X + Node X * JsError :=
  match nodes with
  | [] => inl factory
  | (node, parent) :: nodes' =>
      match DocFactory_push X factory node parent with
      | Ok factory' => pushAll factory' nodes'
      | Raise e => inr (node, e)
      end
  end.

(** A relative path passes the filters: some include pattern matches it
    and no exclude pattern does. *)
Definition selected (includes excludes : list (RegExp X)) (relativeFilePath : string)
    : bool :=
  existsb (String_match X relativeFilePath) includes
  && negb (existsb (String_match X relativeFilePath) excludes).

(** The files the events say were given to the parser, in order. *)
Definition parsedFiles (evs : list Event) : list string :=
  flat_map (fun ev => match ev with EvParse filePath => [filePath] | _ => [] end) evs.

(** What [_walk] does on the entries of a directory, in order: a
    [statSync], a [readdirSync], the callback on a file, an error raised. *)
Inductive Step : Type :=
| StatStep (path : string)
| ReaddirStep (path : string)
| VisitStep (filePath : string)
| RaiseStep (e : JsError).

Fixpoint steps (dirPath : string) (entry : Entry) {struct entry} : list Step :=
  match entry with
  | File name =>
      [StatStep (path_resolve X [dirPath; name]);
       VisitStep (path_resolve X [dirPath; name])]
  | Directory name entries =>
      StatStep (path_resolve X [dirPath; name])
      :: ReaddirStep (path_resolve X [dirPath; name])
      :: flat_map (steps (path_resolve X [dirPath; name])) entries
  | Unlistable name e =>
      [StatStep (path_resolve X [dirPath; name]);
       ReaddirStep (path_resolve X [dirPath; name]); RaiseStep e]
  | Special name => [StatStep (path_resolve X [dirPath; name])]
  | Unstatable name e => [StatStep (path_resolve X [dirPath; name]); RaiseStep e]
  end.

Definition runStep {S : Type} (callback : S -> string -> M S) (acc : S) (step : Step)
    : M S :=
  match step with
  | StatStep path => emit (EvStat path) ;; ret acc
  | ReaddirStep path => emit (EvReaddir path) ;; ret acc
  | VisitStep filePath => callback acc filePath
  | RaiseStep e => throw e
  end.

(** The files the steps visit, up to the first error raised. *)
Fixpoint visited (l : list Step) : list string :=
  match l with
  | [] => []
  | StatStep _ :: l' => visited l'
  | ReaddirStep _ :: l' => visited l'
  | VisitStep filePath :: l' => filePath :: visited l'
  | RaiseStep _ :: _ => []
  end.

(** No step raises: every directory can be listed and every entry has a
    status. *)
Definition listable (l : list Step) : Prop :=
  forall e, ~ In (RaiseStep e) l.

(** The plain files under a directory, as [_walk] comes to them. *)
Definition filesUnder (dirPath : string) (entries : list Entry) : list string :=
  visited (flat_map (steps dirPath) entries).

(** The events of the walk. *)
Definition walkEvent (ev : Event) : Prop :=
  match ev with
  | EvStat _ | EvReaddir _ | EvConsoleLog _ | EvLoggerInfo _ | EvParse _
  | EvShowFile _ _ | EvShow _ _ => True
  | _ => False
  end.

(** No call of [factory.push] raises on the nodes of the file, if the
    file parses. *)
Definition extractable (inDirPath : string) (packageName mainFilePath : option string)
    (filePath : string) : Prop :=
  forall ast, ESParser_parse X filePath = Ok ast ->
    exists factory,
      pushAll (DocFactory_new X ast inDirPath filePath packageName mainFilePath)
        (ASTUtil_nodes X ast) = inl factory.

(** What the walk over the steps [l] leaves: the way [r] it ends and the
    events [evs] it adds, for the filter [sel] on the files. *)
Definition WalkPost {S : Type} (sel : string -> bool) (ext : string -> Prop)
    (l : list Step) (r : Outcome S) (evs : list Event) : Prop :=
  (forall code, r <> Exit code)
  /\ Forall walkEvent evs
  /\ (forall filePath node, In (EvShow filePath node) evs -> exists e, r = Throw e)
  /\ (exists rest, parsedFiles evs ++ rest = filter sel (visited l))
  /\ (forall acc, r = Return acc -> parsedFiles evs = filter sel (visited l))
  /\ (listable l -> Forall (fun filePath => sel filePath = true -> ext filePath)
                      (visited l) ->
      exists acc, r = Return acc).

(** [config.includes.map((v) => new RegExp(v))]: the compiled patterns, or
    what the first pattern that does not compile raises. *)
Fixpoint compileAll (patterns : list string) : result (list (RegExp X)) :=
  match patterns with
  | [] => Ok []
  | v :: patterns' =>
      match RegExp_new X v with
      | Ok reg =>
          match compileAll patterns' with
          | Ok regs => Ok (reg :: regs)
          | Raise e => Raise e
          end
      | Raise e => Raise e
      end
  end.

(** The [packageName] and [mainFilePath] that [generate] reads from the
    package file. *)
Definition packageInfo (config : ESDocConfig) (w : World)
    : option string * option string :=
  match truthy (package config) with
  | Some path =>
      match lookup path (fs_files w) with
      | Ok packageJSON =>
          match JSON_parse_package X packageJSON with
          | Ok info => info
          | Raise _ => (None, None)
          end
      | Raise _ => (None, None)
      end
  | None => (None, None)
  end.

(** The events of [generate] from [Logger.debug = !!config.debug] to the
    walk. *)
Definition preludeEvents (config : ESDocConfig) : list Event :=
  EvLoggerDebug (match debug config with Some b => b | None => false end)
  :: match truthy (package config) with
     | Some path => [EvReadFile path]
     | None => []
     end.

(** The events of [generate] before the walk. *)
Definition preludeEvent (ev : Event) : Prop :=
  match ev with
  | EvPluginInit _ | EvOnStart | EvOnHandleConfig _ | EvLoggerDebug _
  | EvReadFile _ => True
  | _ => False
  end.

(** The events of [generate] after the walk, up to the call of
    [Plugin.onPublish] and what that call does. *)
Definition outputEvent (ev : Event) : Prop :=
  match ev with
  | EvReadFile _ | EvOnHandleDocs _ | EvOutputFile _ _ | EvOnPublish
  | EvOnHandleContent _ _ | EvConsoleLog _ | EvCopy _ _ => True
  | _ => False
  end.

(** The events of [generate] up to the end of the walk. *)
Definition beforeOutput (ev : Event) : Prop := preludeEvent ev \/ walkEvent ev.

(** The events of [generate] that are not of the [catch] of [_publish] or
    after it. *)
Definition beforeCatch (ev : Event) : Prop :=
  preludeEvent ev \/ walkEvent ev \/ outputEvent ev.

(** A run in which [InvalidCodeLogger.show] was called ended by raising,
    before the docs were handled or anything was written. *)
Definition AbortsOnExtractionError (r : Outcome unit) (evs : list Event) : Prop :=
  forall filePath node, In (EvShow filePath node) evs ->
    (exists e, r = Throw e) /\ Forall beforeOutput evs.

(** A run in which [InvalidCodeLogger.showError] was called ended by
    [process.exit(1)], and [Plugin.onComplete] was not called. *)
Definition ExitsOnPublishError (r : Outcome unit) (evs : list Event) : Prop :=
  forall e, In (EvShowError e) evs -> r = Exit 1%Z /\ ~ In EvOnComplete evs.




(** [traced m Q]: from every world, [m] adds some events [evs] to the
    trace and ends in a way [r] such that [Q r evs]. *)
Definition traced {A : Type} (m : M A) (Q : Outcome A -> list Event -> Prop) : Prop :=
  forall w, exists evs, trace (snd (m w)) = trace w ++ evs /\ Q (fst (m w)) evs.

(** [emits P canExit m]: the events [m] adds are all in [P], and [m] ends
    by [process.exit] only if [canExit]. *)
Definition emits {A : Type} (P : Event -> Prop) (canExit : Prop) (m : M A) : Prop :=
  traced m (fun r evs => Forall P evs /\ forall code, r = Exit code -> canExit).

End Pipeline.

Arguments Return {A} a.
Arguments Throw {A} e.
Arguments Exit {A} code.
Arguments mkWorld {X} fs_files fs_dirs trace.
Arguments fs_files {X} w.
Arguments fs_dirs {X} w.
Arguments trace {X} w.
Arguments ret {X A} a.
Arguments bind {X A B} m k.
Arguments throw {X A} e.
Arguments process_exit {X A} code.
Arguments try_catch {X A} m handler.
Arguments emit {X} ev.
Arguments call {X A} r.
Arguments for_of {X A S} body l acc.
Arguments map_of {X A B} f l.
Arguments emitting {X} w evs.
Arguments runStep {X S} callback acc step.
Arguments parsedFiles {X} evs.
Arguments traced {X A} m Q.
Arguments beforeOutput {X} ev.
Arguments beforeCatch {X} ev.
Arguments AbortsOnExtractionError {X} r evs.
Arguments ExitsOnPublishError {X} r evs.
Arguments preludeEvent {X} ev.
Arguments outputEvent {X} ev.
Arguments emits {X A} P canExit m.
Arguments walkEvent {X} ev.
Arguments WalkPost {X S} sel ext l r evs.
Arguments EvPluginInit {X} plugins.
Arguments EvOnStart {X}.
Arguments EvOnHandleConfig {X} config.
Arguments EvLoggerDebug {X} on.
Arguments EvReadFile {X} path.
Arguments EvReaddir {X} path.
Arguments EvStat {X} path.
Arguments EvConsoleLog {X} message.
Arguments EvLoggerInfo {X} message.
Arguments EvParse {X} filePath.
Arguments EvShowFile {X} filePath e.
Arguments EvShow {X} filePath node.
Arguments EvShowError {X} e.
Arguments EvOnHandleDocs {X} docs.
Arguments EvOutputFile {X} path content.
Arguments EvCopy {X} srcPath destPath.
Arguments EvOnHandleContent {X} content path.
Arguments EvOnPublish {X}.
Arguments EvOnComplete {X}.

(** ** Vocabulary of the properties *)

Definition isMember (doc : DocObject) : bool := kind doc =? "member".

Definition atLongname (l : string) (doc : DocObject) : bool := longname doc =? l.

(** The [removeIds] of [_resolveDuplication] when its loop is over. *)
Definition removeIds (docs : list DocObject) : list (option DocId) :=
  fold_left (resolveMember docs) (filter isMember docs) [].

(** The docs [dup] of the loop body for a member doc at the longname [l]. *)
Definition dupAt (docs : list DocObject) (l : string) : list DocObject :=
  filter (fun doc => (longname doc =? l) && (kind doc =? "member")) docs.

(** Unique identifiers: no two member docs have the same identifier, and
    no member doc has the identifier of a doc of another kind.  The docs of
    other kinds may lack an identifier, as the index and the packageJSON
    docs do. *)
Definition uniqueIds (docs : list DocObject) : Prop :=
  NoDup (map __docId__ (filter isMember docs))
  /\ (forall m d, In m docs -> In d docs ->
                  kind m = "member" -> kind d <> "member" ->
                  __docId__ m <> __docId__ d).

(** The optional fields of a config have their defaults or a value of
    their own. *)
Definition defaultsFilled (config : ESDocConfig) : Prop :=
  includes config <> None /\ excludes config <> None
  /\ isTruthy (index config) = true /\ isTruthy (package config) = true.

(** The order [Array.prototype.sort] leaves identifiers in with
    [compareIds]: strings ascending, [undefined] last. *)
Definition idLeb (x y : option DocId) : bool :=
  match x, y with
  | Some a, Some b => (a <=? b)%string
  | _, None => true
  | None, Some _ => false
  end.

(** ** A small project to run the pipeline on *)

Module Demo.

Definition ends_with (suffix s : string) : bool :=
  let n := String.length s in
  let m := String.length suffix in
  (m <=? n)%nat && (substring (n - m) m s =? suffix).

Definition contains (part s : string) : bool :=
  match String.index 0 part s with Some _ => true | None => false end.

(** The two default patterns mean what they mean as regular expressions;
    ["("] does not compile; any other pattern is looked for as it is. *)
Definition regexp_new (v : string) : result string :=
  if v =? "(" then Raise (Error "SyntaxError: Invalid regular expression")
  else Ok v.

Definition string_match (s reg : string) : bool :=
  if reg =? "\.(js|es6)$" then ends_with ".js" s || ends_with ".es6" s
  else if reg =? "\.config\.(js|es6)$"
       then ends_with ".config.js" s || ends_with ".config.es6" s
  else contains reg s.

Definition relative (from to : string) : string :=
  let root := (from ++ "/")%string in
  if prefix root to
  then substring (String.length root) (String.length to - String.length root) to
  else to.

(** A file named [broken.js] does not parse; a node named [bad] makes the
    factory raise; every other node gives one doc, a member when its name
    starts with [this.]. *)
Definition parse (filePath : string) : result (list string) :=
  if ends_with "broken.js" filePath
  then Raise (Error "SyntaxError: Unexpected token")
  else if ends_with "buggy.js" filePath then Ok ["f"; "bad"; "g"]
  else Ok ["f"; "this.p"; "this.p"; "p"].

Definition push (filePath : string) (factory : list DocObject) (node : string)
    (parent : option string) : result (list DocObject) :=
  if node =? "bad" then Raise (Error "TypeError: cannot read property")
  else
    let id := (filePath ++ "#" ++ node ++ "#"
               ++ String.concat "" (map (fun _ => "i") factory))%string in
    if prefix "this." node
    then Ok (factory ++ [mkDoc "member" (substring 5 (String.length node - 5) node)
                            node false "public" "" (Some id)])
    else Ok (factory ++ [mkDoc "method" node node false "public" "" (Some id)]).

(** A write under a path that is a file raises; any other write binds the
    path. *)
Definition outputFile (files : Files) (path content : string) : result Files :=
  if existsb (fun b => prefix (fst b ++ "/") path) (fst files)
  then Raise (Error ("ENOTDIR: not a directory '" ++ path ++ "'"))
  else Ok ((path, content) :: fst files, snd files).

(** A file is copied as it is written; a directory with all that is bound
    under it; a source that does not exist raises. *)
Definition copyFiles (files : Files) (srcPath destPath : string) : result Files :=
  let under (path : string) := (path =? srcPath) || prefix (srcPath ++ "/") path in
  let moved (path : string) :=
    (destPath ++ substring (String.length srcPath)
                   (String.length path - String.length srcPath) path)%string in
  match lookup srcPath (fst files), lookup srcPath (snd files) with
  | Ok content, _ => outputFile files destPath content
  | Raise _, Ok _ =>
      if existsb (fun b => prefix (fst b ++ "/") destPath) (fst files)
      then Raise (Error ("ENOTDIR: not a directory '" ++ destPath ++ "'"))
      else Ok (map (fun b => (moved (fst b), snd b))
                 (filter (fun b => under (fst b)) (fst files)) ++ fst files,
               map (fun b => (moved (fst b), snd b))
                 (filter (fun b => under (fst b)) (snd files)) ++ snd files)
  | Raise e, Raise _ => Raise e
  end.

Definition externals (hook : Publishing) : Externals := {|
  AST := list string;
  Node := string;
  DocFactory := string * list DocObject;
  RegExp := string;
  RegExp_new := regexp_new;
  String_match := string_match;
  path_resolve := String.concat "/";
  path_relative := relative;
  path_basename := fun p => p;
  path_sep := "/";
  JSON_parse_package := fun _ => Ok (Some "demo", Some "a.js");
  JSON_stringify_docs := fun docs => String.concat "," (map longname docs);
  JSON_stringify_ast := String.concat " ";
  ESParser_parse := parse;
  ASTUtil_nodes := fun ast => map (fun node => (node, None)) ast;
  DocFactory_new := fun _ _ filePath _ _ => (filePath, []);
  DocFactory_push := fun factory node parent =>
    match push (fst factory) (snd factory) node parent with
    | Ok docs => Ok (fst factory, docs)
    | Raise e => Raise e
    end;
  DocFactory_results := snd;
  Plugin_onHandleConfig := fun config => config;
  Plugin_onHandleDocs := fun docs => docs;
  Plugin_onHandleContent := fun content _ => content;
  Plugin_onPublish := hook;
  fs_outputFileSync := outputFile;
  fs_copySync := copyFiles
|}.

Definition config (includes : option (list string)) : ESDocConfig :=
  mkConfig (Some "/src") (Some "/out") includes None None None None None.

(** [/src] holds [a.js], [broken.js], [lib/b.js], [lib/b.config.js] and
    [notes.txt]; [/src2] holds [buggy.js]; [./README.md] is there,
    [./package.json] is not. *)
Definition world (X : Externals) : World X :=
  mkWorld
    [("./README.md", "# demo")]
    [("/src", [File "a.js"; File "broken.js";
               Directory "lib" [File "b.js"; File "b.config.js"];
               Special "socket"; File "notes.txt"]);
     ("/src2", [File "buggy.js"; File "a.js"])]
    [].

(** The same project without [./README.md]. *)
Definition world_without_index (X : Externals) : World X :=
  mkWorld [] [("/src", [File "a.js"])] [].

(** Plugins that publish nothing, and plugins whose [onPublish] reads a
    template that is not there and raises what the read raised. *)
Definition quiet : Externals := externals Published.

Definition failing : Externals :=
  externals (PublishRead "layout.html"
               (fun r => match r with
                         | Ok _ => Published
                         | Raise e => PublishRaise e
                         end)).

Definition doc (kind longname id : string) : DocObject :=
  mkDoc kind longname longname false "public" "" (Some id).

(** A class reopened twice: three member docs at the longname [Y]; and
    the two docs without an identifier that [generate] adds. *)
Definition reopened : list DocObject :=
  [doc "method" "A#f" "1"; doc "member" "Y" "2"; doc "member" "Y" "10";
   doc "class" "A" "4"; doc "member" "Y" "3";
   mkDoc "index" "/README.md" "./README.md" true "public" "# demo" None;
   mkDoc "packageJSON" "" "" true "public" "" None].

(** A property that is declared as a method too. *)
Definition shadowed : list DocObject :=
  [doc "member" "X" "1"; doc "method" "X" "2"].

End Demo.


(** ** Vocabulary of further properties *)

(** Every directory in the entry can be listed and every entry has a
    status. *)
Fixpoint readable (entry : Entry) : bool :=
  match entry with
  | File _ => true
  | Directory _ entries => forallb readable entries
  | Unlistable _ _ => false
  | Special _ => true
  | Unstatable _ _ => false
  end.

Section Coverage.

Context (X : Externals).

(** The plain files in an entry of the directory [dirPath], depth first
    in the order of the listings. *)
Fixpoint plainFilesOf (dirPath : string) (entry : Entry) {struct entry} : list string :=
  match entry with
  | File name => [path_resolve X [dirPath; name]]
  | Directory name entries =>
      flat_map (plainFilesOf (path_resolve X [dirPath; name])) entries
  | Unlistable _ _ => []
  | Special _ => []
  | Unstatable _ _ => []
  end.

Definition plainFiles (dirPath : string) (entries : list Entry) : list string :=
  flat_map (plainFilesOf dirPath) entries.

(** A callback that notes the paths it is called with. *)
Definition note (acc : list string) (filePath : string) : M X (list string) :=
  ret (acc ++ [filePath]).

(** What the callback of [generate] adds to [results] and [asts] for one
    file, when no call of [factory.push] raises. *)
Definition collectFile (inDirPath sourceDirPath : string)
    (includes excludes : list (RegExp X)) (packageName mainFilePath : option string)
    (acc : Collected X) (filePath : string) : Collected X :=
  if selected X includes excludes (path_relative X sourceDirPath filePath) then
    match ESParser_parse X filePath with
    | Ok ast =>
        match pushAll X (DocFactory_new X ast inDirPath filePath packageName mainFilePath)
                (ASTUtil_nodes X ast) with
        | inl factory =>
            (fst acc ++ DocFactory_results X factory,
             snd acc ++ [(("source" ++ path_sep X
                           ++ path_relative X sourceDirPath filePath)%string, ast)])
        | inr _ => acc
        end
    | Raise _ => acc
    end
  else acc.

(** The [results] and [asts] after the files, in order. *)
Definition collect (inDirPath sourceDirPath : string)
    (includes excludes : list (RegExp X)) (packageName mainFilePath : option string)
    (files : list string) (acc : Collected X) : Collected X :=
  fold_left
    (collectFile inDirPath sourceDirPath includes excludes packageName mainFilePath)
    files acc.

(** The doc that [_generateForIndex] builds from the text of the index
    file. *)
Definition indexDoc (path indexContent : string) : DocObject :=
  mkDoc "index" (path_resolve X [path]) path true "public" indexContent None.

(** The doc that [_generateForPackageJSON] builds in the world [w]. *)
Definition packageDoc (config : ESDocConfig) (w : World X) : DocObject :=
  match package config with
  | Some path =>
      match lookup path (fs_files w) with
      | Ok packageJSON =>
          mkDoc "packageJSON" (path_resolve X [path])
            (path_basename X (path_resolve X [path])) true "public" packageJSON None
      | Raise _ => mkDoc "packageJSON" "" (path_basename X "") true "public" "" None
      end
  | None => mkDoc "packageJSON" "" (path_basename X "") true "public" "" None
  end.

End Coverage.

Arguments note {X} acc filePath.

(** * Part II: properties *)

(** ** Strings in lexical order *)

Lemma string_ltb_lt (a b : string) : (a <? b)%string = true <-> String_as_OT.lt a b.
Proof.
  unfold String.ltb. rewrite <- String_as_OT.cmp_lt. unfold String_as_OT.cmp.
  destruct (String.compare a b); split; congruence.
Qed.

Lemma string_leb_refl (a : string) : (a <=? a)%string = true.
Proof.
  unfold String.leb.
  replace (String.compare a a) with Eq; [reflexivity|].
  symmetry. apply (String_as_OT.cmp_eq a a). reflexivity.
Qed.

Lemma string_leb_cases (a b : string) :
  (a <=? b)%string = true <-> a = b \/ (a <? b)%string = true.
Proof.
  unfold String.leb, String.ltb.
  destruct (String.compare a b) eqn:E; split; intros H; auto; try discriminate.
  - left. apply String_as_OT.cmp_eq. exact E.
  - destruct H as [H|H]; [|discriminate].
    apply (proj2 (String_as_OT.cmp_eq a b)) in H.
    unfold String_as_OT.cmp in H. rewrite E in H. discriminate H.
Qed.

Lemma string_ltb_false_leb (a b : string) :
  (a <? b)%string = false -> (b <=? a)%string = true.
Proof.
  unfold String.ltb, String.leb. rewrite (String.compare_antisym a b).
  destruct (String.compare b a); simpl; congruence.
Qed.

Lemma string_ltb_leb (a b : string) :
  (a <? b)%string = true -> (a <=? b)%string = true.
Proof. intros H. apply string_leb_cases. right. exact H. Qed.

Lemma string_leb_trans (a b c : string) :
  (a <=? b)%string = true -> (b <=? c)%string = true -> (a <=? c)%string = true.
Proof.
  rewrite !string_leb_cases.
  intros [->|Hab] [->|Hbc]; auto.
  right. apply string_ltb_lt. apply string_ltb_lt in Hab, Hbc.
  eapply String_as_OT.lt_trans; eassumption.
Qed.

Lemma idLeb_refl (x : option DocId) : idLeb x x = true.
Proof. destruct x; simpl; [apply string_leb_refl | reflexivity]. Qed.

Lemma idLeb_antisym (x y : option DocId) :
  idLeb x y = true -> idLeb y x = true -> x = y.
Proof.
  destruct x, y; simpl; try congruence.
  intros H1 H2. f_equal. apply String.leb_antisym; assumption.
Qed.

(** ** [Array.prototype.sort] *)

Section Sorting.

Context {A : Type} (compareFn : A -> A -> Z).

Lemma insert_perm (a : A) (l : list A) :
  Permutation (JsArray.insert compareFn a l) (a :: l).
Proof.
  induction l as [|b l IH]; simpl.
  - apply Permutation_refl.
  - destruct (0 <? compareFn a b)%Z.
    + eapply perm_trans; [apply perm_skip, IH | apply perm_swap].
    + apply Permutation_refl.
Qed.

Lemma insertion_perm (l : list A) :
  Permutation (fold_right (JsArray.insert compareFn) [] l) l.
Proof.
  induction l as [|a l IH]; simpl.
  - apply perm_nil.
  - eapply perm_trans; [apply insert_perm | apply perm_skip, IH].
Qed.

Lemma defined_undefineds_perm (l : list (option A)) :
  Permutation (map Some (JsArray.defined l) ++ JsArray.undefineds l) l.
Proof.
  induction l as [|[a|] l IH]; simpl.
  - apply perm_nil.
  - apply perm_skip, IH.
  - apply Permutation_sym.
    eapply perm_trans; [apply perm_skip, Permutation_sym, IH|].
    apply Permutation_middle.
Qed.

(** The sorted array holds the elements of the array, each as often. *)
Lemma sort_perm (l : list (option A)) :
  Permutation (JsArray.sort compareFn l) l.
Proof.
  unfold JsArray.sort.
  eapply perm_trans; [|apply defined_undefineds_perm].
  apply Permutation_app_tail, Permutation_map, insertion_perm.
Qed.

End Sorting.

Lemma insert_sorted (a : DocId) (l : list DocId) :
  StronglySorted (fun x y => (x <=? y)%string = true) l ->
  StronglySorted (fun x y => (x <=? y)%string = true) (JsArray.insert compareIds a l).
Proof.
  induction 1 as [|b l Hs IH Hb]; simpl.
  - constructor; constructor.
  - unfold compareIds at 1. destruct (a <? b)%string eqn:E; simpl.
    + constructor; [constructor; assumption|].
      constructor; [apply string_ltb_leb, E|].
      eapply Forall_impl; [|exact Hb].
      intros c Hc. eapply string_leb_trans; [apply string_ltb_leb, E | exact Hc].
    + constructor; [exact IH|].
      eapply Permutation_Forall; [apply Permutation_sym, insert_perm|].
      constructor; [apply string_ltb_false_leb, E | exact Hb].
Qed.

Lemma insertion_sorted (l : list DocId) :
  StronglySorted (fun x y => (x <=? y)%string = true)
    (fold_right (JsArray.insert compareIds) [] l).
Proof.
  induction l as [|a l IH]; simpl; [constructor | apply insert_sorted, IH].
Qed.

(** With [compareIds] the identifiers come out ascending, [undefined] last. *)
Lemma sort_sorted (l : list (option DocId)) :
  StronglySorted (fun x y => idLeb x y = true) (JsArray.sort compareIds l).
Proof.
  unfold JsArray.sort.
  assert (Hu : Forall (fun x => x = None) (JsArray.undefineds l)).
  { apply Forall_forall. intros x Hx. unfold JsArray.undefineds in Hx.
    apply filter_In in Hx. destruct x; [destruct Hx; discriminate | reflexivity]. }
  revert Hu. generalize (JsArray.undefineds l) as u.
  generalize (insertion_sorted (JsArray.defined l)).
  generalize (fold_right (JsArray.insert compareIds) [] (JsArray.defined l)) as s.
  intros s Hs u Hu. induction Hs as [|a s Hs IH Ha]; simpl.
  - induction Hu as [|x u Hx Hu IHu]; constructor; [exact IHu|].
    subst x. eapply Forall_impl; [|exact Hu]. intros y ->. reflexivity.
  - constructor; [exact IH|].
    apply Forall_app. split.
    + apply Forall_forall. intros y Hy. apply in_map_iff in Hy.
      destruct Hy as [b [<- Hb]]. simpl.
      rewrite Forall_forall in Ha. apply Ha, Hb.
    + eapply Forall_impl; [|exact Hu]. intros y ->. reflexivity.
Qed.

(** ** [_resolveDuplication] *)

Lemma sameValueZero_eq (x y : option DocId) :
  JsArray.sameValueZero x y = true <-> x = y.
Proof.
  destruct x as [a|], y as [b|]; simpl; split; intros H;
    try discriminate; try reflexivity.
  - apply String.eqb_eq in H. congruence.
  - apply String.eqb_eq. congruence.
Qed.

Lemma includes_In (l : list (option DocId)) (x : option DocId) :
  JsArray.includes l x = true <-> In x l.
Proof.
  unfold JsArray.includes. rewrite existsb_exists. split.
  - intros [y [Hy E]]. apply sameValueZero_eq in E. subst y. exact Hy.
  - intros H. exists x. split; [exact H | apply sameValueZero_eq; reflexivity].
Qed.

Lemma resolveMember_app (docs : list DocObject) (acc : list (option DocId))
    (memberDoc : DocObject) :
  resolveMember docs acc memberDoc = acc ++ resolveMember docs [] memberDoc.
Proof.
  unfold resolveMember.
  destruct (find _ docs); [reflexivity|].
  destruct (1 <? _)%nat; [reflexivity | symmetry; apply app_nil_r].
Qed.

Lemma fold_resolveMember (docs members : list DocObject) (acc : list (option DocId)) :
  fold_left (resolveMember docs) members acc
  = acc ++ flat_map (resolveMember docs []) members.
Proof.
  revert acc. induction members as [|m members IH]; intros acc; simpl.
  - symmetry. apply app_nil_r.
  - rewrite IH, resolveMember_app, <- app_assoc. reflexivity.
Qed.

(** An identifier is in [removeIds] when some member doc pushed it. *)
Lemma In_removeIds (docs : list DocObject) (i : option DocId) :
  In i (removeIds docs) <->
  exists m, In m docs /\ kind m = "member" /\ In i (resolveMember docs [] m).
Proof.
  unfold removeIds. rewrite fold_resolveMember. simpl. rewrite in_flat_map.
  split; intros [m [Hm Hi]]; exists m.
  - apply filter_In in Hm. destruct Hm as [Hm Hk].
    apply String.eqb_eq in Hk. auto.
  - destruct Hi as [Hk Hi]. split; [|exact Hi].
    apply filter_In. split; [exact Hm | apply String.eqb_eq, Hk].
Qed.

Lemma In_resolve (docs : list DocObject) (d : DocObject) :
  In d (_resolveDuplication docs) <->
  In d docs /\ ~ In (__docId__ d) (removeIds docs).
Proof.
  unfold _resolveDuplication. fold isMember. fold (removeIds docs).
  rewrite filter_In, negb_true_iff, <- not_true_iff_false, includes_In.
  reflexivity.
Qed.

(** *** Unique identifiers *)

Lemma NoDup_map_In_inj {A B : Type} (f : A -> B) (l : list A) (x y : A) :
  NoDup (map f l) -> In x l -> In y l -> f x = f y -> x = y.
Proof.
  induction l as [|a l IH]; simpl; intros Hnd Hx Hy E; [contradiction|].
  inversion Hnd as [|? ? Hna Hnd']; subst.
  destruct Hx as [->|Hx], Hy as [->|Hy]; auto.
  - exfalso. apply Hna. rewrite E. apply in_map, Hy.
  - exfalso. apply Hna. rewrite <- E. apply in_map, Hx.
Qed.

Lemma NoDup_map_filter {A B : Type} (key : A -> B) (keep : A -> bool) (xs : list A)
    (Hkeys : NoDup (map key xs)) :
  NoDup (map key (filter keep xs)).
Proof.
  induction xs as [|a xs IH]; simpl; [constructor|].
  inversion Hkeys as [|? ? Hna Hnd']; subst.
  destruct (keep a); simpl; [|auto].
  constructor; [|auto].
  intros Hin. apply Hna. apply in_map_iff in Hin.
  destruct Hin as [x [E Hx]]. apply filter_In in Hx.
  rewrite <- E. apply in_map, Hx.
Qed.

Lemma NoDup_all_equal {A : Type} (l : list A) (a : A) :
  NoDup l -> (forall x, In x l -> x = a) -> (List.length l <= 1)%nat.
Proof.
  intros Hnd Hall. destruct l as [|x [|y l]]; simpl; try lia.
  exfalso. inversion Hnd as [|? ? Hn _]; subst. apply Hn.
  rewrite (Hall x), <- (Hall y); simpl; auto.
Qed.

Lemma NoDup_singleton {A : Type} (l : list A) (a : A) :
  NoDup l -> In a l -> (forall x, In x l -> x = a) -> l = [a].
Proof.
  intros Hnd Ha Hall. pose proof (NoDup_all_equal l a Hnd Hall) as Hlen.
  destruct l as [|x [|y l]]; simpl in *; try contradiction; try lia.
  rewrite (Hall x); auto.
Qed.

Lemma filter_all {A : Type} (p : A -> bool) (l : list A) :
  (forall x, In x l -> p x = true) -> filter p l = l.
Proof.
  induction l as [|a l IH]; simpl; intros H; [reflexivity|].
  rewrite (H a), IH; auto.
Qed.

(** *** What one member doc pushes *)

Lemma In_dupAt (docs : list DocObject) (l : string) (d : DocObject) :
  In d (dupAt docs l) <-> In d docs /\ longname d = l /\ kind d = "member".
Proof.
  unfold dupAt. rewrite filter_In, andb_true_iff, !String.eqb_eq. reflexivity.
Qed.

Lemma pushed_competitor (docs : list DocObject) (m d : DocObject) :
  In d docs -> longname d = longname m -> kind d <> "member" ->
  resolveMember docs [] m = [__docId__ m].
Proof.
  intros Hd Hl Hk. unfold resolveMember.
  destruct (find _ docs) as [x|] eqn:E; [reflexivity|].
  exfalso. apply (find_none _ _ E) in Hd. simpl in Hd.
  apply andb_false_iff in Hd. destruct Hd as [Hd|Hd].
  - apply String.eqb_neq in Hd. contradiction.
  - apply negb_false_iff, String.eqb_eq in Hd. contradiction.
Qed.

Lemma pushed_no_competitor (docs : list DocObject) (m : DocObject) :
  (forall d, In d docs -> longname d = longname m -> kind d = "member") ->
  resolveMember docs [] m
  = if (1 <? List.length (dupAt docs (longname m)))%nat
    then tl (JsArray.sort compareIds (map __docId__ (dupAt docs (longname m))))
    else [].
Proof.
  intros H. unfold resolveMember.
  destruct (find _ docs) as [x|] eqn:E; [|reflexivity].
  exfalso. apply find_some in E. destruct E as [Hx E].
  apply andb_true_iff in E. destruct E as [El Ek].
  apply String.eqb_eq in El. apply negb_true_iff, String.eqb_neq in Ek.
  apply Ek. apply H; assumption.
Qed.

(** Either way, what is pushed is the identifier of a member doc at the
    same longname. *)
Lemma pushed_is_member_id (docs : list DocObject) (m : DocObject) (i : option DocId) :
  In m docs -> kind m = "member" -> In i (resolveMember docs [] m) ->
  exists m', In m' docs /\ kind m' = "member" /\ longname m' = longname m
             /\ __docId__ m' = i.
Proof.
  intros Hm Hk Hi. unfold resolveMember in Hi.
  destruct (find _ docs) as [x|].
  - destruct Hi as [<-|[]]. exists m. auto.
  - fold (dupAt docs (longname m)) in Hi.
    destruct (1 <? _)%nat; [|contradiction].
    assert (Hs : In i (JsArray.sort compareIds (map __docId__ (dupAt docs (longname m))))).
    { unfold JsArray.shift in Hi.
      destruct (JsArray.sort compareIds _); simpl in *; tauto. }
    apply (Permutation_in _ (sort_perm compareIds _)) in Hs.
    apply in_map_iff in Hs. destruct Hs as [m' [E Hm']].
    apply In_dupAt in Hm'. exists m'. tauto.
Qed.

Lemma two_elements {A : Type} (l : list A) (x y : A) :
  In x l -> In y l -> x <> y -> (1 < List.length l)%nat.
Proof.
  destruct l as [|a [|b l]]; simpl; intros Hx Hy Hne; try contradiction; try lia.
  destruct Hx as [<-|[]], Hy as [<-|[]]. contradiction.
Qed.

Lemma filter_andb {A : Type} (p q : A -> bool) (l : list A) :
  filter (fun x => p x && q x) l = filter p (filter q l).
Proof.
  induction l as [|a l IH]; simpl; [reflexivity|].
  destruct (q a); simpl; rewrite ?andb_true_r, ?andb_false_r;
    [destruct (p a)|]; rewrite IH; reflexivity.
Qed.

Lemma filter_comm {A : Type} (p q : A -> bool) (l : list A) :
  filter p (filter q l) = filter q (filter p l).
Proof.
  rewrite <- !filter_andb. apply filter_ext. intros a. apply andb_comm.
Qed.

Lemma filter_absorb {A : Type} (p q : A -> bool) (l : list A) :
  (forall x, In x l -> p x = true -> q x = true) ->
  filter p (filter q l) = filter p l.
Proof.
  intros H. rewrite <- filter_andb. apply filter_ext_in. intros a Ha.
  destruct (p a) eqn:E; [rewrite (H a Ha E)|]; reflexivity.
Qed.

Lemma dupAt_members (docs : list DocObject) (l : string) :
  dupAt docs l = filter (atLongname l) (filter isMember docs).
Proof. unfold dupAt. apply (filter_andb (atLongname l) isMember). Qed.

(** Identifiers that are all different are unique. *)
Lemma NoDup_uniqueIds (docs : list DocObject) :
  NoDup (map __docId__ docs) -> uniqueIds docs.
Proof.
  intros H. split.
  - apply NoDup_map_filter, H.
  - intros m d Hm Hd Hk Hkd E.
    assert (m = d) by (eapply NoDup_map_In_inj; eassumption).
    subst d. contradiction.
Qed.

(** So are the identifiers of what [generate] resolves, when the factories
    gave every doc an identifier of its own: the docs that [generate] adds
    are not member docs and have no identifier. *)
Lemma uniqueIds_with_synthetic (docs tags : list DocObject) :
  NoDup (map __docId__ docs) ->
  Forall (fun d => __docId__ d <> None) docs ->
  Forall (fun tag => kind tag <> "member" /\ __docId__ tag = None) tags ->
  uniqueIds (docs ++ tags).
Proof.
  intros Hnd Hsome Htags. rewrite Forall_forall in Hsome, Htags.
  assert (Hmem : forall m, In m (docs ++ tags) -> kind m = "member" -> In m docs).
  { intros m Hm Hk. apply in_app_or in Hm. destruct Hm as [Hm|Hm]; [exact Hm|].
    exfalso. exact (proj1 (Htags m Hm) Hk). }
  split.
  - assert (Hnone : filter isMember tags = []).
    { clear Hmem. induction tags as [|tag tags IH]; simpl; [reflexivity|].
      unfold isMember at 1.
      rewrite (proj2 (String.eqb_neq _ _) (proj1 (Htags tag (or_introl eq_refl)))).
      apply IH. intros x Hx. apply Htags. right. exact Hx. }
    rewrite filter_app, Hnone, app_nil_r. apply NoDup_map_filter, Hnd.
  - intros m d Hm Hd Hk Hkd E. pose proof (Hmem m Hm Hk) as Hmd.
    apply in_app_or in Hd. destruct Hd as [Hd|Hd].
    + assert (m = d) by (eapply NoDup_map_In_inj; eassumption).
      subst d. contradiction.
    + apply (Hsome m Hmd). rewrite E. exact (proj2 (Htags d Hd)).
Qed.

Lemma resolve_filter (docs : list DocObject) :
  _resolveDuplication docs
  = filter (fun d => negb (JsArray.includes (removeIds docs) (__docId__ d))) docs.
Proof. reflexivity. Qed.

Lemma resolve_incl (docs : list DocObject) (d : DocObject) :
  In d (_resolveDuplication docs) -> In d docs.
Proof. intros H. apply In_resolve in H. tauto. Qed.

Lemma resolve_uniqueIds (docs : list DocObject) :
  uniqueIds docs -> uniqueIds (_resolveDuplication docs).
Proof.
  intros [Hnd Hother]. split.
  - rewrite resolve_filter, filter_comm. apply NoDup_map_filter, Hnd.
  - intros m d Hm Hd. apply Hother; apply resolve_incl; assumption.
Qed.

Section Resolution.

Variable docs : list DocObject.
Hypothesis unique : uniqueIds docs.

Lemma same_id_same_member (x y : DocObject) :
  In x docs -> In y docs -> kind x = "member" -> kind y = "member" ->
  __docId__ x = __docId__ y -> x = y.
Proof.
  intros Hx Hy Hkx Hky.
  apply (NoDup_map_In_inj __docId__ (filter isMember docs)).
  - apply unique.
  - apply filter_In. split; [exact Hx | apply String.eqb_eq, Hkx].
  - apply filter_In. split; [exact Hy | apply String.eqb_eq, Hky].
Qed.

Lemma members_NoDup : NoDup (filter isMember docs).
Proof. eapply NoDup_map_inv. apply unique. Qed.

(** Where no doc of another kind has the longname [l], a doc at [l]
    stays when its identifier is the least at [l], and only then. *)
Lemma survivor_iff_least (l : string) (d : DocObject) :
  (forall x, In x docs -> longname x = l -> kind x = "member") ->
  In d docs -> longname d = l ->
  (In d (_resolveDuplication docs) <->
   forall d', In d' docs -> longname d' = l ->
              idLeb (__docId__ d) (__docId__ d') = true).
Proof.
  intros Hmem Hd Hl.
  assert (Hpush : forall m, In m docs -> longname m = l ->
            resolveMember docs [] m
            = if (1 <? List.length (dupAt docs l))%nat
              then tl (JsArray.sort compareIds (map __docId__ (dupAt docs l)))
              else []).
  { intros m Hm Hlm. rewrite pushed_no_competitor; rewrite Hlm; auto. }
  assert (HG : forall x, In x docs -> longname x = l -> In x (dupAt docs l)).
  { intros x Hx Hlx. apply In_dupAt. auto. }
  pose proof (sort_sorted (map __docId__ (dupAt docs l))) as Hsorted.
  pose proof (sort_perm compareIds (map __docId__ (dupAt docs l))) as Hperm.
  rewrite In_resolve. split.
  - intros [_ Hkeep] d' Hd' Hl'.
    assert (Hdec : d = d' \/ d <> d').
    { destruct (JsArray.sameValueZero (__docId__ d) (__docId__ d')) eqn:E.
      - left. apply sameValueZero_eq in E. apply same_id_same_member; auto.
      - right. intros ->. rewrite (proj2 (sameValueZero_eq _ _) eq_refl) in E.
        discriminate E. }
    destruct Hdec as [<-|Hne]; [apply idLeb_refl|].
    assert (Hlen : (1 <? List.length (dupAt docs l))%nat = true).
    { apply Nat.ltb_lt. apply (two_elements (dupAt docs l) d d'); auto. }
    assert (Hnot : ~ In (__docId__ d)
              (tl (JsArray.sort compareIds (map __docId__ (dupAt docs l))))).
    { intros Hin. apply Hkeep. apply In_removeIds. exists d.
      split; [exact Hd|]. split; [apply Hmem; assumption|].
      rewrite (Hpush d Hd Hl), Hlen. exact Hin. }
    assert (Hin : forall x, In x docs -> longname x = l ->
              In (__docId__ x) (JsArray.sort compareIds (map __docId__ (dupAt docs l)))).
    { intros x Hx Hlx. apply (Permutation_in _ (Permutation_sym Hperm)).
      apply in_map, HG; assumption. }
    pose proof (Hin d Hd Hl) as Hind. pose proof (Hin d' Hd' Hl') as Hind'.
    destruct (JsArray.sort compareIds (map __docId__ (dupAt docs l))) as [|h t];
      [contradiction|].
    simpl in Hnot. inversion Hsorted as [|? ? _ Hh]; subst.
    destruct Hind as [E|Hind]; [subst h | contradiction].
    destruct Hind' as [<-|Hind']; [apply idLeb_refl|].
    rewrite Forall_forall in Hh. apply Hh, Hind'.
  - intros Hleast. split; [exact Hd|]. intros Hrem.
    apply In_removeIds in Hrem. destruct Hrem as [m [Hm [Hk Hi]]].
    destruct (pushed_is_member_id docs m _ Hm Hk Hi) as [m' [Hm' [Hk' [Hlm' E]]]].
    assert (m' = d) by (apply same_id_same_member; auto).
    subst m'.
    rewrite (Hpush m Hm) in Hi by congruence.
    destruct (1 <? _)%nat; [|contradiction].
    assert (Hnd : NoDup (JsArray.sort compareIds (map __docId__ (dupAt docs l)))).
    { apply (Permutation_NoDup (Permutation_sym Hperm)).
      rewrite dupAt_members. apply NoDup_map_filter, unique. }
    assert (Hall : forall i, In i (JsArray.sort compareIds (map __docId__ (dupAt docs l))) ->
              idLeb (__docId__ d) i = true).
    { intros i Hin. apply (Permutation_in _ Hperm) in Hin.
      apply in_map_iff in Hin. destruct Hin as [x [<- Hx]].
      apply In_dupAt in Hx. apply Hleast; tauto. }
    destruct (JsArray.sort compareIds (map __docId__ (dupAt docs l))) as [|h t];
      [contradiction|].
    simpl in Hi. inversion Hsorted as [|? ? _ Hh]; subst.
    inversion Hnd as [|? ? Hnh _]; subst.
    rewrite Forall_forall in Hh.
    assert (h = __docId__ d).
    { apply idLeb_antisym; [apply Hh, Hi | apply Hall; left; reflexivity]. }
    subst h. contradiction.
Qed.

(** A doc that is removed is a member doc. *)
Lemma only_members_removed (d : DocObject) :
  In d docs -> kind d <> "member" -> In d (_resolveDuplication docs).
Proof.
  intros Hd Hk. apply In_resolve. split; [exact Hd|]. intros Hrem.
  apply In_removeIds in Hrem. destruct Hrem as [m [Hm [Hkm Hi]]].
  destruct (pushed_is_member_id docs m _ Hm Hkm Hi) as [m' [Hm' [Hk' [_ E]]]].
  exact (proj2 unique m' d Hm' Hd Hk' Hk E).
Qed.

End Resolution.

(** A member doc that has a doc of another kind at its longname is
    removed. *)
Lemma member_with_competitor_removed (docs : list DocObject) (m d : DocObject) :
  In m docs -> kind m = "member" ->
  In d docs -> longname d = longname m -> kind d <> "member" ->
  ~ In m (_resolveDuplication docs).
Proof.
  intros Hm Hk Hd Hl Hkd Hin. apply In_resolve in Hin. destruct Hin as [_ Hin].
  apply Hin. apply In_removeIds. exists m. split; [exact Hm|]. split; [exact Hk|].
  rewrite (pushed_competitor docs m d Hd Hl Hkd). left. reflexivity.
Qed.

(** Two member docs that both stay do not share a longname. *)
Lemma surviving_members_distinct (docs : list DocObject) (m m' : DocObject) :
  uniqueIds docs ->
  In m (_resolveDuplication docs) -> In m' (_resolveDuplication docs) ->
  kind m = "member" -> kind m' = "member" -> longname m' = longname m ->
  m' = m.
Proof.
  intros Hu Hm Hm' Hk Hk' Hl.
  pose proof (resolve_incl _ _ Hm) as Hmd. pose proof (resolve_incl _ _ Hm') as Hmd'.
  assert (Hmem : forall x, In x docs -> longname x = longname m -> kind x = "member").
  { intros x Hx Hlx. destruct (String.eqb_spec (kind x) "member") as [E|E]; [exact E|].
    exfalso. exact (member_with_competitor_removed docs m x Hmd Hk Hx Hlx E Hm). }
  pose proof (proj1 (survivor_iff_least docs Hu (longname m) m Hmem Hmd eq_refl) Hm)
    as Hleast.
  pose proof (proj1 (survivor_iff_least docs Hu (longname m) m' Hmem Hmd' Hl) Hm')
    as Hleast'.
  apply (same_id_same_member docs Hu); auto.
  apply idLeb_antisym; [apply Hleast' | apply Hleast]; auto.
Qed.

(** *** Runs of the resolution *)

Example sort_2_10_3 :
  JsArray.sort compareIds [Some "2"; None; Some "10"; Some "3"]
  = [Some "10"; Some "2"; Some "3"; None].
Proof. reflexivity. Qed.

Example resolve_2_10_3 :
  _resolveDuplication
    [Demo.doc "member" "Y" "2"; Demo.doc "member" "Y" "10"; Demo.doc "member" "Y" "3"]
  = [Demo.doc "member" "Y" "10"].
Proof. reflexivity. Qed.

Example resolve_member_and_method :
  _resolveDuplication Demo.shadowed = [Demo.doc "method" "X" "2"].
Proof. reflexivity. Qed.

Example resolve_reopened :
  map __docId__ (_resolveDuplication Demo.reopened)
  = [Some "1"; Some "10"; Some "4"; None; None].
Proof. reflexivity. Qed.

(** The docs are removed by identifier: where a member doc that is removed
    shares its identifier with another doc, that doc goes too.  This is why
    the properties below are about unique identifiers. *)
Example resolve_shared_identifier :
  _resolveDuplication
    [Demo.doc "member" "Y" "2"; Demo.doc "member" "Y" "10"; Demo.doc "member" "Y" "3";
     Demo.doc "member" "Z" "10"; Demo.doc "method" "Z" "5"]
  = [Demo.doc "method" "Z" "5"].
Proof. reflexivity. Qed.

(** ** The claims on duplicate resolution *)

(** C1.  Where the docs at a longname [Y] are all member docs and the
    identifiers are unique, a doc at [Y] stays exactly when its identifier
    is the least at [Y] in the lexical order of strings; so of three member
    docs at [Y] with the identifiers ["2"], ["10"] and ["3"], the one with
    ["10"] stays and the two others are removed. *)
Theorem resolve_keeps_lexically_least_id (docs : list DocObject) (Y : string) :
  uniqueIds docs ->
  (forall d, In d docs -> longname d = Y -> kind d = "member") ->
  (forall d, In d docs -> longname d = Y ->
     (In d (_resolveDuplication docs) <->
      forall d', In d' docs -> longname d' = Y ->
                 idLeb (__docId__ d) (__docId__ d') = true))
  /\
  (forall d2 d10 d3,
     In d2 docs -> In d10 docs -> In d3 docs ->
     __docId__ d2 = Some "2" -> __docId__ d10 = Some "10" -> __docId__ d3 = Some "3" ->
     (forall d, In d docs -> (longname d = Y <-> d = d2 \/ d = d10 \/ d = d3)) ->
     filter (atLongname Y) (_resolveDuplication docs) = [d10]
     /\ ~ In d2 (_resolveDuplication docs)
     /\ ~ In d3 (_resolveDuplication docs)).
Proof.
  intros Hu Hmem. split.
  - intros d Hd Hl. apply survivor_iff_least; assumption.
  - intros d2 d10 d3 H2 H10 H3 E2 E10 E3 HY.
    assert (L2 : longname d2 = Y) by (apply HY; auto).
    assert (L10 : longname d10 = Y) by (apply HY; auto).
    assert (L3 : longname d3 = Y) by (apply HY; auto).
    assert (S10 : In d10 (_resolveDuplication docs)).
    { apply (survivor_iff_least docs Hu Y d10 Hmem H10 L10).
      intros d' Hd' Hl'. apply (HY d' Hd') in Hl'.
      destruct Hl' as [-> | [-> | ->]]; rewrite E10, ?E2, ?E3; reflexivity. }
    assert (S2 : ~ In d2 (_resolveDuplication docs)).
    { intros Hin.
      pose proof (proj1 (survivor_iff_least docs Hu Y d2 Hmem H2 L2) Hin d10 H10 L10)
        as Hle.
      rewrite E2, E10 in Hle. discriminate Hle. }
    assert (S3 : ~ In d3 (_resolveDuplication docs)).
    { intros Hin.
      pose proof (proj1 (survivor_iff_least docs Hu Y d3 Hmem H3 L3) Hin d10 H10 L10)
        as Hle.
      rewrite E3, E10 in Hle. discriminate Hle. }
    split; [|split; assumption].
    apply NoDup_singleton.
    + rewrite <- (filter_absorb (atLongname Y) isMember).
      * apply NoDup_filter, members_NoDup, resolve_uniqueIds, Hu.
      * intros x Hx Hlx. apply String.eqb_eq.
        apply Hmem; [exact (resolve_incl _ _ Hx) | apply String.eqb_eq, Hlx].
    + apply filter_In. split; [exact S10|]. apply String.eqb_eq, L10.
    + intros x Hx. apply filter_In in Hx. destruct Hx as [Hx Hlx].
      apply String.eqb_eq in Hlx.
      apply (HY x (resolve_incl _ _ Hx)) in Hlx.
      destruct Hlx as [-> | [-> | ->]]; [contradiction | reflexivity | contradiction].
Qed.

(** C4.  With unique identifiers, a member doc that shares its longname
    with a doc of another kind is not in the output; and of a member doc
    and a method doc alone, in either order, the method doc is what is
    left. *)
Theorem member_yields_to_other_kind (docs : list DocObject) (M : DocObject) :
  uniqueIds docs ->
  In M docs -> kind M = "member" ->
  (exists d, In d docs /\ longname d = longname M /\ kind d <> "member") ->
  ~ In M (_resolveDuplication docs)
  /\ (forall f, kind f = "method" -> docs = [M; f] \/ docs = [f; M] ->
                _resolveDuplication docs = [f]).
Proof.
  intros Hu HM Hk [d [Hd [Hl Hkd]]].
  assert (Hgone : ~ In M (_resolveDuplication docs))
    by exact (member_with_competitor_removed docs M d HM Hk Hd Hl Hkd).
  split; [exact Hgone|].
  intros f Hf Hdocs.
  assert (Hfm : kind f <> "member") by (rewrite Hf; discriminate).
  assert (Hfin : In f docs) by (destruct Hdocs as [-> | ->]; simpl; auto).
  pose proof (only_members_removed docs Hu f Hfin Hfm) as Hstay.
  rewrite resolve_filter in Hgone, Hstay |- *.
  rewrite filter_In in Hgone, Hstay. destruct Hstay as [_ Hstay].
  assert (HMout : negb (JsArray.includes (removeIds docs) (__docId__ M)) = false).
  { destruct (negb _); [exfalso; apply Hgone; auto | reflexivity]. }
  revert HMout Hstay. generalize (removeIds docs) as ids. intros ids HMout Hstay.
  destruct Hdocs as [E|E]; rewrite E; simpl; rewrite HMout, Hstay; reflexivity.
Qed.

(** C10.  With unique identifiers, resolving the output again changes
    nothing; a doc that is removed is a member doc; and the docs of the
    other kinds come out as they went in, in the same order. *)
Theorem resolve_idempotent (docs : list DocObject) :
  uniqueIds docs ->
  _resolveDuplication (_resolveDuplication docs) = _resolveDuplication docs
  /\ (forall d, In d docs -> ~ In d (_resolveDuplication docs) -> kind d = "member")
  /\ filter (fun d => negb (isMember d)) (_resolveDuplication docs)
     = filter (fun d => negb (isMember d)) docs.
Proof.
  intros Hu. split; [|split].
  - set (R := _resolveDuplication docs).
    rewrite (resolve_filter R). apply filter_all. intros d Hd.
    apply negb_true_iff, not_true_iff_false. rewrite includes_In.
    intros Hrem. apply In_removeIds in Hrem. destruct Hrem as [m [Hm [Hk Hi]]].
    assert (Hmd : In m docs) by exact (resolve_incl _ _ Hm).
    assert (Hmem : forall x, In x R -> longname x = longname m -> kind x = "member").
    { intros x Hx Hlx. destruct (String.eqb_spec (kind x) "member") as [E|E]; [exact E|].
      exfalso.
      exact (member_with_competitor_removed docs m x Hmd Hk
               (resolve_incl _ _ Hx) Hlx E Hm). }
    rewrite (pushed_no_competitor R m Hmem) in Hi.
    assert (Hlen : (List.length (dupAt R (longname m)) <= 1)%nat).
    { apply NoDup_all_equal with (a := m).
      - rewrite dupAt_members.
        apply NoDup_filter, members_NoDup, resolve_uniqueIds, Hu.
      - intros x Hx. apply In_dupAt in Hx. destruct Hx as [Hx [Hlx Hkx]].
        apply (surviving_members_distinct docs m x Hu); assumption. }
    destruct (Nat.ltb_spec 1 (List.length (dupAt R (longname m)))); [lia | contradiction].
  - intros d Hd Hout. destruct (String.eqb_spec (kind d) "member") as [E|E]; [exact E|].
    exfalso. apply Hout. apply only_members_removed; assumption.
  - rewrite resolve_filter, filter_comm.
    apply filter_all. intros x Hx. apply filter_In in Hx. destruct Hx as [Hx Hk].
    assert (Hin : In x (_resolveDuplication docs)).
    { apply only_members_removed; [exact Hu | exact Hx |].
      intros E. unfold isMember in Hk. rewrite E in Hk. discriminate Hk. }
    rewrite resolve_filter in Hin. apply filter_In in Hin. tauto.
Qed.

Ltac each_doc H :=
  simpl in H;
  repeat (let E := fresh "E" in destruct H as [E|H]; [try subst|]);
  try contradiction.

Lemma reopened_uniqueIds : uniqueIds Demo.reopened.
Proof.
  split.
  - repeat constructor; simpl; intuition discriminate.
  - intros m d Hm Hd Hkm Hkd. each_doc Hm; each_doc Hd;
      try discriminate Hkm; try (exfalso; apply Hkd; reflexivity); discriminate.
Qed.

Lemma resolve_keeps_lexically_least_id_witness :
  filter (atLongname "Y") (_resolveDuplication Demo.reopened)
  = [Demo.doc "member" "Y" "10"]
  /\ ~ In (Demo.doc "member" "Y" "2") (_resolveDuplication Demo.reopened)
  /\ ~ In (Demo.doc "member" "Y" "3") (_resolveDuplication Demo.reopened).
Proof.
  refine (proj2 (resolve_keeps_lexically_least_id Demo.reopened "Y" _ _)
            (Demo.doc "member" "Y" "2") (Demo.doc "member" "Y" "10")
            (Demo.doc "member" "Y" "3") _ _ _ _ _ _ _);
    try reflexivity; try (simpl; tauto).
  - exact reopened_uniqueIds.
  - intros d H. each_doc H; simpl; intros; (reflexivity || discriminate).
  - intros d H. each_doc H; simpl; split; intros;
      try discriminate; try tauto;
      repeat match goal with H' : _ \/ _ |- _ => destruct H' as [H'|H'] end;
      discriminate.
Defined.

Lemma member_yields_to_other_kind_witness :
  ~ In (Demo.doc "member" "X" "1") (_resolveDuplication Demo.shadowed)
  /\ (forall f, kind f = "method" ->
       Demo.shadowed = [Demo.doc "member" "X" "1"; f]
       \/ Demo.shadowed = [f; Demo.doc "member" "X" "1"] ->
       _resolveDuplication Demo.shadowed = [f]).
Proof.
  apply (member_yields_to_other_kind Demo.shadowed (Demo.doc "member" "X" "1")).
  - apply NoDup_uniqueIds. repeat constructor; simpl; intuition discriminate.
  - simpl. tauto.
  - reflexivity.
  - exists (Demo.doc "method" "X" "2"). simpl.
    split; [tauto|]. split; [reflexivity | discriminate].
Defined.

Lemma resolve_idempotent_witness :
  _resolveDuplication (_resolveDuplication Demo.reopened)
  = _resolveDuplication Demo.reopened
  /\ (forall d, In d Demo.reopened -> ~ In d (_resolveDuplication Demo.reopened) ->
       kind d = "member")
  /\ filter (fun d => negb (isMember d)) (_resolveDuplication Demo.reopened)
     = filter (fun d => negb (isMember d)) Demo.reopened.
Proof.
  apply (resolve_idempotent Demo.reopened).
  exact reopened_uniqueIds.
Defined.

(** ** Running the pipeline *)

Ltac same_world :=
  unfold emitting, bind, emit, ret, throw; simpl;
  rewrite <- ?app_assoc; simpl; reflexivity.

Section Runs.

Context {X : Externals}.

Lemma emitting_nil (w : World X) : emitting w [] = w.
Proof. destruct w. unfold emitting. simpl. rewrite app_nil_r. reflexivity. Qed.

Lemma emitting_app (w : World X) (evs evs' : list (Event X)) :
  emitting (emitting w evs) evs' = emitting w (evs ++ evs').
Proof. unfold emitting. simpl. rewrite app_assoc. reflexivity. Qed.

Lemma emit_run (ev : Event X) (w : World X) : emit ev w = (Return tt, emitting w [ev]).
Proof. reflexivity. Qed.


(** *** [_traverse] *)

Lemma push_loop (filePath : string) (nodes : list (Node X * option (Node X)))
    (factory : DocFactory X) (w : World X) :
  for_of
    (fun factory '(node, parent) =>
       try_catch (call (DocFactory_push X factory node parent))
         (fun e => bind (emit (EvShow filePath node)) (fun _ => throw e)))
    nodes factory w
  = match pushAll X factory nodes with
    | inl factory' => (Return factory', w)
    | inr (node, e) => (Throw e, emitting w [EvShow filePath node])
    end.
Proof.
  revert factory. induction nodes as [|[node parent] nodes IH]; intros factory; simpl.
  - reflexivity.
  - unfold bind at 1, try_catch at 1.
    destruct (DocFactory_push X factory node parent) as [factory'|e]; simpl.
    + apply IH.
    + reflexivity.
Qed.

(** What [_traverse] gives and logs, by cases on the parse and the
    pushes. *)
Lemma _traverse_run (inDirPath filePath : string) (packageName mainFilePath : option string)
    (w : World X) :
  _traverse X inDirPath filePath packageName mainFilePath w
  = match ESParser_parse X filePath with
    | Raise e =>
        (Return None,
         emitting w [EvLoggerInfo ("parsing: " ++ filePath); EvParse filePath;
                     EvShowFile filePath e])
    | Ok ast =>
        match pushAll X (DocFactory_new X ast inDirPath filePath packageName mainFilePath)
                (ASTUtil_nodes X ast) with
        | inl factory =>
            (Return (Some (DocFactory_results X factory, ast)),
             emitting w [EvLoggerInfo ("parsing: " ++ filePath); EvParse filePath])
        | inr (node, e) =>
            (Throw e,
             emitting w [EvLoggerInfo ("parsing: " ++ filePath); EvParse filePath;
                         EvShow filePath node])
        end
    end.
Proof.
  unfold _traverse. unfold bind at 1. rewrite emit_run.
  unfold bind at 1, try_catch at 1, bind at 1. rewrite emit_run.
  unfold bind at 1.
  destruct (ESParser_parse X filePath) as [ast|e]; simpl.
  - unfold bind at 1. rewrite push_loop.
    destruct (pushAll X _ _) as [factory|[node e]]; same_world.
  - same_world.
Qed.

(** *** The callback of [generate] *)

Lemma visit_run (inDirPath sourceDirPath : string) (includes excludes : list (RegExp X))
    (packageName mainFilePath : option string) (acc : Collected X) (filePath : string)
    (w : World X) :
  visit X inDirPath sourceDirPath includes excludes packageName mainFilePath acc filePath w
  = if selected X includes excludes (path_relative X sourceDirPath filePath) then
      match ESParser_parse X filePath with
      | Raise e =>
          (Return acc,
           emitting w [EvConsoleLog ("parse: " ++ filePath);
                       EvLoggerInfo ("parsing: " ++ filePath); EvParse filePath;
                       EvShowFile filePath e])
      | Ok ast =>
          match pushAll X (DocFactory_new X ast inDirPath filePath packageName mainFilePath)
                  (ASTUtil_nodes X ast) with
          | inl factory =>
              (Return (fst acc ++ DocFactory_results X factory,
                       snd acc ++ [(("source" ++ path_sep X
                                     ++ path_relative X sourceDirPath filePath)%string,
                                    ast)]),
               emitting w [EvConsoleLog ("parse: " ++ filePath);
                           EvLoggerInfo ("parsing: " ++ filePath); EvParse filePath])
          | inr (node, e) =>
              (Throw e,
               emitting w [EvConsoleLog ("parse: " ++ filePath);
                           EvLoggerInfo ("parsing: " ++ filePath); EvParse filePath;
                           EvShow filePath node])
          end
      end
    else (Return acc, w).
Proof.
  unfold visit, selected.
  destruct (existsb _ includes); simpl; [|reflexivity].
  destruct (existsb _ excludes); simpl; [reflexivity|].
  unfold bind at 1. rewrite emit_run. unfold bind at 1. rewrite _traverse_run.
  destruct (ESParser_parse X filePath) as [ast|e]; [|same_world].
  destruct (pushAll X _ _) as [factory|[node e]]; same_world.
Qed.

(** *** [_walk] *)

Lemma bind_ret_r {A : Type} (m : M X A) (w : World X) : bind m ret w = m w.
Proof. unfold bind. destruct (m w) as [[a|e|code] w']; reflexivity. Qed.

Lemma for_of_app {A S : Type} (body : S -> A -> M X S) (l l' : list A) (acc : S)
    (w : World X) :
  for_of body (l ++ l') acc w = bind (for_of body l acc) (for_of body l') w.
Proof.
  revert acc w. induction l as [|a l IH]; intros acc w; simpl.
  - reflexivity.
  - unfold bind. destruct (body acc a w) as [[acc'|e|code] w']; [|reflexivity..].
    rewrite IH. reflexivity.
Qed.

Lemma Entry_induction (P : Entry -> Prop) :
  (forall name, P (File name)) ->
  (forall name entries, Forall P entries -> P (Directory name entries)) ->
  (forall name e, P (Unlistable name e)) ->
  (forall name, P (Special name)) ->
  (forall name e, P (Unstatable name e)) ->
  forall entry, P entry.
Proof.
  intros Hfile Hdir Hunl Hspec Hunst. fix IH 1. intros [name|name entries|name e|name|name e].
  - apply Hfile.
  - apply Hdir. induction entries as [|entry entries IHl]; constructor.
    + apply IH.
    + exact IHl.
  - apply Hunl.
  - apply Hspec.
  - apply Hunst.
Qed.

Section Walk.

Context {S : Type} (callback : S -> string -> M X S).

Lemma walkEntries_steps (dirPath : string) (entries : list Entry) :
  Forall (fun entry => forall dirPath acc w,
            walkEntry X callback dirPath acc entry w
            = for_of (runStep callback) (steps X dirPath entry) acc w) entries ->
  forall acc w,
    for_of (walkEntry X callback dirPath) entries acc w
    = for_of (runStep callback) (flat_map (steps X dirPath) entries) acc w.
Proof.
  induction 1 as [|entry entries Hentry _ IH]; intros acc w; simpl.
  - reflexivity.
  - rewrite for_of_app. unfold bind. rewrite Hentry.
    destruct (for_of _ (steps X dirPath entry) acc w) as [[acc'|e|code] w'];
      [apply IH | reflexivity..].
Qed.

(** The recursion of [_walk] on an entry does the steps of the entry, one
    after the other. *)
Lemma walkEntry_steps (entry : Entry) :
  forall dirPath acc w,
    walkEntry X callback dirPath acc entry w
    = for_of (runStep callback) (steps X dirPath entry) acc w.
Proof.
  induction entry as [name|name entries IH|name e|name|name e] using Entry_induction;
    intros dirPath acc w.
  - simpl. unfold bind at 1 2 3. simpl. rewrite bind_ret_r. reflexivity.
  - simpl steps. simpl for_of. simpl walkEntry. unfold bind, emit, ret. simpl.
    apply (walkEntries_steps _ entries IH).
  - reflexivity.
  - reflexivity.
  - reflexivity.
Qed.

Lemma _walk_run (dirPath : string) (acc : S) (w : World X) :
  _walk X dirPath callback acc w
  = match lookup dirPath (fs_dirs w) with
    | Ok entries =>
        for_of (runStep callback) (flat_map (steps X dirPath) entries) acc
          (emitting w [EvReaddir dirPath])
    | Raise e => (Throw e, emitting w [EvReaddir dirPath])
    end.
Proof.
  unfold _walk, readdirSync. unfold bind at 1 2. rewrite emit_run. simpl.
  destruct (lookup dirPath (fs_dirs w)) as [entries|e]; simpl; [|reflexivity].
  apply walkEntries_steps. apply Forall_forall. intros entry _. apply walkEntry_steps.
Qed.

End Walk.

(** *** The walk of [generate] *)

Section WalkOfGenerate.

Variables (inDirPath sourceDirPath : string) (includes excludes : list (RegExp X))
  (packageName mainFilePath : option string).

Let sel (filePath : string) : bool :=
  selected X includes excludes (path_relative X sourceDirPath filePath).

Let ext : string -> Prop := extractable X inDirPath packageName mainFilePath.

Let callback := visit X inDirPath sourceDirPath includes excludes packageName mainFilePath.

Lemma WalkPost_quiet_step (step : Step) (l : list Step) (r : Outcome (Collected X))
    (ev : Event X) (evs : list (Event X)) :
  visited (step :: l) = visited l ->
  (forall e, step <> RaiseStep e) ->
  walkEvent ev -> parsedFiles [ev] = [] -> (forall f n, ev <> EvShow f n) ->
  WalkPost sel ext l r evs -> WalkPost sel ext (step :: l) r (ev :: evs).
Proof.
  intros Hv Hstep Hev Hparsed Hshow (Hexit & Hall & Hsh & [rest Hpre] & Hret & Hfin).
  assert (Hp : parsedFiles (ev :: evs) = parsedFiles evs).
  { change (parsedFiles ([ev] ++ evs) = parsedFiles evs).
    unfold parsedFiles in *. rewrite flat_map_app, Hparsed. reflexivity. }
  unfold WalkPost. rewrite Hv, Hp. split; [|split; [|split; [|split; [|split]]]].
  - exact Hexit.
  - constructor; assumption.
  - intros f n [E|Hin]; [exfalso; exact (Hshow f n E) | eauto].
  - exists rest. exact Hpre.
  - exact Hret.
  - intros Hl Hext. apply Hfin; [|exact Hext].
    intros e Hin. apply (Hl e). right. exact Hin.
Qed.

Lemma WalkPost_skipped (filePath : string) (l : list Step)
    (r : Outcome (Collected X)) (evs : list (Event X)) :
  sel filePath = false ->
  WalkPost sel ext l r evs -> WalkPost sel ext (VisitStep filePath :: l) r evs.
Proof.
  intros Hsel (Hexit & Hall & Hsh & [rest Hpre] & Hret & Hfin).
  unfold WalkPost. simpl. rewrite Hsel. repeat split; auto.
  - exists rest. exact Hpre.
  - intros Hl Hext. apply Hfin.
    + intros e Hin. apply (Hl e). right. exact Hin.
    + inversion Hext; assumption.
Qed.

Lemma WalkPost_parsed (filePath : string) (l : list Step)
    (r : Outcome (Collected X)) (evs1 evs : list (Event X)) :
  sel filePath = true ->
  Forall walkEvent evs1 -> parsedFiles evs1 = [filePath] ->
  (forall f n, ~ In (EvShow f n) evs1) ->
  WalkPost sel ext l r evs ->
  WalkPost sel ext (VisitStep filePath :: l) r (evs1 ++ evs).
Proof.
  intros Hsel Hall1 Hp1 Hsh1 (Hexit & Hall & Hsh & [rest Hpre] & Hret & Hfin).
  assert (Hp : parsedFiles (evs1 ++ evs) = filePath :: parsedFiles evs).
  { unfold parsedFiles in *. rewrite flat_map_app, Hp1. reflexivity. }
  unfold WalkPost. simpl. rewrite Hsel, Hp. split; [|split; [|split; [|split; [|split]]]].
  - exact Hexit.
  - apply Forall_app. split; assumption.
  - intros f n Hin. apply in_app_or in Hin. destruct Hin as [Hin|Hin];
      [exfalso; exact (Hsh1 f n Hin) | eauto].
  - exists rest. simpl. rewrite Hpre. reflexivity.
  - intros acc E. rewrite (Hret acc E). reflexivity.
  - intros Hl Hext. apply Hfin.
    + intros e Hin. apply (Hl e). right. exact Hin.
    + inversion Hext; assumption.
Qed.

(** The walk of [generate] over the steps of a directory. *)
Lemma walk_steps_run (l : list Step) :
  forall acc w, exists r evs,
    for_of (runStep callback) l acc w = (r, emitting w evs)
    /\ WalkPost sel ext l r evs.
Proof.
  induction l as [|step l IH]; intros acc w.
  - exists (Return acc), []. simpl. unfold ret. rewrite emitting_nil.
    split; [reflexivity|]. unfold WalkPost. simpl. split; [|split; [|split; [|split; [|split]]]].
    + discriminate.
    + constructor.
    + intros f n [].
    + exists []. reflexivity.
    + intros acc' _. reflexivity.
    + intros _ _. exists acc. reflexivity.
  - destruct step as [path|path|filePath|e].
    + destruct (IH acc (emitting w [EvStat path])) as (r & evs & Hrun & Hpost).
      exists r, (EvStat path :: evs). split.
      * simpl. unfold bind at 1 2. simpl. fold (emitting w [EvStat path]).
        rewrite Hrun, emitting_app. reflexivity.
      * apply WalkPost_quiet_step; simpl; auto; discriminate.
    + destruct (IH acc (emitting w [EvReaddir path])) as (r & evs & Hrun & Hpost).
      exists r, (EvReaddir path :: evs). split.
      * simpl. unfold bind at 1 2. simpl. fold (emitting w [EvReaddir path]).
        rewrite Hrun, emitting_app. reflexivity.
      * apply WalkPost_quiet_step; simpl; auto; discriminate.
    + simpl. unfold bind at 1. unfold callback at 1. rewrite visit_run.
      fold (sel filePath). destruct (sel filePath) eqn:Hsel.
      * destruct (ESParser_parse X filePath) as [ast|e] eqn:Hparse.
        -- destruct (pushAll X _ _) as [factory|[node e]] eqn:Hpush.
           ++ match goal with |- context [for_of _ l ?a ?w'] =>
                destruct (IH a w') as (r & evs & Hrun & Hpost) end.
              eexists r, (_ ++ evs). split.
              ** rewrite Hrun, emitting_app. reflexivity.
              ** apply WalkPost_parsed; auto.
                 --- repeat constructor.
                 --- intros f n Hin. simpl in Hin. intuition discriminate.
           ++ eexists (Throw e), _. split; [reflexivity|].
              unfold WalkPost. simpl. rewrite Hsel. split; [|split; [|split; [|split; [|split]]]].
              ** discriminate.
              ** repeat constructor.
              ** eauto.
              ** eexists. reflexivity.
              ** intros acc' E. discriminate E.
              ** intros _ Hext. inversion Hext as [|? ? Hf _]; subst.
                 destruct (Hf Hsel ast Hparse) as [factory Hok].
                 rewrite Hok in Hpush. discriminate Hpush.
        -- match goal with |- context [for_of _ l ?a ?w'] =>
             destruct (IH a w') as (r & evs & Hrun & Hpost) end.
           eexists r, (_ ++ evs). split.
           ++ rewrite Hrun, emitting_app. reflexivity.
           ++ apply WalkPost_parsed; auto.
              ** repeat constructor.
              ** intros f n Hin. simpl in Hin. intuition discriminate.
      * destruct (IH acc w) as (r & evs & Hrun & Hpost).
        exists r, evs. split; [exact Hrun|].
        apply WalkPost_skipped; assumption.
    + exists (Throw e), []. simpl. unfold bind, throw. rewrite emitting_nil.
      split; [reflexivity|]. unfold WalkPost. simpl. split; [|split; [|split; [|split; [|split]]]].
      * discriminate.
      * constructor.
      * intros f n [].
      * exists []. reflexivity.
      * intros acc' E. discriminate E.
      * intros Hl _. exfalso. apply (Hl e). left. reflexivity.
Qed.

End WalkOfGenerate.

(** *** Traces *)

Lemma traced_weaken {A : Type} (m : M X A) (Q Q' : Outcome A -> list (Event X) -> Prop) :
  traced m Q -> (forall r evs, Q r evs -> Q' r evs) -> traced m Q'.
Proof.
  intros Hm HQ w. destruct (Hm w) as (evs & Ht & Hq). exists evs. auto.
Qed.

Lemma traced_ret {A : Type} (a : A) (Q : Outcome A -> list (Event X) -> Prop) :
  Q (Return a) [] -> traced (ret a) Q.
Proof. intros HQ w. exists []. simpl. rewrite app_nil_r. auto. Qed.

Lemma traced_throw {A : Type} (e : JsError) (Q : Outcome A -> list (Event X) -> Prop) :
  Q (Throw e) [] -> traced (throw e) Q.
Proof. intros HQ w. exists []. simpl. rewrite app_nil_r. auto. Qed.

Lemma traced_exit {A : Type} (code : Z) (Q : Outcome A -> list (Event X) -> Prop) :
  Q (Exit code) [] -> traced (process_exit code) Q.
Proof. intros HQ w. exists []. simpl. rewrite app_nil_r. auto. Qed.

Lemma traced_emit (ev : Event X) (Q : Outcome unit -> list (Event X) -> Prop) :
  Q (Return tt) [ev] -> traced (emit ev) Q.
Proof. intros HQ w. exists [ev]. simpl. auto. Qed.

(** Sequencing: the events of [m], then those of [k] when [m] completes. *)
Lemma traced_bind {A B : Type} (m : M X A) (k : A -> M X B)
    (Q1 : Outcome A -> list (Event X) -> Prop) (Q : Outcome B -> list (Event X) -> Prop) :
  traced m Q1 ->
  (forall a, traced (k a)
               (fun r evs2 => forall evs1, Q1 (Return a) evs1 -> Q r (evs1 ++ evs2))) ->
  (forall e evs, Q1 (Throw e) evs -> Q (Throw e) evs) ->
  (forall code evs, Q1 (Exit code) evs -> Q (Exit code) evs) ->
  traced (bind m k) Q.
Proof.
  intros Hm Hk Hthrow Hexit w. unfold bind.
  destruct (Hm w) as (evs1 & Ht1 & Hq1).
  destruct (m w) as [[a|e|code] w1]; simpl in *.
  - destruct (Hk a w1) as (evs2 & Ht2 & Hq2).
    exists (evs1 ++ evs2). rewrite Ht2, Ht1, app_assoc. auto.
  - exists evs1. auto.
  - exists evs1. auto.
Qed.

Lemma traced_try_catch {A : Type} (m : M X A) (handler : JsError -> M X A)
    (Q1 Q : Outcome A -> list (Event X) -> Prop) :
  traced m Q1 ->
  (forall e, traced (handler e)
               (fun r evs2 => forall evs1, Q1 (Throw e) evs1 -> Q r (evs1 ++ evs2))) ->
  (forall a evs, Q1 (Return a) evs -> Q (Return a) evs) ->
  (forall code evs, Q1 (Exit code) evs -> Q (Exit code) evs) ->
  traced (try_catch m handler) Q.
Proof.
  intros Hm Hh Hret Hexit w. unfold try_catch.
  destruct (Hm w) as (evs1 & Ht1 & Hq1).
  destruct (m w) as [[a|e|code] w1]; simpl in *.
  - exists evs1. auto.
  - destruct (Hh e w1) as (evs2 & Ht2 & Hq2).
    exists (evs1 ++ evs2). rewrite Ht2, Ht1, app_assoc. auto.
  - exists evs1. auto.
Qed.

(** *** Which events a computation adds *)

Section Emits.

Variables (P : Event X -> Prop) (canExit : Prop).

Lemma emits_ret {A : Type} (a : A) : emits P canExit (ret a).
Proof. apply traced_ret. split; [constructor | discriminate]. Qed.

Lemma emits_throw {A : Type} (e : JsError) : emits P canExit (@throw X A e).
Proof. apply traced_throw. split; [constructor | discriminate]. Qed.

Lemma emits_exit {A : Type} (code : Z) : canExit -> emits P canExit (@process_exit X A code).
Proof. intros H. apply traced_exit. split; [constructor | auto]. Qed.

Lemma emits_emit (ev : Event X) : P ev -> emits P canExit (emit ev).
Proof. intros H. apply traced_emit. split; [repeat constructor; exact H | discriminate]. Qed.

Lemma emits_call {A : Type} (r : result A) : emits P canExit (call r).
Proof. destruct r; [apply emits_ret | apply emits_throw]. Qed.

Lemma emits_bind {A B : Type} (m : M X A) (k : A -> M X B) :
  emits P canExit m -> (forall a, emits P canExit (k a)) -> emits P canExit (bind m k).
Proof.
  intros Hm Hk. eapply traced_bind; [exact Hm | | |].
  - intros a. eapply traced_weaken; [apply Hk|]. simpl.
    intros r evs2 [H2 Hx] evs1 [H1 _]. split; [apply Forall_app; auto | exact Hx].
  - simpl. intros e evs [H _]. split; [exact H | discriminate].
  - simpl. intros code evs [H Hx]. split; [exact H | intros _ _; eauto].
Qed.

Lemma emits_try_catch {A : Type} (m : M X A) (handler : JsError -> M X A) :
  emits P canExit m -> (forall e, emits P canExit (handler e)) ->
  emits P canExit (try_catch m handler).
Proof.
  intros Hm Hh. eapply traced_try_catch; [exact Hm | | |].
  - intros e. eapply traced_weaken; [apply Hh|]. simpl.
    intros r evs2 [H2 Hx] evs1 [H1 _]. split; [apply Forall_app; auto | exact Hx].
  - simpl. intros a evs [H _]. split; [exact H | discriminate].
  - simpl. intros code evs [H Hx]. split; [exact H | intros _ _; eauto].
Qed.

Lemma emits_for_of {A S : Type} (body : S -> A -> M X S) (l : list A) :
  (forall acc a, emits P canExit (body acc a)) ->
  forall acc, emits P canExit (for_of body l acc).
Proof.
  intros Hbody. induction l as [|a l IH]; intros acc; simpl.
  - apply emits_ret.
  - apply emits_bind; [apply Hbody | exact IH].
Qed.

Lemma emits_map_of {A B : Type} (f : A -> M X B) (l : list A) :
  (forall a, emits P canExit (f a)) -> emits P canExit (map_of f l).
Proof.
  intros Hf. induction l as [|a l IH]; simpl.
  - apply emits_ret.
  - apply emits_bind; [apply Hf|]. intros b.
    apply emits_bind; [exact IH|]. intros bs. apply emits_ret.
Qed.

Lemma emits_world {A : Type} (m : World X -> M X A) :
  (forall w', emits P canExit (m w')) -> emits P canExit (fun w => m w w).
Proof. intros H w. apply (H w w). Qed.

End Emits.

(** Sequencing after a computation that adds events of [P] only and does
    not exit, for a [Q] that such a prefix does not disturb. *)
Lemma traced_after {A B : Type} (P : Event X -> Prop) (m : M X A) (k : A -> M X B)
    (Q : Outcome B -> list (Event X) -> Prop) :
  emits P False m ->
  (forall a, traced (k a) Q) ->
  (forall r evs1 evs2, Forall P evs1 -> Q r evs2 -> Q r (evs1 ++ evs2)) ->
  (forall e evs, Forall P evs -> Q (Throw e) evs) ->
  traced (bind m k) Q.
Proof.
  intros Hm Hk Hstable Hthrow. eapply traced_bind; [exact Hm | | |].
  - intros a. eapply traced_weaken; [apply Hk|]. simpl.
    intros r evs2 HQ evs1 [H1 _]. apply Hstable; assumption.
  - simpl. intros e evs [H _]. apply Hthrow, H.
  - simpl. intros code evs [_ Hx]. exfalso. exact (Hx code eq_refl).
Qed.

Section EmitsOf.

Variables (P : Event X -> Prop) (canExit : Prop).

Lemma emits_string_arg (v : option string) : emits P canExit (string_arg X v).
Proof. destruct v; [apply emits_ret | apply emits_throw]. Qed.

Lemma emits_assert (v : option string) : emits P canExit (assert X v).
Proof. unfold assert. destruct (truthy v); [apply emits_ret | apply emits_throw]. Qed.

Lemma emits_readFileSync (path : string) :
  P (EvReadFile path) -> emits P canExit (readFileSync X path).
Proof.
  intros H. unfold readFileSync. apply emits_bind; [apply emits_emit, H|].
  intros _. apply (emits_world P canExit (fun w => call (lookup path (fs_files w)))).
  intros w. apply emits_call.
Qed.

Lemma emits_outputFileSync (path content : string) :
  P (EvOutputFile path content) -> emits P canExit (outputFileSync X path content).
Proof.
  intros H. unfold outputFileSync. apply emits_bind; [apply emits_emit, H|].
  intros _ w. exists []. rewrite app_nil_r.
  destruct (fs_outputFileSync X (fs_files w, fs_dirs w) path content) as [files|e];
    simpl; (split; [reflexivity|]); (split; [constructor | discriminate]).
Qed.

Lemma emits_copySync (srcPath destPath : string) :
  P (EvCopy srcPath destPath) -> emits P canExit (copySync X srcPath destPath).
Proof.
  intros H. unfold copySync. apply emits_bind; [apply emits_emit, H|].
  intros _ w. exists []. rewrite app_nil_r.
  destruct (fs_copySync X (fs_files w, fs_dirs w) srcPath destPath) as [files|e];
    simpl; (split; [reflexivity|]); (split; [constructor | discriminate]).
Qed.

Lemma emits_attempt {A : Type} (m : M X A) :
  emits P canExit m -> emits P canExit (attempt X m).
Proof.
  intros H. unfold attempt. apply emits_try_catch.
  - apply emits_bind; [exact H|]. intros a. apply emits_ret.
  - intros e. apply emits_ret.
Qed.

Lemma emits_compile (patterns : option (list string)) :
  emits P canExit (compile X patterns).
Proof.
  unfold compile. destruct patterns as [l|]; [|apply emits_throw].
  apply emits_map_of. intros v. apply emits_call.
Qed.

Hypothesis output_in_P : forall ev, outputEvent ev -> P ev.

Lemma emits__generateForIndex (config : ESDocConfig) :
  emits P canExit (_generateForIndex X config).
Proof.
  unfold _generateForIndex. apply emits_bind; [apply emits_string_arg|]. intros path.
  apply emits_bind; [apply emits_readFileSync, output_in_P; exact I|]. intros c.
  apply emits_ret.
Qed.

Lemma emits__generateForPackageJSON (config : ESDocConfig) :
  emits P canExit (_generateForPackageJSON X config).
Proof.
  unfold _generateForPackageJSON. apply emits_bind.
  - apply emits_try_catch.
    + apply emits_bind; [apply emits_string_arg|]. intros path.
      apply emits_bind; [apply emits_readFileSync, output_in_P; exact I|]. intros c.
      apply emits_ret.
    + intros e. apply emits_ret.
  - intros [packageJSON packagePath]. apply emits_ret.
Qed.

Lemma emits_write (config : ESDocConfig) (filePath content : string) :
  emits P canExit (write X config filePath content).
Proof.
  unfold write. apply emits_bind; [apply emits_string_arg|]. intros dest.
  apply emits_bind; [apply emits_emit, output_in_P; exact I|]. intros _.
  apply emits_bind; [apply emits_emit, output_in_P; exact I|]. intros _.
  apply emits_outputFileSync, output_in_P. exact I.
Qed.

Lemma emits_copy (config : ESDocConfig) (srcPath destPath : string) :
  emits P canExit (copy X config srcPath destPath).
Proof.
  unfold copy. apply emits_bind; [apply emits_string_arg|]. intros dest.
  apply emits_bind; [apply emits_emit, output_in_P; exact I|]. intros _.
  apply emits_copySync, output_in_P. exact I.
Qed.

Lemma emits_read (config : ESDocConfig) (filePath : string) :
  emits P canExit (read X config filePath).
Proof.
  unfold read. apply emits_bind; [apply emits_string_arg|]. intros dest.
  apply emits_readFileSync, output_in_P. exact I.
Qed.

Lemma emits_onPublish (config : ESDocConfig) (hook : Publishing) :
  emits P canExit (onPublish X config hook).
Proof.
  induction hook as [|e|filePath content next IH|srcPath destPath next IH
                     |filePath next IH]; simpl.
  - apply emits_ret.
  - apply emits_throw.
  - apply emits_bind; [apply emits_attempt, emits_write | intros r; apply IH].
  - apply emits_bind; [apply emits_attempt, emits_copy | intros r; apply IH].
  - apply emits_bind; [apply emits_attempt, emits_read | intros r; apply IH].
Qed.

End EmitsOf.

(** *** [_publish] *)

Lemma _publish_run_raise (config : ESDocConfig) (e : JsError) (w w' : World X) :
  bind (emit EvOnPublish) (fun _ => onPublish X config (Plugin_onPublish X)) w
  = (Throw e, w') ->
  _publish X config w = (Exit 1%Z, emitting w' [EvShowError e]).
Proof. intros H. unfold _publish, try_catch. rewrite H. reflexivity. Qed.

(** [_publish] completes, or it logs an error and exits with the code 1. *)
Lemma _publish_traced (config : ESDocConfig) :
  traced (_publish X config)
    (fun r evs =>
       (r = Return tt /\ Forall outputEvent evs)
       \/ (exists e evs', r = Exit 1%Z /\ evs = evs' ++ [EvShowError e]
                          /\ Forall outputEvent evs')).
Proof.
  unfold _publish.
  eapply traced_try_catch with
    (Q1 := fun r evs => Forall outputEvent evs /\ forall code, r = Exit code -> False).
  - apply emits_bind; [apply emits_emit; exact I|]. intros _.
    apply emits_onPublish. auto.
  - intros e w. exists [EvShowError e]. split; [reflexivity|].
    simpl. intros evs1 [H1 _]. right. exists e, evs1. auto.
  - intros [] evs [H _]. left. auto.
  - intros code evs [_ Hx]. exfalso. exact (Hx code eq_refl).
Qed.

(** *** The walk of [generate], traced *)

Lemma _walk_traced (inDirPath sourceDirPath : string) (includes excludes : list (RegExp X))
    (packageName mainFilePath : option string) (acc : Collected X) :
  traced
    (_walk X inDirPath
       (visit X inDirPath sourceDirPath includes excludes packageName mainFilePath) acc)
    (fun r evs =>
       Forall walkEvent evs
       /\ (forall code, r <> Exit code)
       /\ (forall filePath node, In (EvShow filePath node) evs -> exists e, r = Throw e)).
Proof.
  intros w. rewrite _walk_run.
  destruct (lookup inDirPath (fs_dirs w)) as [entries|e].
  - destruct (walk_steps_run inDirPath sourceDirPath includes excludes packageName
                mainFilePath (flat_map (steps X inDirPath) entries) acc
                (emitting w [EvReaddir inDirPath]))
      as (r & evs & Hrun & Hexit & Hall & Hshow & _).
    rewrite Hrun. exists (EvReaddir inDirPath :: evs). simpl.
    split; [rewrite <- app_assoc; reflexivity|].
    split; [constructor; [exact I | exact Hall]|].
    split; [exact Hexit|].
    intros f n [E|Hin]; [discriminate E | eauto].
  - exists [EvReaddir inDirPath]. simpl. split; [reflexivity|].
    split; [repeat constructor|]. split; [discriminate|].
    intros f n [E|[]]. discriminate E.
Qed.

(** *** [generate], traced *)

Lemma emits_package_info (P : Event X -> Prop) (config : ESDocConfig) :
  (forall path, P (EvReadFile path)) ->
  emits P False
    (match truthy (package config) with
     | Some path =>
         try_catch
           (bind (readFileSync X path)
              (fun packageJSON => call (JSON_parse_package X packageJSON)))
           (fun _ => ret (None, None))
     | None => ret (None, None)
     end).
Proof.
  intros HP. destruct (truthy (package config)) as [path|]; [|apply emits_ret].
  apply emits_try_catch.
  - apply emits_bind; [apply emits_readFileSync, HP|]. intros c. apply emits_call.
  - intros e. apply emits_ret.
Qed.

Lemma not_In_Forall {A : Type} (P : A -> Prop) (a : A) (l : list A) :
  Forall P l -> ~ P a -> ~ In a l.
Proof. intros Hall Hna Hin. rewrite Forall_forall in Hall. exact (Hna (Hall a Hin)). Qed.

Lemma publish_error_stable (r : Outcome unit) (evs1 evs2 : list (Event X)) :
  Forall beforeCatch evs1 -> ExitsOnPublishError r evs2 ->
  ExitsOnPublishError r (evs1 ++ evs2).
Proof.
  intros H1 H2 e Hin. apply in_app_or in Hin. destruct Hin as [Hin|Hin].
  - exfalso. revert Hin. apply (not_In_Forall beforeCatch); [exact H1|].
    unfold beforeCatch. simpl. tauto.
  - destruct (H2 e Hin) as [Hr Hc]. split; [exact Hr|].
    intros Hin'. apply in_app_or in Hin'. destruct Hin' as [Hin'|Hin']; [|auto].
    revert Hin'. apply (not_In_Forall beforeCatch); [exact H1|].
    unfold beforeCatch. simpl. tauto.
Qed.

Lemma publish_error_throw (e : JsError) (evs : list (Event X)) :
  Forall beforeCatch evs -> ExitsOnPublishError (Throw e) evs.
Proof.
  intros H e' Hin. exfalso. revert Hin. apply (not_In_Forall beforeCatch); [exact H|].
  unfold beforeCatch. simpl. tauto.
Qed.

Ltac before_catch :=
  eapply (traced_after beforeCatch);
  [ | | apply publish_error_stable | apply publish_error_throw ].

Lemma outputEvent_beforeCatch (ev : Event X) : outputEvent ev -> beforeCatch ev.
Proof. unfold beforeCatch. tauto. Qed.

Lemma generate_output_publish_error (config : ESDocConfig) (collected : Collected X) :
  traced (generate_output X config collected) ExitsOnPublishError.
Proof.
  destruct collected as [results asts]. unfold generate_output.
  before_catch.
  { destruct (isTruthy (index config)); [|apply emits_ret].
    apply emits_bind; [|intros tag; apply emits_ret].
    apply emits__generateForIndex, outputEvent_beforeCatch. }
  intros results1. before_catch.
  { destruct (isTruthy (package config)); [|apply emits_ret].
    apply emits_bind; [|intros tag; apply emits_ret].
    apply emits__generateForPackageJSON, outputEvent_beforeCatch. }
  intros results2. before_catch.
  { apply emits_emit, outputEvent_beforeCatch. exact I. }
  intros _. before_catch.
  { apply emits_string_arg. }
  intros dest. before_catch.
  { apply emits_outputFileSync, outputEvent_beforeCatch. exact I. }
  intros _. before_catch.
  { apply emits_for_of. intros [] [astPath ast].
    apply emits_outputFileSync, outputEvent_beforeCatch. exact I. }
  intros _. eapply traced_bind; [apply _publish_traced | | |].
  - intros [] w. exists [EvOnComplete]. split; [reflexivity|]. simpl.
    intros evs1 [[_ H1]|(e & evs' & E & _)]; [|discriminate E].
    intros e Hin. exfalso. apply in_app_or in Hin. destruct Hin as [Hin|[E|[]]].
    + revert Hin. apply (not_In_Forall outputEvent); [exact H1 | auto].
    + discriminate E.
  - intros e evs [[E _]|(e' & evs' & E & _)]; discriminate E.
  - intros code evs [[E _]|(e' & evs' & E & E2 & H1)]; [discriminate E|].
    subst evs. intros e _. split; [exact E|].
    intros Hin. apply in_app_or in Hin. destruct Hin as [Hin|[E'|[]]].
    + revert Hin. apply (not_In_Forall outputEvent); [exact H1 | auto].
    + discriminate E'.
Qed.

Lemma walkEvent_beforeCatch (ev : Event X) : walkEvent ev -> beforeCatch ev.
Proof. unfold beforeCatch. tauto. Qed.

Lemma preludeEvent_beforeCatch (ev : Event X) : preludeEvent ev -> beforeCatch ev.
Proof. unfold beforeCatch. tauto. Qed.

Lemma generate_body_publish_error (config : ESDocConfig) :
  traced (generate_body X config) ExitsOnPublishError.
Proof.
  unfold generate_body.
  before_catch.
  { apply emits_emit, preludeEvent_beforeCatch. exact I. }
  intros _. before_catch.
  { apply emits_compile. }
  intros includes. before_catch.
  { apply emits_compile. }
  intros excludes. before_catch.
  { apply emits_package_info. intros path. apply preludeEvent_beforeCatch. exact I. }
  intros [packageName mainFilePath]. before_catch.
  { apply emits_string_arg. }
  intros inDirPath. before_catch.
  { eapply traced_weaken; [apply _walk_traced|]. simpl.
    intros r evs (Hall & Hexit & _). split.
    - eapply Forall_impl; [|exact Hall]. exact walkEvent_beforeCatch.
    - intros code E. exact (Hexit code E). }
  intros collected. apply generate_output_publish_error.
Qed.

Lemma generate_publish_error (config : ESDocConfig) :
  traced (generate X config) ExitsOnPublishError.
Proof.
  unfold generate.
  before_catch; [apply emits_assert|]. intros _.
  before_catch; [apply emits_assert|]. intros _.
  before_catch; [apply emits_emit, preludeEvent_beforeCatch; exact I|]. intros _.
  before_catch; [apply emits_emit, preludeEvent_beforeCatch; exact I|]. intros _.
  before_catch; [apply emits_emit, preludeEvent_beforeCatch; exact I|]. intros _.
  apply generate_body_publish_error.
Qed.

Lemma emits__publish (P : Event X -> Prop) (config : ESDocConfig) :
  (forall ev, outputEvent ev -> P ev) -> (forall e, P (EvShowError e)) ->
  emits P True (_publish X config).
Proof.
  intros HP Herr. unfold _publish. apply emits_try_catch.
  - apply emits_bind; [apply emits_emit, HP; exact I|]. intros _.
    apply emits_onPublish, HP.
  - intros e. apply emits_bind; [apply emits_emit, Herr|]. intros _.
    apply emits_exit. exact I.
Qed.

Lemma emits_generate_output (P : Event X -> Prop) (config : ESDocConfig)
    (collected : Collected X) :
  (forall ev, outputEvent ev -> P ev) -> (forall e, P (EvShowError e)) ->
  P EvOnComplete ->
  emits P True (generate_output X config collected).
Proof.
  intros HP Herr Hdone. destruct collected as [results asts]. unfold generate_output.
  apply emits_bind.
  { destruct (isTruthy (index config)); [|apply emits_ret].
    apply emits_bind; [|intros tag; apply emits_ret].
    apply emits__generateForIndex, HP. }
  intros results1. apply emits_bind.
  { destruct (isTruthy (package config)); [|apply emits_ret].
    apply emits_bind; [|intros tag; apply emits_ret].
    apply emits__generateForPackageJSON, HP. }
  intros results2. apply emits_bind; [apply emits_emit, HP; exact I|].
  intros _. apply emits_bind; [apply emits_string_arg|].
  intros dest. apply emits_bind; [apply emits_outputFileSync, HP; exact I|].
  intros _. apply emits_bind.
  { apply emits_for_of. intros [] [astPath ast].
    apply emits_outputFileSync, HP. exact I. }
  intros _. apply emits_bind; [apply emits__publish; assumption|].
  intros _. apply emits_emit, Hdone.
Qed.

Lemma extraction_error_stable (r : Outcome unit) (evs1 evs2 : list (Event X)) :
  Forall preludeEvent evs1 -> AbortsOnExtractionError r evs2 ->
  AbortsOnExtractionError r (evs1 ++ evs2).
Proof.
  intros H1 H2 f n Hin. apply in_app_or in Hin. destruct Hin as [Hin|Hin].
  - exfalso. revert Hin. apply (not_In_Forall preludeEvent); [exact H1 | auto].
  - destruct (H2 f n Hin) as [Hr Hall]. split; [exact Hr|].
    apply Forall_app. split; [|exact Hall].
    eapply Forall_impl; [|exact H1]. intros ev Hev. left. exact Hev.
Qed.

Lemma extraction_error_throw (e : JsError) (evs : list (Event X)) :
  Forall preludeEvent evs -> AbortsOnExtractionError (Throw e) evs.
Proof.
  intros H f n _. split; [eauto|].
  eapply Forall_impl; [|exact H]. intros ev Hev. left. exact Hev.
Qed.

Ltac in_prelude :=
  eapply (traced_after preludeEvent);
  [ | | apply extraction_error_stable | apply extraction_error_throw ].

Lemma generate_body_extraction_error (config : ESDocConfig) :
  traced (generate_body X config) AbortsOnExtractionError.
Proof.
  unfold generate_body.
  in_prelude; [apply emits_emit; exact I|]. intros _.
  in_prelude; [apply emits_compile|]. intros includes.
  in_prelude; [apply emits_compile|]. intros excludes.
  in_prelude; [apply emits_package_info; intros path; exact I|].
  intros [packageName mainFilePath].
  in_prelude; [apply emits_string_arg|]. intros inDirPath.
  eapply traced_bind; [apply _walk_traced | | |].
  - intros collected.
    eapply traced_weaken;
      [apply (emits_generate_output (fun ev => forall f n, ev <> EvShow f n))|].
    + intros ev Hev f n E. subst ev. exact Hev.
    + discriminate.
    + discriminate.
    + simpl. intros r evs2 [H2 _] evs1 (_ & _ & Hshow) f n Hin. exfalso.
      apply in_app_or in Hin. destruct Hin as [Hin|Hin].
      * destruct (Hshow f n Hin) as [e E]. discriminate E.
      * rewrite Forall_forall in H2. exact (H2 _ Hin f n eq_refl).
  - simpl. intros e evs (Hall & _ & _) f n _. split; [eauto|].
    eapply Forall_impl; [|exact Hall]. intros ev Hev. right. exact Hev.
  - simpl. intros code evs (_ & Hexit & _). exfalso. exact (Hexit code eq_refl).
Qed.

Lemma generate_extraction_error (config : ESDocConfig) :
  traced (generate X config) AbortsOnExtractionError.
Proof.
  unfold generate.
  in_prelude; [apply emits_assert|]. intros _.
  in_prelude; [apply emits_assert|]. intros _.
  in_prelude; [apply emits_emit; exact I|]. intros _.
  in_prelude; [apply emits_emit; exact I|]. intros _.
  in_prelude; [apply emits_emit; exact I|]. intros _.
  apply generate_body_extraction_error.
Qed.

(** *** [generate], run *)

Lemma bind_run_return {A B : Type} (m : M X A) (k : A -> M X B) (w w1 : World X) (a : A) :
  m w = (Return a, w1) -> bind m k w = k a w1.
Proof. intros H. unfold bind. rewrite H. reflexivity. Qed.

Lemma compile_run (patterns : list string) (w : World X) :
  compile X (Some patterns) w
  = match compileAll X patterns with
    | Ok regs => (Return regs, w)
    | Raise e => (Throw e, w)
    end.
Proof.
  unfold compile. induction patterns as [|v patterns IH]; simpl.
  - reflexivity.
  - unfold bind at 1. destruct (RegExp_new X v) as [reg|e]; simpl; [|reflexivity].
    unfold bind at 1. rewrite IH.
    destruct (compileAll X patterns) as [regs|e]; reflexivity.
Qed.

Lemma package_info_run (config : ESDocConfig) (w : World X) :
  match truthy (package config) with
  | Some path =>
      try_catch
        (bind (readFileSync X path)
           (fun packageJSON => call (JSON_parse_package X packageJSON)))
        (fun _ => ret (None, None))
  | None => ret (None, None)
  end (emitting w [EvLoggerDebug (match debug config with Some b => b | None => false end)])
  = (Return (packageInfo X config w), emitting w (preludeEvents X config)).
Proof.
  unfold packageInfo, preludeEvents.
  destruct (truthy (package config)) as [path|]; [|reflexivity].
  unfold try_catch, readFileSync. unfold bind at 1 2. simpl.
  destruct (lookup path (fs_files w)) as [packageJSON|e]; simpl; [|same_world].
  destruct (JSON_parse_package X packageJSON) as [info|e]; same_world.
Qed.

(** [generate] up to the walk, when the patterns compile and the source
    is there. *)
Lemma generate_body_run (config : ESDocConfig) (w : World X)
    (includePatterns excludePatterns : list string) (inDirPath : string)
    (includeRegs excludeRegs : list (RegExp X)) :
  includes config = Some includePatterns ->
  excludes config = Some excludePatterns ->
  compileAll X includePatterns = Ok includeRegs ->
  compileAll X excludePatterns = Ok excludeRegs ->
  source config = Some inDirPath ->
  generate_body X config w
  = bind (_walk X inDirPath
            (visit X inDirPath (path_resolve X [inDirPath]) includeRegs excludeRegs
               (fst (packageInfo X config w)) (snd (packageInfo X config w)))
            ([], []))
      (generate_output X config)
      (emitting w (preludeEvents X config)).
Proof.
  intros Hinc Hexc Hci Hce Hsrc. unfold generate_body.
  unfold bind at 1. rewrite emit_run, Hinc.
  unfold bind at 1. rewrite compile_run, Hci, Hexc.
  unfold bind at 1. rewrite compile_run, Hce.
  unfold bind at 1. rewrite package_info_run.
  destruct (packageInfo X config w) as [packageName mainFilePath]. simpl fst. simpl snd.
  rewrite Hsrc. unfold bind at 1. simpl string_arg. unfold ret at 1.
  reflexivity.
Qed.

(** The walk of [generate] completes when every directory can be listed
    and no call of [factory.push] raises, whatever the parser does. *)
Lemma _walk_completes (inDirPath sourceDirPath : string)
    (includes excludes : list (RegExp X)) (packageName mainFilePath : option string)
    (acc : Collected X) (w : World X) (entries : list Entry) :
  lookup inDirPath (fs_dirs w) = Ok entries ->
  listable (flat_map (steps X inDirPath) entries) ->
  Forall (fun filePath =>
            selected X includes excludes (path_relative X sourceDirPath filePath) = true ->
            extractable X inDirPath packageName mainFilePath filePath)
    (filesUnder X inDirPath entries) ->
  exists acc' evs,
    _walk X inDirPath
      (visit X inDirPath sourceDirPath includes excludes packageName mainFilePath) acc w
    = (Return acc', emitting w evs)
    /\ parsedFiles evs
       = filter (fun filePath =>
                   selected X includes excludes (path_relative X sourceDirPath filePath))
           (filesUnder X inDirPath entries).
Proof.
  intros Hdir Hlist Hext. rewrite _walk_run, Hdir.
  destruct (walk_steps_run inDirPath sourceDirPath includes excludes packageName
              mainFilePath (flat_map (steps X inDirPath) entries) acc
              (emitting w [EvReaddir inDirPath]))
    as (r & evs & Hrun & _ & _ & _ & _ & Hret & Hfin).
  destruct (Hfin Hlist Hext) as [acc' ->].
  exists acc', (EvReaddir inDirPath :: evs). split.
  - rewrite Hrun, emitting_app. reflexivity.
  - simpl. exact (Hret acc' eq_refl).
Qed.

(** *** The synthetic docs, run *)

Lemma _generateForIndex_run (config : ESDocConfig) (w : World X) (path : string) :
  index config = Some path ->
  _generateForIndex X config w
  = match lookup path (fs_files w) with
    | Ok indexContent =>
        (Return (mkDoc "index" (path_resolve X [path]) path true "public"
                   indexContent None),
         emitting w [EvReadFile path])
    | Raise e => (Throw e, emitting w [EvReadFile path])
    end.
Proof.
  intros Hidx. unfold _generateForIndex. rewrite Hidx. unfold readFileSync.
  unfold bind. simpl. destruct (lookup path (fs_files w)); reflexivity.
Qed.

(** What [_generateForPackageJSON] gives, as a function of the config and
    the files. *)
Lemma _generateForPackageJSON_doc (config : ESDocConfig) (w : World X) :
  exists evs,
    _generateForPackageJSON X config w = (Return (packageDoc X config w), emitting w evs)
    /\ Forall (fun ev => exists path, ev = EvReadFile path) evs.
Proof.
  unfold _generateForPackageJSON, packageDoc, try_catch, readFileSync.
  destruct (package config) as [path|]; simpl.
  - unfold bind. simpl.
    destruct (lookup path (fs_files w)) as [packageJSON|e]; simpl;
      exists [EvReadFile path]; (split; [reflexivity|]); repeat constructor; eauto.
  - unfold bind. simpl. exists []. rewrite emitting_nil.
    split; [reflexivity | constructor].
Qed.

(** *** The writes of [generate] *)

Lemma outputFileSync_run (path content : string) (w : World X) :
  outputFileSync X path content w
  = match fs_outputFileSync X (fs_files w, fs_dirs w) path content with
    | Ok files =>
        (Return tt,
         mkWorld (fst files) (snd files) (trace w ++ [EvOutputFile path content]))
    | Raise e => (Throw e, emitting w [EvOutputFile path content])
    end.
Proof.
  unfold outputFileSync, bind. rewrite emit_run. simpl.
  destruct (fs_outputFileSync X (fs_files w, fs_dirs w) path content); reflexivity.
Qed.


(** What follows the write of [index.json] only adds to the trace. *)
Lemma write_asts_then_publish_traced (config : ESDocConfig) (dest : string)
    (asts : list (string * AST X)) :
  emits (fun _ => True) True
    (bind
       (for_of
          (fun (_ : unit) '(astPath, ast) =>
             outputFileSync X
               (path_resolve X [dest; ("ast/" ++ astPath ++ ".json")%string])
               (JSON_stringify_ast X ast))
          asts tt)
       (fun _ => bind (_publish X config) (fun _ => emit EvOnComplete))).
Proof.
  apply emits_bind.
  - apply emits_for_of. intros [] [astPath ast]. apply emits_outputFileSync. exact I.
  - intros _. apply emits_bind; [apply emits__publish; intros; exact I|].
    intros _. apply emits_emit. exact I.
Qed.


(** [generate] after the walk, up to the write of [index.json], when the
    index file can be read. *)
Lemma generate_output_index (config : ESDocConfig) (results : list DocObject)
    (asts : list (string * AST X)) (w : World X) (path indexContent dest : string) :
  truthy (index config) = Some path ->
  lookup path (fs_files w) = Ok indexContent ->
  isTruthy (package config) = true ->
  destination config = Some dest ->
  exists evs,
    Forall (fun ev => exists file, ev = EvReadFile file) evs
    /\ generate_output X config (results, asts) w
       = bind
           (outputFileSync X (path_resolve X [dest; "index.json"])
              (JSON_stringify_docs X
                 (Plugin_onHandleDocs X
                    (_resolveDuplication
                       (results ++ [indexDoc X path indexContent]
                        ++ [packageDoc X config w])))))
           (fun _ =>
              bind
                (for_of
                   (fun (_ : unit) '(astPath, ast) =>
                      outputFileSync X
                        (path_resolve X [dest; ("ast/" ++ astPath ++ ".json")%string])
                        (JSON_stringify_ast X ast))
                   asts tt)
                (fun _ => bind (_publish X config) (fun _ => emit EvOnComplete)))
           (emitting w
              (evs ++ [EvOnHandleDocs
                         (_resolveDuplication
                            (results ++ [indexDoc X path indexContent]
                             ++ [packageDoc X config w]))])).
Proof.
  intros Htruthy Hread Hpkg Hdest.
  assert (Hidx : index config = Some path).
  { unfold truthy in Htruthy. destruct (index config) as [s|]; [|discriminate].
    destruct (s =? ""); [discriminate | exact Htruthy]. }
  destruct (_generateForPackageJSON_doc config (emitting w [EvReadFile path]))
    as (evs2 & Hdoc & Hall2).
  change (packageDoc X config (emitting w [EvReadFile path]))
    with (packageDoc X config w) in Hdoc.
  exists (EvReadFile path :: evs2). split; [constructor; [eauto | exact Hall2]|].
  remember (generate_output X config (results, asts) w) as run eqn:Hrun.
  unfold generate_output in Hrun.
  unfold isTruthy at 1 in Hrun. rewrite Htruthy, Hpkg in Hrun.
  unfold bind at 1 2 in Hrun.
  rewrite (_generateForIndex_run config w path Hidx), Hread in Hrun.
  unfold ret at 1 in Hrun. fold (indexDoc X path indexContent) in Hrun.
  unfold bind at 1 2 in Hrun. rewrite Hdoc in Hrun. unfold ret at 1 in Hrun.
  unfold bind at 1 in Hrun. rewrite emit_run, Hdest in Hrun.
  unfold bind at 1 in Hrun. simpl string_arg in Hrun. unfold ret at 1 in Hrun.
  rewrite !emitting_app, <- (app_assoc results) in Hrun. exact Hrun.
Qed.

(** Whether the writes succeed or not, [Plugin.onHandleDocs] gets the docs
    and [fs.outputFileSync] is called on [index.json]. *)
Lemma generate_output_calls (config : ESDocConfig) (results : list DocObject)
    (asts : list (string * AST X)) (w : World X) (path indexContent dest : string) :
  truthy (index config) = Some path ->
  lookup path (fs_files w) = Ok indexContent ->
  isTruthy (package config) = true ->
  destination config = Some dest ->
  exists evs,
    trace (snd (generate_output X config (results, asts) w)) = trace w ++ evs
    /\ In (EvOnHandleDocs
             (_resolveDuplication
                (results ++ [indexDoc X path indexContent] ++ [packageDoc X config w])))
          evs
    /\ In (EvOutputFile (path_resolve X [dest; "index.json"])
             (JSON_stringify_docs X
                (Plugin_onHandleDocs X
                   (_resolveDuplication
                      (results ++ [indexDoc X path indexContent]
                       ++ [packageDoc X config w])))))
          evs.
Proof.
  intros Htruthy Hread Hpkg Hdest.
  destruct (generate_output_index config results asts w path indexContent dest
              Htruthy Hread Hpkg Hdest) as (evsR & _ & Hrun).
  rewrite Hrun. clear Hrun.
  set (docs := _resolveDuplication _).
  set (json := JSON_stringify_docs X _).
  unfold bind at 1. rewrite outputFileSync_run.
  change (fs_files (emitting w (evsR ++ [EvOnHandleDocs docs]))) with (fs_files w).
  change (fs_dirs (emitting w (evsR ++ [EvOnHandleDocs docs]))) with (fs_dirs w).
  destruct (fs_outputFileSync X (fs_files w, fs_dirs w) _ json) as [files1|e].
  - match goal with |- context [snd (?rest ?w1)] =>
      destruct (write_asts_then_publish_traced config dest asts w1) as (evs & Ht & _)
    end.
    exists (evsR ++ [EvOnHandleDocs docs]
            ++ [EvOutputFile (path_resolve X [dest; "index.json"]) json] ++ evs).
    split; [|split].
    + rewrite Ht. simpl. rewrite <- !app_assoc. reflexivity.
    + apply in_or_app. right. left. reflexivity.
    + apply in_or_app. right. right. left. reflexivity.
  - exists (evsR ++ [EvOnHandleDocs docs]
            ++ [EvOutputFile (path_resolve X [dest; "index.json"]) json]).
    split; [|split].
    + simpl. rewrite <- !app_assoc. reflexivity.
    + apply in_or_app. right. left. reflexivity.
    + apply in_or_app. right. right. left. reflexivity.
Qed.



End Runs.

(** *** Runs of the small project *)

Example run_of_the_project :
  fst (generate Demo.quiet (Demo.config None) (Demo.world Demo.quiet)) = Return tt
  /\ parsedFiles (trace (snd (generate Demo.quiet (Demo.config None)
                                (Demo.world Demo.quiet))))
     = ["/src/a.js"; "/src/broken.js"; "/src/lib/b.js"]
  /\ map fst (fs_files (snd (generate Demo.quiet (Demo.config None)
                               (Demo.world Demo.quiet))))
     = ["/out/ast/source/lib/b.js.json"; "/out/ast/source/a.js.json";
        "/out/index.json"; "./README.md"].
Proof. repeat split; reflexivity. Qed.

Example run_with_an_extraction_error :
  fst (generate Demo.quiet
         (mkConfig (Some "/src2") (Some "/out") None None None None None None)
         (Demo.world Demo.quiet))
  = Throw (Error "TypeError: cannot read property").
Proof. reflexivity. Qed.

Example run_with_failing_plugins :
  fst (generate Demo.failing (Demo.config None) (Demo.world Demo.failing)) = Exit 1%Z.
Proof. reflexivity. Qed.

(** ** The claims on the pipeline *)

Section Claims.

Context {X : Externals}.

Lemma _setDefaultConfig_fields (config : ESDocConfig) :
  source (_setDefaultConfig config) = source config
  /\ destination (_setDefaultConfig config) = destination config
  /\ includes (_setDefaultConfig config)
     = Some (match includes config with Some l => l | None => ["\.(js|es6)$"] end)
  /\ excludes (_setDefaultConfig config)
     = Some (match excludes config with Some l => l | None => ["\.config\.(js|es6)$"] end)
  /\ index (_setDefaultConfig config)
     = Some (match truthy (index config) with Some s => s | None => "./README.md" end)
  /\ package (_setDefaultConfig config)
     = Some (match truthy (package config) with Some s => s | None => "./package.json" end).
Proof.
  destruct config as [src dst inc exc idx pkg plg dbg].
  assert (Hcases : forall v : option string,
            isTruthy v = true /\ (exists s, v = Some s /\ truthy v = Some s)
            \/ isTruthy v = false /\ truthy v = None).
  { intros [s|]; unfold isTruthy, truthy; [|right; split; reflexivity].
    destruct (s =? ""); [right; split; reflexivity|].
    left. split; [reflexivity|]. exists s. split; reflexivity. }
  cbv beta iota zeta delta [_setDefaultConfig includes excludes index package source
                            destination plugins debug].
  destruct inc as [inc|], exc as [exc|];
    cbv beta iota zeta delta [includes excludes index package source destination
                              plugins debug];
    destruct (Hcases idx) as [[-> (si & -> & ->)]|[-> ->]];
    cbv beta iota zeta delta [negb includes excludes index package source destination
                              plugins debug];
    destruct (Hcases pkg) as [[-> (sp & -> & ->)]|[-> ->]];
    cbv beta iota zeta delta [negb includes excludes index package source destination
                              plugins debug];
    repeat split; reflexivity.
Qed.

Lemma _setDefaultConfig_filled (config : ESDocConfig) :
  defaultsFilled (_setDefaultConfig config).
Proof.
  destruct (_setDefaultConfig_fields config) as (_ & _ & Hi & He & Hx & Hp).
  unfold defaultsFilled, isTruthy. rewrite Hi, He, Hx, Hp.
  split; [discriminate|]. split; [discriminate|].
  unfold truthy.
  split.
  - destruct (index config) as [s|]; [destruct (s =? "") eqn:E; [reflexivity | rewrite E; reflexivity] | reflexivity].
  - destruct (package config) as [s|]; [destruct (s =? "") eqn:E; [reflexivity | rewrite E; reflexivity] | reflexivity].
Qed.

Lemma generate_run (config : ESDocConfig) (w : World X) :
  isTruthy (source config) = true -> isTruthy (destination config) = true ->
  generate X config w
  = generate_body X (_setDefaultConfig (Plugin_onHandleConfig X config))
      (emitting w [EvPluginInit (plugins config); EvOnStart; EvOnHandleConfig config]).
Proof.
  unfold isTruthy, generate, assert. intros Hs Hd.
  destruct (truthy (source config)); [|discriminate Hs].
  destruct (truthy (destination config)); [|discriminate Hd].
  unfold bind at 1 2 3 4 5. simpl. unfold emitting. simpl.
  rewrite <- !app_assoc. reflexivity.
Qed.

(** C8.  When [source] or [destination] is absent, [generate] raises the
    assertion error and leaves the world as it was: no plugin was set up,
    no file or directory was read.  [_setDefaultConfig] gives neither field
    a default. *)
Theorem generate_requires_source_and_destination (config : ESDocConfig) (w : World X) :
  source config = None \/ destination config = None ->
  generate X config w = (Throw AssertionError, w)
  /\ source (_setDefaultConfig config) = source config
  /\ destination (_setDefaultConfig config) = destination config.
Proof.
  intros H. split; [|split; apply _setDefaultConfig_fields].
  unfold generate, assert, bind.
  destruct H as [H|H]; rewrite H; simpl.
  - reflexivity.
  - destruct (truthy (source config)); reflexivity.
Qed.

(** C2, as the code has it.  [Plugin.onHandleConfig] is called before the
    defaults are filled: it gets the config of the caller as it is, and
    [_setDefaultConfig] then fills the defaults in the config that the hook
    gives back, with which the rest of [generate] runs. *)
Theorem onHandleConfig_before_defaults (config : ESDocConfig) (w : World X) :
  isTruthy (source config) = true -> isTruthy (destination config) = true ->
  generate X config w
  = generate_body X (_setDefaultConfig (Plugin_onHandleConfig X config))
      (emitting w [EvPluginInit (plugins config); EvOnStart; EvOnHandleConfig config])
  /\ defaultsFilled (_setDefaultConfig (Plugin_onHandleConfig X config)).
Proof.
  intros Hs Hd. split; [apply generate_run; assumption | apply _setDefaultConfig_filled].
Qed.

Lemma parsedFiles_In (evs : list (Event X)) (filePath : string) :
  In filePath (parsedFiles evs) <-> In (EvParse filePath) evs.
Proof.
  unfold parsedFiles. rewrite in_flat_map. split.
  - intros [ev [Hev Hin]]. destruct ev; simpl in Hin; try contradiction.
    destruct Hin as [<-|[]]. exact Hev.
  - intros H. exists (EvParse filePath). split; [exact H | left; reflexivity].
Qed.

(** C5.  The callback of [generate] gives a file to the parser exactly
    when the path of the file relative to the source root matches some
    include pattern and no exclude pattern; so the files that [_walk] gives
    to the parser are plain files under the source root that pass the
    filters, and a walk that completes has given all of them, in order. *)
Theorem extracted_iff_included_and_not_excluded
    (inDirPath sourceDirPath : string) (includes excludes : list (RegExp X))
    (packageName mainFilePath : option string) (acc : Collected X) (w : World X)
    (entries : list Entry) :
  lookup inDirPath (fs_dirs w) = Ok entries ->
  let passes filePath :=
    existsb (String_match X (path_relative X sourceDirPath filePath)) includes
    && negb (existsb (String_match X (path_relative X sourceDirPath filePath)) excludes) in
  let callback :=
    visit X inDirPath sourceDirPath includes excludes packageName mainFilePath in
  (forall acc' filePath w', exists evs,
     snd (callback acc' filePath w') = emitting w' evs
     /\ (In (EvParse filePath) evs <-> passes filePath = true))
  /\ exists r evs,
       _walk X inDirPath callback acc w = (r, emitting w evs)
       /\ (forall filePath, In (EvParse filePath) evs ->
              In filePath (filesUnder X inDirPath entries) /\ passes filePath = true)
       /\ (forall acc', r = Return acc' ->
              parsedFiles evs = filter passes (filesUnder X inDirPath entries)).
Proof.
  intros Hdir passes callback. split.
  - intros acc' filePath w'. unfold callback. rewrite visit_run.
    fold (passes filePath). unfold selected. fold (passes filePath).
    destruct (passes filePath).
    + destruct (ESParser_parse X filePath) as [ast|e];
        [destruct (pushAll X _ _) as [factory|[node e]]|];
        eexists; (split; [reflexivity|]); simpl; intuition discriminate.
    + exists []. rewrite emitting_nil. split; [reflexivity|].
      simpl. intuition discriminate.
  - unfold callback. rewrite _walk_run, Hdir.
    destruct (walk_steps_run inDirPath sourceDirPath includes excludes packageName
                mainFilePath (flat_map (steps X inDirPath) entries) acc
                (emitting w [EvReaddir inDirPath]))
      as (r & evs & Hrun & _ & _ & _ & [rest Hpre] & Hret & _).
    exists r, (EvReaddir inDirPath :: evs). split; [|split].
    + rewrite Hrun, emitting_app. reflexivity.
    + intros filePath Hin. apply parsedFiles_In in Hin. simpl in Hin.
      assert (Hf : In filePath (parsedFiles evs ++ rest)) by (apply in_or_app; auto).
      rewrite Hpre in Hf. apply filter_In in Hf. exact Hf.
    + intros acc' E. simpl. exact (Hret acc' E).
Qed.

(** *** What the walk of [generate] collects *)

Section Collecting.

Variables (inDirPath sourceDirPath : string) (includes excludes : list (RegExp X))
  (packageName mainFilePath : option string).

Let sel (filePath : string) : bool :=
  selected X includes excludes (path_relative X sourceDirPath filePath).

Let ext : string -> Prop := extractable X inDirPath packageName mainFilePath.

Let callback := visit X inDirPath sourceDirPath includes excludes packageName mainFilePath.

Let collected :=
  collect X inDirPath sourceDirPath includes excludes packageName mainFilePath.

Lemma parsedFiles_app (evs evs' : list (Event X)) :
  parsedFiles (evs ++ evs') = parsedFiles evs ++ parsedFiles evs'.
Proof. unfold parsedFiles. apply flat_map_app. Qed.

(** A walk in which nothing raises gives the [results] and [asts] of
    [collect], gives every file that passes the filters to the parser, and
    logs every failure of the parser. *)
Lemma walk_collects (l : list Step) :
  listable l ->
  Forall (fun filePath => sel filePath = true -> ext filePath) (visited l) ->
  forall acc w, exists evs,
    for_of (runStep callback) l acc w = (Return (collected (visited l) acc), emitting w evs)
    /\ parsedFiles evs = filter sel (visited l)
    /\ Forall walkEvent evs
    /\ forall filePath e,
         In filePath (visited l) -> sel filePath = true ->
         ESParser_parse X filePath = Raise e -> In (EvShowFile filePath e) evs.
Proof.
  unfold listable. induction l as [|step l IH]; intros Hl Hext acc w.
  - exists []. simpl. unfold ret. rewrite emitting_nil.
    split; [reflexivity|]. split; [reflexivity|]. split; [constructor|].
    intros filePath e [].
  - assert (Hl' : forall e, ~ In (RaiseStep e) l).
    { intros e Hin. apply (Hl e). right. exact Hin. }
    destruct step as [path|path|filePath|e].
    + destruct (IH Hl' Hext acc (emitting w [EvStat path]))
        as (evs & Hrun & Hparsed & Hall & Hshow).
      exists (EvStat path :: evs). split; [|split; [exact Hparsed|split]].
      * simpl. unfold bind at 1 2. simpl. fold (emitting w [EvStat path]).
        rewrite Hrun, emitting_app. reflexivity.
      * constructor; [exact I | exact Hall].
      * intros f e Hin Hsel Hparse. right. exact (Hshow f e Hin Hsel Hparse).
    + destruct (IH Hl' Hext acc (emitting w [EvReaddir path]))
        as (evs & Hrun & Hparsed & Hall & Hshow).
      exists (EvReaddir path :: evs). split; [|split; [exact Hparsed|split]].
      * simpl. unfold bind at 1 2. simpl. fold (emitting w [EvReaddir path]).
        rewrite Hrun, emitting_app. reflexivity.
      * constructor; [exact I | exact Hall].
      * intros f e Hin Hsel Hparse. right. exact (Hshow f e Hin Hsel Hparse).
    + simpl in Hext. inversion Hext as [|? ? Hf Hext']; subst.
      simpl for_of. unfold bind at 1. unfold callback at 1. rewrite visit_run.
      unfold collected, collect. simpl fold_left. unfold collectFile at 2.
      simpl visited. simpl filter.
      fold (sel filePath). destruct (sel filePath) eqn:Hsel.
      * destruct (ESParser_parse X filePath) as [ast|e] eqn:Hparse.
        -- destruct (Hf eq_refl ast Hparse) as [factory Hok]. rewrite Hok.
           match goal with |- context [for_of _ l ?a ?w'] =>
             destruct (IH Hl' Hext' a w') as (evs & Hrun & Hparsed & Hall & Hshow) end.
           eexists. split; [rewrite Hrun, emitting_app; reflexivity|].
           split; [rewrite parsedFiles_app, Hparsed; reflexivity|].
           split; [apply Forall_app; split; [repeat constructor | exact Hall]|].
           intros f e [<-|Hin] Hself Hparsef; [rewrite Hparse in Hparsef; discriminate|].
           apply in_or_app. right. exact (Hshow f e Hin Hself Hparsef).
        -- match goal with |- context [for_of _ l ?a ?w'] =>
             destruct (IH Hl' Hext' a w') as (evs & Hrun & Hparsed & Hall & Hshow) end.
           eexists. split; [rewrite Hrun, emitting_app; reflexivity|].
           split; [rewrite parsedFiles_app, Hparsed; reflexivity|].
           split; [apply Forall_app; split; [repeat constructor | exact Hall]|].
           intros f e' [<-|Hin] Hself Hparsef.
           ++ rewrite Hparse in Hparsef. injection Hparsef as <-.
              apply in_or_app. left. simpl. tauto.
           ++ apply in_or_app. right. exact (Hshow f e' Hin Hself Hparsef).
      * destruct (IH Hl' Hext' acc w) as (evs & Hrun & Hparsed & Hall & Hshow).
        exists evs. split; [exact Hrun|]. split; [exact Hparsed|]. split; [exact Hall|].
        intros f e [<-|Hin] Hself Hparsef; [rewrite Hsel in Hself; discriminate|].
        exact (Hshow f e Hin Hself Hparsef).
    + exfalso. apply (Hl e). left. reflexivity.
Qed.





End Collecting.

(** [generate] up to the end of the walk, when nothing raises. *)
Lemma generate_to_output (config : ESDocConfig) (w : World X)
    (inDirPath : string) (includePatterns excludePatterns : list string)
    (includeRegs excludeRegs : list (RegExp X)) (entries : list Entry) :
  let config' := _setDefaultConfig (Plugin_onHandleConfig X config) in
  isTruthy (source config) = true -> isTruthy (destination config) = true ->
  source config' = Some inDirPath ->
  includes config' = Some includePatterns -> excludes config' = Some excludePatterns ->
  compileAll X includePatterns = Ok includeRegs ->
  compileAll X excludePatterns = Ok excludeRegs ->
  lookup inDirPath (fs_dirs w) = Ok entries ->
  listable (flat_map (steps X inDirPath) entries) ->
  Forall (fun filePath =>
            selected X includeRegs excludeRegs
              (path_relative X (path_resolve X [inDirPath]) filePath) = true ->
            extractable X inDirPath (fst (packageInfo X config' w))
              (snd (packageInfo X config' w)) filePath)
    (filesUnder X inDirPath entries) ->
  exists evs,
    generate X config w
    = generate_output X config'
        (collect X inDirPath (path_resolve X [inDirPath]) includeRegs excludeRegs
           (fst (packageInfo X config' w)) (snd (packageInfo X config' w))
           (filesUnder X inDirPath entries) ([], []))
        (emitting w evs)
    /\ parsedFiles evs
       = filter (fun filePath =>
                   selected X includeRegs excludeRegs
                     (path_relative X (path_resolve X [inDirPath]) filePath))
           (filesUnder X inDirPath entries)
    /\ Forall (fun ev => forall path content, ev <> EvOutputFile path content) evs
    /\ forall filePath e,
         In filePath (filesUnder X inDirPath entries) ->
         selected X includeRegs excludeRegs
           (path_relative X (path_resolve X [inDirPath]) filePath) = true ->
         ESParser_parse X filePath = Raise e -> In (EvShowFile filePath e) evs.
Proof.
  intros config' Hs Hd Hsrc Hinc Hexc Hci Hce Hdir Hlist Hext.
  rewrite (generate_run config w Hs Hd). fold config'.
  rewrite (generate_body_run config' _ includePatterns excludePatterns inDirPath
             includeRegs excludeRegs Hinc Hexc Hci Hce Hsrc).
  set (w1 := emitting (emitting w _) _).
  change (packageInfo X config' (emitting w [EvPluginInit (plugins config); EvOnStart;
                                             EvOnHandleConfig config]))
    with (packageInfo X config' w).
  destruct (walk_collects inDirPath (path_resolve X [inDirPath]) includeRegs excludeRegs
              (fst (packageInfo X config' w)) (snd (packageInfo X config' w))
              (flat_map (steps X inDirPath) entries) Hlist Hext ([], [])
              (emitting w1 [EvReaddir inDirPath]))
    as (evsW & Hsteps & Hparsed & Hall & Hshow).
  fold (filesUnder X inDirPath entries) in Hsteps, Hparsed, Hshow.
  assert (Hwalk :
            _walk X inDirPath
              (visit X inDirPath (path_resolve X [inDirPath]) includeRegs excludeRegs
                 (fst (packageInfo X config' w)) (snd (packageInfo X config' w)))
              ([], []) w1
            = (Return
                 (collect X inDirPath (path_resolve X [inDirPath]) includeRegs
                    excludeRegs (fst (packageInfo X config' w))
                    (snd (packageInfo X config' w)) (filesUnder X inDirPath entries)
                    ([], [])),
               emitting (emitting w1 [EvReaddir inDirPath]) evsW)).
  { rewrite _walk_run. change (fs_dirs w1) with (fs_dirs w). rewrite Hdir.
    exact Hsteps. }
  rewrite (bind_run_return _ _ _ _ _ Hwalk).
  assert (Hprelude : parsedFiles (preludeEvents X config') = []
                     /\ Forall (fun ev : Event X =>
                                  forall path content, ev <> EvOutputFile path content)
                          (preludeEvents X config')
                     /\ forall filePath e,
                          ~ In (EvShowFile filePath e) (preludeEvents X config')).
  { unfold preludeEvents. destruct (truthy (package config')); simpl;
      (split; [reflexivity|]); (split; [repeat constructor; discriminate|]);
      intros f e H; simpl in H; intuition discriminate. }
  destruct Hprelude as (Hp1 & Hp2 & Hp3).
  exists ([EvPluginInit (plugins config); EvOnStart; EvOnHandleConfig config]
          ++ preludeEvents X config' ++ EvReaddir inDirPath :: evsW).
  split; [|split; [|split]].
  - unfold w1. rewrite !emitting_app. reflexivity.
  - rewrite !parsedFiles_app, Hp1. simpl. exact Hparsed.
  - apply Forall_app. split; [repeat constructor; discriminate|].
    apply Forall_app. split; [exact Hp2|].
    constructor; [discriminate|].
    eapply Forall_impl; [|exact Hall].
    intros ev Hev path content ->. exact Hev.
  - intros f e Hin Hsel Hparse. apply in_or_app. right. apply in_or_app. right.
    right. exact (Hshow f e Hin Hsel Hparse).
Qed.


(** C7.  When the file parses and [factory.push] raises on a node,
    [_traverse] logs the file and the node and raises what [push] raised;
    and a run of [generate] in which this happened has ended by raising,
    before the docs were handled and before anything was written. *)
Theorem extraction_error_is_fatal (inDirPath filePath : string)
    (packageName mainFilePath : option string) (w : World X)
    (ast : AST X) (node : Node X) (e : JsError) :
  ESParser_parse X filePath = Ok ast ->
  pushAll X (DocFactory_new X ast inDirPath filePath packageName mainFilePath)
    (ASTUtil_nodes X ast) = inr (node, e) ->
  _traverse X inDirPath filePath packageName mainFilePath w
  = (Throw e,
     emitting w [EvLoggerInfo ("parsing: " ++ filePath); EvParse filePath;
                 EvShow filePath node])
  /\ forall config w0, exists evs,
       trace (snd (generate X config w0)) = trace w0 ++ evs
       /\ (forall f n, In (EvShow f n) evs ->
              (exists e', fst (generate X config w0) = Throw e')
              /\ (forall path content, ~ In (EvOutputFile path content) evs)
              /\ (forall docs, ~ In (EvOnHandleDocs docs) evs)
              /\ ~ In EvOnPublish evs /\ ~ In EvOnComplete evs).
Proof.
  intros Hparse Hpush. split.
  - rewrite _traverse_run, Hparse, Hpush. reflexivity.
  - intros config w0.
    destruct (generate_extraction_error config w0) as (evs & Ht & Habort).
    exists evs. split; [exact Ht|]. intros f n Hin.
    destruct (Habort f n Hin) as [Hthrow Hall]. split; [exact Hthrow|].
    assert (Hno : forall ev, ~ beforeOutput ev -> ~ In ev evs).
    { intros ev Hev. apply (not_In_Forall beforeOutput); assumption. }
    unfold beforeOutput in Hno.
    split; [|split; [|split]].
    + intros path content. apply Hno. simpl. tauto.
    + intros docs. apply Hno. simpl. tauto.
    + apply Hno. simpl. tauto.
    + apply Hno. simpl. tauto.
Qed.

(** C9.  When the [onPublish] hook of the plugins raises, [_publish] logs
    the error and exits with the code 1; and a run of [generate] in which
    this happened has ended by that exit, without the call of
    [Plugin.onComplete]. *)
Theorem publish_error_exits (config : ESDocConfig) (w w' : World X) (e : JsError) :
  bind (emit EvOnPublish) (fun _ => onPublish X config (Plugin_onPublish X)) w
  = (Throw e, w') ->
  _publish X config w = (Exit 1%Z, emitting w' [EvShowError e])
  /\ forall config0 w0, exists evs,
       trace (snd (generate X config0 w0)) = trace w0 ++ evs
       /\ (forall e', In (EvShowError e') evs ->
              fst (generate X config0 w0) = Exit 1%Z /\ ~ In EvOnComplete evs).
Proof.
  intros Hraise. split; [apply _publish_run_raise, Hraise|].
  intros config0 w0. apply generate_publish_error.
Qed.

End Claims.

(** C2, as the spec has it, fails: in the run of the small project with a
    config that has only [source] and [destination], the config that
    [Plugin.onHandleConfig] gets has none of the defaults. *)
Lemma onHandleConfig_sees_no_defaults :
  ~ (forall config,
       In (EvOnHandleConfig config)
          (trace (snd (generate Demo.quiet (Demo.config None) (Demo.world Demo.quiet)))) ->
       defaultsFilled config).
Proof.
  intros H. destruct (H (Demo.config None)) as [Hincludes _].
  - vm_compute. tauto.
  - apply Hincludes. reflexivity.
Qed.

Lemma onHandleConfig_before_defaults_witness :
  generate Demo.quiet (Demo.config None) (Demo.world Demo.quiet)
  = generate_body Demo.quiet
      (_setDefaultConfig (Plugin_onHandleConfig Demo.quiet (Demo.config None)))
      (emitting (Demo.world Demo.quiet)
         [EvPluginInit None; EvOnStart; EvOnHandleConfig (Demo.config None)])
  /\ defaultsFilled (_setDefaultConfig (Plugin_onHandleConfig Demo.quiet (Demo.config None))).
Proof.
  apply (@onHandleConfig_before_defaults Demo.quiet (Demo.config None)
           (Demo.world Demo.quiet)); reflexivity.
Defined.

(** C3 fails on the code: [_generateForIndex] reads the index file outside
    any [try], so without [./README.md] it raises what the read raised, and
    [generate] ends by raising before anything is written;
    [_generateForPackageJSON], next to it, gives a doc with an empty content
    for the package file that is not there. *)
Theorem index_unreadable_raises :
  let config := _setDefaultConfig (Demo.config None) in
  let w := Demo.world_without_index Demo.quiet in
  let enoent := Error "ENOENT: no such file or directory './README.md'" in
  _generateForIndex Demo.quiet config w = (Throw enoent, emitting w [EvReadFile "./README.md"])
  /\ fst (generate Demo.quiet (Demo.config None) w) = Throw enoent
  /\ (forall path json,
        ~ In (EvOutputFile path json)
             (trace (snd (generate Demo.quiet (Demo.config None) w))))
  /\ exists tag,
       fst (_generateForPackageJSON Demo.quiet config w) = Return tag
       /\ kind tag = "packageJSON" /\ content tag = "".
Proof.
  intros config w enoent. split; [reflexivity|]. split; [reflexivity|]. split.
  - intros path json. vm_compute. intuition discriminate.
  - eexists. split; [reflexivity|]. split; reflexivity.
Qed.

Lemma extracted_iff_included_and_not_excluded_witness :
  exists r evs,
    _walk Demo.quiet "/src"
      (visit Demo.quiet "/src" "/src" ["\.(js|es6)$"] ["\.config\.(js|es6)$"] None None)
      ([], []) (Demo.world Demo.quiet)
    = (r, emitting (Demo.world Demo.quiet) evs)
    /\ parsedFiles evs = ["/src/a.js"; "/src/broken.js"; "/src/lib/b.js"].
Proof.
  destruct (@extracted_iff_included_and_not_excluded Demo.quiet "/src" "/src"
              ["\.(js|es6)$"] ["\.config\.(js|es6)$"] None None ([], [])
              (Demo.world Demo.quiet)
              [File "a.js"; File "broken.js";
               Directory "lib" [File "b.js"; File "b.config.js"];
               Special "socket"; File "notes.txt"] eq_refl)
    as [_ (r & evs & Hrun & _ & Hall)].
  exists r, evs. split; [exact Hrun|].
  vm_compute in Hrun. injection Hrun as Hr _.
  rewrite (Hall _ (eq_sym Hr)). reflexivity.
Defined.


Lemma extraction_error_is_fatal_witness :
  _traverse Demo.quiet "/src2" "/src2/buggy.js" None None (Demo.world Demo.quiet)
  = (Throw (Error "TypeError: cannot read property"),
     emitting (Demo.world Demo.quiet)
       [EvLoggerInfo "parsing: /src2/buggy.js"; EvParse "/src2/buggy.js";
        @EvShow Demo.quiet "/src2/buggy.js" "bad"]).
Proof.
  apply (proj1 (@extraction_error_is_fatal Demo.quiet "/src2" "/src2/buggy.js" None None
                  (Demo.world Demo.quiet) ["f"; "bad"; "g"] "bad"
                  (Error "TypeError: cannot read property") eq_refl eq_refl)).
Defined.

Lemma publish_error_exits_witness :
  exists w' e,
    _publish Demo.failing (_setDefaultConfig (Demo.config None)) (Demo.world Demo.failing)
    = (Exit 1%Z, emitting w' [EvShowError e]).
Proof.
  eexists _, _.
  refine (proj1 (@publish_error_exits Demo.failing (_setDefaultConfig (Demo.config None))
                   (Demo.world Demo.failing) _ _ _)).
  reflexivity.
Defined.

Lemma generate_requires_source_and_destination_witness :
  generate Demo.quiet (mkConfig None (Some "/out") None None None None None None)
    (Demo.world Demo.quiet)
  = (Throw AssertionError, Demo.world Demo.quiet).
Proof.
  apply (@generate_requires_source_and_destination Demo.quiet
           (mkConfig None (Some "/out") None None None None None None)
           (Demo.world Demo.quiet)).
  left. reflexivity.
Defined.

(** * Part III: further properties of the code *)

(** ** [_resolveDuplication] *)

Lemma NoDup_map_of_inj {A B : Type} (key : A -> B) (xs : list A) :
  NoDup xs ->
  (forall x y, In x xs -> In y xs -> key x = key y -> x = y) ->
  NoDup (map key xs).
Proof.
  induction 1 as [|a xs Hna Hnd IH]; intros Hinj; simpl; constructor.
  - intros Hin. apply in_map_iff in Hin. destruct Hin as [x [E Hx]].
    apply Hna. rewrite <- (Hinj x a); simpl; auto.
  - apply IH. intros x y Hx Hy. apply Hinj; simpl; auto.
Qed.

(** X1.  Where no doc is a member doc, nothing is removed: the docs come
    out as they went in. *)
Theorem resolve_without_members (docs : list DocObject) :
  (forall d, In d docs -> kind d <> "member") ->
  _resolveDuplication docs = docs.
Proof.
  intros Hnone. rewrite resolve_filter. unfold removeIds.
  assert (Hm : filter isMember docs = []).
  { induction docs as [|d docs IH]; simpl; [reflexivity|].
    unfold isMember at 1.
    rewrite (proj2 (String.eqb_neq _ _) (Hnone d (or_introl eq_refl))).
    apply IH. intros x Hx. apply Hnone. right. exact Hx. }
  rewrite Hm. simpl. apply filter_all. intros x _. reflexivity.
Qed.

Lemma resolve_without_members_witness :
  _resolveDuplication
    [Demo.doc "class" "A" "1"; Demo.doc "method" "A#f" "2"; Demo.doc "method" "A#f" "2"]
  = [Demo.doc "class" "A" "1"; Demo.doc "method" "A#f" "2"; Demo.doc "method" "A#f" "2"].
Proof.
  apply resolve_without_members.
  intros d H. each_doc H; simpl; discriminate.
Defined.

(** X2.  With unique identifiers, a member doc that stays has its longname
    to itself in the output: no other doc that stays, member or not, is at
    its longname; so no two member docs that stay share a longname. *)
Theorem resolved_member_alone_at_longname (docs : list DocObject) :
  uniqueIds docs ->
  (forall m d, In m (_resolveDuplication docs) -> In d (_resolveDuplication docs) ->
               kind m = "member" -> longname d = longname m -> d = m)
  /\ NoDup (map longname (filter isMember (_resolveDuplication docs))).
Proof.
  intros Hu.
  assert (Halone : forall m d,
            In m (_resolveDuplication docs) -> In d (_resolveDuplication docs) ->
            kind m = "member" -> longname d = longname m -> d = m).
  { intros m d Hm Hd Hk Hl.
    destruct (String.eqb_spec (kind d) "member") as [E|E].
    - apply (surviving_members_distinct docs m d Hu); assumption.
    - exfalso.
      exact (member_with_competitor_removed docs m d (resolve_incl _ _ Hm) Hk
               (resolve_incl _ _ Hd) Hl E Hm). }
  split; [exact Halone|].
  apply NoDup_map_of_inj.
  - apply members_NoDup, resolve_uniqueIds, Hu.
  - intros x y Hx Hy E. apply filter_In in Hx, Hy.
    destruct Hx as [Hx Hkx], Hy as [Hy Hky].
    apply (Halone y x); auto. apply String.eqb_eq, Hky.
Qed.

Lemma resolved_member_alone_at_longname_witness :
  NoDup (map longname (filter isMember (_resolveDuplication Demo.reopened))).
Proof.
  exact (proj2 (resolved_member_alone_at_longname Demo.reopened reopened_uniqueIds)).
Defined.

(** X3.  With unique identifiers, of the member docs at a longname that no
    doc of another kind has, exactly one stays: the one with the least
    identifier. *)
Theorem resolve_keeps_one_of_each_group (docs : list DocObject) (l : string) :
  uniqueIds docs ->
  (forall x, In x docs -> longname x = l -> kind x = "member") ->
  (exists x, In x docs /\ longname x = l) ->
  exists d,
    filter (atLongname l) (_resolveDuplication docs) = [d]
    /\ In d docs
    /\ forall d', In d' docs -> longname d' = l ->
                  idLeb (__docId__ d) (__docId__ d') = true.
Proof.
  intros Hu Hmem [x [Hx Hlx]].
  pose proof (sort_sorted (map __docId__ (dupAt docs l))) as Hsorted.
  pose proof (sort_perm compareIds (map __docId__ (dupAt docs l))) as Hperm.
  assert (HxG : In (__docId__ x) (JsArray.sort compareIds (map __docId__ (dupAt docs l)))).
  { apply (Permutation_in _ (Permutation_sym Hperm)). apply in_map.
    apply In_dupAt. auto. }
  assert (Hleast : exists d, In d docs /\ longname d = l
                             /\ forall d', In d' docs -> longname d' = l ->
                                           idLeb (__docId__ d) (__docId__ d') = true).
  { destruct (JsArray.sort compareIds (map __docId__ (dupAt docs l))) as [|h t] eqn:Es;
      [contradiction|].
    assert (Hh : In h (map __docId__ (dupAt docs l))).
    { apply (Permutation_in _ Hperm). left. reflexivity. }
    apply in_map_iff in Hh. destruct Hh as [d [Ed Hd]]. apply In_dupAt in Hd.
    exists d. split; [tauto|]. split; [tauto|].
    intros d' Hd' Hl'. rewrite Ed.
    assert (Hin : In (__docId__ d') (h :: t)).
    { apply (Permutation_in _ (Permutation_sym Hperm)). apply in_map.
      apply In_dupAt. auto. }
    inversion Hsorted as [|? ? _ Hall]; subst. rewrite Forall_forall in Hall.
    destruct Hin as [<-|Hin]; [apply idLeb_refl | apply Hall, Hin]. }
  destruct Hleast as (d & Hd & Hl & Hle). exists d.
  split; [|split; assumption].
  assert (Hstay : In d (_resolveDuplication docs)).
  { apply (survivor_iff_least docs Hu l d Hmem Hd Hl). exact Hle. }
  apply NoDup_singleton.
  - rewrite <- (filter_absorb (atLongname l) isMember).
    + apply NoDup_filter, members_NoDup, resolve_uniqueIds, Hu.
    + intros y Hy Hly. apply String.eqb_eq.
      apply Hmem; [exact (resolve_incl _ _ Hy) | apply String.eqb_eq, Hly].
  - apply filter_In. split; [exact Hstay | apply String.eqb_eq, Hl].
  - intros y Hy. apply filter_In in Hy. destruct Hy as [Hy Hly].
    apply String.eqb_eq in Hly.
    apply (surviving_members_distinct docs d y Hu); auto.
    + apply Hmem; [exact (resolve_incl _ _ Hy) | exact Hly].
    + congruence.
Qed.

Lemma resolve_keeps_one_of_each_group_witness :
  exists d, filter (atLongname "Y") (_resolveDuplication Demo.reopened) = [d]
            /\ In d Demo.reopened.
Proof.
  destruct (resolve_keeps_one_of_each_group Demo.reopened "Y" reopened_uniqueIds)
    as (d & Hd & Hin & _).
  - intros x H. each_doc H; simpl; intros; (reflexivity || discriminate).
  - exists (Demo.doc "member" "Y" "2"). simpl. split; [tauto | reflexivity].
  - exists d. split; assumption.
Defined.

(** X4.  The docs are removed by identifier: two docs of the input with
    the same identifier stay together or go together, whatever their kinds
    and longnames. *)
Theorem resolve_removes_by_identifier (docs : list DocObject) (d d' : DocObject) :
  In d docs -> In d' docs -> __docId__ d = __docId__ d' ->
  (In d (_resolveDuplication docs) <-> In d' (_resolveDuplication docs)).
Proof.
  intros Hd Hd' E. rewrite !In_resolve, E. tauto.
Qed.

Lemma resolve_removes_by_identifier_witness :
  In (Demo.doc "method" "Z" "1")
     (_resolveDuplication
        [Demo.doc "member" "X" "1"; Demo.doc "getter" "X" "2"; Demo.doc "method" "Z" "1"])
  <-> In (Demo.doc "member" "X" "1")
         (_resolveDuplication
            [Demo.doc "member" "X" "1"; Demo.doc "getter" "X" "2";
             Demo.doc "method" "Z" "1"]).
Proof.
  apply resolve_removes_by_identifier; simpl; tauto.
Defined.

(** ** [_setDefaultConfig] *)

Lemma _setDefaultConfig_fixed (config : ESDocConfig) :
  defaultsFilled config -> _setDefaultConfig config = config.
Proof.
  destruct config as [src dst inc exc idx pkg plg dbg].
  unfold defaultsFilled.
  cbv beta iota delta [includes excludes index package].
  intros (Hi & He & Hx & Hp).
  destruct inc as [inc|]; [|exfalso; apply Hi; reflexivity].
  destruct exc as [exc|]; [|exfalso; apply He; reflexivity].
  cbv beta iota zeta delta [_setDefaultConfig includes excludes index package].
  rewrite Hx. cbv beta iota zeta delta [negb package]. rewrite Hp. reflexivity.
Qed.

(** X5.  [_setDefaultConfig] changes nothing in a config it has filled: it
    is idempotent, and the configs it leaves as they are are those whose
    [includes] and [excludes] are there and whose [index] and [package] are
    neither absent nor empty. *)
Theorem setDefaultConfig_idempotent (config : ESDocConfig) :
  _setDefaultConfig (_setDefaultConfig config) = _setDefaultConfig config
  /\ (_setDefaultConfig config = config <-> defaultsFilled config).
Proof.
  split; [apply _setDefaultConfig_fixed, _setDefaultConfig_filled|].
  split; [|apply _setDefaultConfig_fixed].
  intros H. rewrite <- H. apply _setDefaultConfig_filled.
Qed.

Lemma setDefaultConfig_idempotent_witness :
  _setDefaultConfig (Demo.config (Some [])) <> Demo.config (Some [])
  /\ _setDefaultConfig (_setDefaultConfig (Demo.config (Some [])))
     = _setDefaultConfig (Demo.config (Some [])).
Proof.
  split.
  - intros H.
    apply (proj1 (proj2 (setDefaultConfig_idempotent (Demo.config (Some []))))) in H.
    destruct H as (_ & H & _). apply H. reflexivity.
  - exact (proj1 (setDefaultConfig_idempotent (Demo.config (Some [])))).
Defined.

(** ** [_walk] *)

Section WalkCoverage.

Context {X : Externals}.

Lemma visited_app (l l' : list Step) :
  listable l -> visited (l ++ l') = visited l ++ visited l'.
Proof.
  unfold listable. induction l as [|step l IH]; intros Hl; simpl; [reflexivity|].
  destruct step as [path|path|filePath|e].
  - apply IH. intros e Hin. apply (Hl e). right. exact Hin.
  - apply IH. intros e Hin. apply (Hl e). right. exact Hin.
  - simpl. f_equal. apply IH. intros e Hin. apply (Hl e). right. exact Hin.
  - exfalso. apply (Hl e). left. reflexivity.
Qed.

Lemma listable_app (l l' : list Step) :
  listable l -> listable l' -> listable (l ++ l').
Proof.
  unfold listable. intros H H' e Hin. apply in_app_or in Hin.
  destruct Hin as [Hin|Hin]; [exact (H e Hin) | exact (H' e Hin)].
Qed.

Lemma readable_entries_steps (dirPath : string) (entries : list Entry) :
  Forall (fun entry => readable entry = true -> forall dirPath,
            listable (steps X dirPath entry)
            /\ visited (steps X dirPath entry) = plainFilesOf X dirPath entry) entries ->
  forallb readable entries = true ->
  listable (flat_map (steps X dirPath) entries)
  /\ visited (flat_map (steps X dirPath) entries) = plainFiles X dirPath entries.
Proof.
  unfold plainFiles.
  induction 1 as [|entry entries Hentry _ IH]; simpl; intros Hr.
  - split; [intros e [] | reflexivity].
  - apply andb_true_iff in Hr. destruct Hr as [Hr Hrs].
    destruct (Hentry Hr dirPath) as [Hl Hv]. destruct (IH Hrs) as [Hls Hvs].
    split; [apply listable_app; assumption|].
    rewrite visited_app, Hv, Hvs; [reflexivity | exact Hl].
Qed.

Lemma readable_steps (entry : Entry) :
  readable entry = true -> forall dirPath,
    listable (steps X dirPath entry)
    /\ visited (steps X dirPath entry) = plainFilesOf X dirPath entry.
Proof.
  induction entry as [name|name entries IH|name e|name|name e] using Entry_induction;
    simpl; intros Hr dirPath; try discriminate Hr.
  - split; [|reflexivity]. intros e Hin. simpl in Hin. intuition discriminate.
  - destruct (readable_entries_steps (path_resolve X [dirPath; name]) entries IH Hr)
      as [Hl Hv].
    split; [|exact Hv]. intros e [E|[E|Hin]]; try discriminate. exact (Hl e Hin).
  - split; [|reflexivity]. intros e Hin. simpl in Hin. intuition discriminate.
Qed.

Lemma readable_filesUnder (dirPath : string) (entries : list Entry) :
  forallb readable entries = true ->
  listable (flat_map (steps X dirPath) entries)
  /\ filesUnder X dirPath entries = plainFiles X dirPath entries.
Proof.
  intros Hr. apply readable_entries_steps; [|exact Hr].
  apply Forall_forall. intros entry _ Hre dir. apply readable_steps, Hre.
Qed.

Lemma note_steps (l : list Step) :
  listable l ->
  forall acc (w : World X), exists evs,
    for_of (runStep note) l acc w = (Return (acc ++ visited l), emitting w evs)
    /\ Forall (fun ev => exists path, ev = EvStat path \/ ev = EvReaddir path) evs.
Proof.
  unfold listable. induction l as [|step l IH]; intros Hl acc w.
  - exists []. simpl. unfold ret. rewrite emitting_nil, app_nil_r. auto.
  - assert (Hl' : forall e, ~ In (RaiseStep e) l).
    { intros e Hin. apply (Hl e). right. exact Hin. }
    destruct step as [path|path|filePath|e].
    + destruct (IH Hl' acc (emitting w [EvStat path])) as (evs & Hrun & Hall).
      exists (EvStat path :: evs). split.
      * simpl. unfold bind at 1 2. simpl. fold (emitting w [EvStat path]).
        rewrite Hrun, emitting_app. reflexivity.
      * constructor; [eauto | exact Hall].
    + destruct (IH Hl' acc (emitting w [EvReaddir path])) as (evs & Hrun & Hall).
      exists (EvReaddir path :: evs). split.
      * simpl. unfold bind at 1 2. simpl. fold (emitting w [EvReaddir path]).
        rewrite Hrun, emitting_app. reflexivity.
      * constructor; [eauto | exact Hall].
    + destruct (IH Hl' (acc ++ [filePath]) w) as (evs & Hrun & Hall).
      exists evs. split; [|exact Hall].
      simpl. unfold bind at 1. unfold note at 1. unfold ret at 1.
      rewrite Hrun, <- app_assoc. reflexivity.
    + exfalso. apply (Hl e). left. reflexivity.
Qed.

(** X6.  Where every directory under the root can be listed and every
    entry has a status, [_walk] calls the callback on the plain files under
    the root and on nothing else, depth first in the order of the listings:
    it goes into every directory and passes over the entries that are
    neither files nor directories.  It reads the file system by [statSync]
    and [readdirSync] only. *)
Theorem walk_visits_plain_files_in_order (dirPath : string) (entries : list Entry)
    (acc : list string) (w : World X) :
  lookup dirPath (fs_dirs w) = Ok entries ->
  forallb readable entries = true ->
  exists evs,
    _walk X dirPath note acc w
    = (Return (acc ++ plainFiles X dirPath entries), emitting w evs)
    /\ Forall (fun ev => exists path, ev = EvStat path \/ ev = EvReaddir path) evs.
Proof.
  intros Hdir Hr. rewrite _walk_run, Hdir.
  destruct (readable_filesUnder dirPath entries Hr) as [Hl Hv].
  destruct (note_steps _ Hl acc (emitting w [EvReaddir dirPath])) as (evs & Hrun & Hall).
  exists (EvReaddir dirPath :: evs). split.
  - rewrite Hrun, emitting_app. unfold filesUnder in Hv. rewrite Hv. reflexivity.
  - constructor; [eauto | exact Hall].
Qed.

(** X7.  [generate] with a source root that cannot be listed raises what
    [readdirSync] raised, after the package file was read: no file is
    parsed, no doc is handled, nothing is written. *)
Theorem generate_without_source_directory (config : ESDocConfig) (w : World X)
    (inDirPath : string) (includePatterns excludePatterns : list string)
    (includeRegs excludeRegs : list (RegExp X)) (e : JsError) :
  let config' := _setDefaultConfig (Plugin_onHandleConfig X config) in
  isTruthy (source config) = true -> isTruthy (destination config) = true ->
  source config' = Some inDirPath ->
  includes config' = Some includePatterns -> excludes config' = Some excludePatterns ->
  compileAll X includePatterns = Ok includeRegs ->
  compileAll X excludePatterns = Ok excludeRegs ->
  lookup inDirPath (fs_dirs w) = Raise e ->
  generate X config w
  = (Throw e,
     emitting w ([EvPluginInit (plugins config); EvOnStart; EvOnHandleConfig config]
                 ++ preludeEvents X config' ++ [EvReaddir inDirPath])).
Proof.
  intros config' Hs Hd Hsrc Hinc Hexc Hci Hce Hdir.
  rewrite (generate_run config w Hs Hd). fold config'.
  rewrite (generate_body_run config' _ includePatterns excludePatterns inDirPath
             includeRegs excludeRegs Hinc Hexc Hci Hce Hsrc).
  unfold bind. rewrite _walk_run. simpl fs_dirs. rewrite Hdir.
  rewrite !emitting_app. reflexivity.
Qed.

(** X8.  [generate] with a pattern of [includes] or of [excludes] that is
    not a regular expression raises what [new RegExp] raised before it
    reads the package file or the source root. *)
Theorem generate_with_invalid_pattern (config : ESDocConfig) (w : World X)
    (includePatterns : list string) (e : JsError) :
  let config' := _setDefaultConfig (Plugin_onHandleConfig X config) in
  isTruthy (source config) = true -> isTruthy (destination config) = true ->
  includes config' = Some includePatterns ->
  (compileAll X includePatterns = Raise e
   \/ exists includeRegs excludePatterns,
        compileAll X includePatterns = Ok includeRegs
        /\ excludes config' = Some excludePatterns
        /\ compileAll X excludePatterns = Raise e) ->
  generate X config w
  = (Throw e,
     emitting w [EvPluginInit (plugins config); EvOnStart; EvOnHandleConfig config;
                 EvLoggerDebug (match debug config' with Some b => b | None => false end)]).
Proof.
  intros config' Hs Hd Hinc Hbad.
  rewrite (generate_run config w Hs Hd). fold config'.
  unfold generate_body. unfold bind at 1. rewrite emit_run, Hinc.
  unfold bind at 1. rewrite compile_run.
  destruct Hbad as [Hci|(includeRegs & excludePatterns & Hci & Hexc & Hce)];
    rewrite Hci.
  - rewrite emitting_app. reflexivity.
  - rewrite Hexc. unfold bind at 1. rewrite compile_run, Hce.
    rewrite emitting_app. reflexivity.
Qed.

End WalkCoverage.

Lemma walk_visits_plain_files_in_order_witness :
  exists evs,
    _walk Demo.quiet "/src" note [] (Demo.world Demo.quiet)
    = (Return ["/src/a.js"; "/src/broken.js"; "/src/lib/b.js"; "/src/lib/b.config.js";
               "/src/notes.txt"],
       emitting (Demo.world Demo.quiet) evs).
Proof.
  destruct (@walk_visits_plain_files_in_order Demo.quiet "/src"
              [File "a.js"; File "broken.js";
               Directory "lib" [File "b.js"; File "b.config.js"];
               Special "socket"; File "notes.txt"] [] (Demo.world Demo.quiet)
              eq_refl eq_refl) as (evs & Hrun & _).
  exists evs. exact Hrun.
Defined.

Lemma generate_without_source_directory_witness :
  fst (generate Demo.quiet
         (mkConfig (Some "/nowhere") (Some "/out") None None None None None None)
         (Demo.world Demo.quiet))
  = Throw (Error "ENOENT: no such file or directory '/nowhere'").
Proof.
  rewrite (@generate_without_source_directory Demo.quiet
             (mkConfig (Some "/nowhere") (Some "/out") None None None None None None)
             (Demo.world Demo.quiet) "/nowhere"
             ["\.(js|es6)$"] ["\.config\.(js|es6)$"]
             ["\.(js|es6)$"] ["\.config\.(js|es6)$"]
             (Error "ENOENT: no such file or directory '/nowhere'"));
    reflexivity.
Defined.

Lemma generate_with_invalid_pattern_witness :
  fst (generate Demo.quiet (Demo.config (Some ["\.js$"; "("])) (Demo.world Demo.quiet))
  = Throw (Error "SyntaxError: Invalid regular expression").
Proof.
  rewrite (@generate_with_invalid_pattern Demo.quiet (Demo.config (Some ["\.js$"; "("]))
             (Demo.world Demo.quiet) ["\.js$"; "("]
             (Error "SyntaxError: Invalid regular expression"));
    try reflexivity.
  left. reflexivity.
Defined.

(** ** [_traverse] and the synthetic docs *)

Section ExtractionCoverage.

Context {X : Externals}.

(** X9.  When the file parses and no call of [factory.push] raises,
    [_traverse] gives the docs of the factory and the tree, and logs nothing
    but the line that it parses the file; the callback of [generate] then
    puts the docs after the [results] and the tree, under the path of the
    file relative to the source root after [source] and the separator, after
    the [asts]. *)
Theorem traverse_gives_docs_and_tree (inDirPath sourceDirPath filePath : string)
    (includes excludes : list (RegExp X)) (packageName mainFilePath : option string)
    (acc : Collected X) (w : World X) (ast : AST X) (factory : DocFactory X) :
  ESParser_parse X filePath = Ok ast ->
  pushAll X (DocFactory_new X ast inDirPath filePath packageName mainFilePath)
    (ASTUtil_nodes X ast) = inl factory ->
  _traverse X inDirPath filePath packageName mainFilePath w
  = (Return (Some (DocFactory_results X factory, ast)),
     emitting w [EvLoggerInfo ("parsing: " ++ filePath); EvParse filePath])
  /\ (selected X includes excludes (path_relative X sourceDirPath filePath) = true ->
      fst (visit X inDirPath sourceDirPath includes excludes packageName mainFilePath
             acc filePath w)
      = Return (fst acc ++ DocFactory_results X factory,
                snd acc ++ [(("source" ++ path_sep X
                              ++ path_relative X sourceDirPath filePath)%string, ast)])).
Proof.
  intros Hparse Hpush. split.
  - rewrite _traverse_run, Hparse, Hpush. reflexivity.
  - intros Hsel. rewrite visit_run, Hsel, Hparse, Hpush. reflexivity.
Qed.

(** X10.  [_generateForPackageJSON] does not raise: it gives a doc of the
    kind [packageJSON], static and public and without identifier; with the
    text of the package file as content and its resolved path as longname
    when the file can be read, and with the empty string for both when it
    cannot. *)
Theorem generateForPackageJSON_gives_a_doc (config : ESDocConfig) (w : World X) :
  exists tag evs,
    _generateForPackageJSON X config w = (Return tag, emitting w evs)
    /\ kind tag = "packageJSON" /\ static tag = true /\ access tag = "public"
    /\ __docId__ tag = None
    /\ (forall path packageJSON,
          package config = Some path -> lookup path (fs_files w) = Ok packageJSON ->
          content tag = packageJSON /\ longname tag = path_resolve X [path])
    /\ (forall path e,
          package config = Some path -> lookup path (fs_files w) = Raise e ->
          content tag = "" /\ longname tag = "").
Proof.
  destruct (_generateForPackageJSON_doc config w) as (evs & Hrun & _).
  exists (packageDoc X config w), evs. split; [exact Hrun|].
  unfold packageDoc.
  destruct (package config) as [path|];
    [destruct (lookup path (fs_files w)) as [packageJSON|e] eqn:Hread|];
    simpl; do 4 (split; [reflexivity|]); split; intros path' x E1 E2;
    try discriminate E1; injection E1 as <-; rewrite Hread in E2;
    try discriminate E2; [injection E2 as <-|]; split; reflexivity.
Qed.

End ExtractionCoverage.

(** X11.  The docs that [generate] adds at the end, which are not member
    docs and have no identifier, come out of the resolution as they went in,
    at the end and in their order, when every member doc has an identifier;
    before them are docs of the input, in their order. *)
Theorem resolve_keeps_synthetic_docs (docs tags : list DocObject) :
  (forall m, In m docs -> kind m = "member" -> __docId__ m <> None) ->
  Forall (fun tag => kind tag <> "member" /\ __docId__ tag = None) tags ->
  exists keep,
    _resolveDuplication (docs ++ tags) = filter keep docs ++ tags.
Proof.
  intros Hsome Htags. rewrite Forall_forall in Htags.
  exists (fun d => negb (JsArray.includes (removeIds (docs ++ tags)) (__docId__ d))).
  rewrite resolve_filter, filter_app. f_equal.
  apply filter_all. intros tag Htag.
  apply negb_true_iff, not_true_iff_false. rewrite includes_In. intros Hrem.
  apply In_removeIds in Hrem. destruct Hrem as [m [Hm [Hk Hi]]].
  destruct (pushed_is_member_id (docs ++ tags) m _ Hm Hk Hi) as [m' [Hm' [Hk' [_ E]]]].
  apply in_app_or in Hm'. destruct Hm' as [Hm'|Hm'].
  - apply (Hsome m' Hm' Hk'). rewrite E. exact (proj2 (Htags tag Htag)).
  - exact (proj1 (Htags m' Hm') Hk').
Qed.

Lemma traverse_gives_docs_and_tree_witness :
  fst (_traverse Demo.quiet "/src" "/src/a.js" None None (Demo.world Demo.quiet))
  = Return (Some ([mkDoc "method" "f" "f" false "public" "" (Some "/src/a.js#f#");
                   mkDoc "member" "p" "this.p" false "public" ""
                     (Some "/src/a.js#this.p#i");
                   mkDoc "member" "p" "this.p" false "public" ""
                     (Some "/src/a.js#this.p#ii");
                   mkDoc "method" "p" "p" false "public" "" (Some "/src/a.js#p#iii")],
                  ["f"; "this.p"; "this.p"; "p"])).
Proof.
  rewrite (proj1 (@traverse_gives_docs_and_tree Demo.quiet "/src" "/src" "/src/a.js"
                    [] [] None None ([], []) (Demo.world Demo.quiet)
                    ["f"; "this.p"; "this.p"; "p"] _ eq_refl eq_refl)).
  reflexivity.
Defined.

Lemma resolve_keeps_synthetic_docs_witness :
  exists keep,
    _resolveDuplication Demo.reopened
    = filter keep
        [Demo.doc "method" "A#f" "1"; Demo.doc "member" "Y" "2";
         Demo.doc "member" "Y" "10"; Demo.doc "class" "A" "4"; Demo.doc "member" "Y" "3"]
      ++ [mkDoc "index" "/README.md" "./README.md" true "public" "# demo" None;
          mkDoc "packageJSON" "" "" true "public" "" None].
Proof.
  apply (resolve_keeps_synthetic_docs
           [Demo.doc "method" "A#f" "1"; Demo.doc "member" "Y" "2";
            Demo.doc "member" "Y" "10"; Demo.doc "class" "A" "4";
            Demo.doc "member" "Y" "3"]).
  - intros m H. each_doc H; simpl; discriminate.
  - repeat constructor; simpl; discriminate.
Defined.

(** ** What [generate] writes *)

Section OutputCoverage.

Context {X : Externals}.

(** The run up to the writes, for a source tree that can be read. *)
Lemma generate_to_output_readable (config : ESDocConfig) (w : World X)
    (inDirPath : string) (includePatterns excludePatterns : list string)
    (includeRegs excludeRegs : list (RegExp X)) (entries : list Entry) :
  let config' := _setDefaultConfig (Plugin_onHandleConfig X config) in
  isTruthy (source config) = true -> isTruthy (destination config) = true ->
  source config' = Some inDirPath ->
  includes config' = Some includePatterns -> excludes config' = Some excludePatterns ->
  compileAll X includePatterns = Ok includeRegs ->
  compileAll X excludePatterns = Ok excludeRegs ->
  lookup inDirPath (fs_dirs w) = Ok entries ->
  forallb readable entries = true ->
  Forall (fun filePath =>
            selected X includeRegs excludeRegs
              (path_relative X (path_resolve X [inDirPath]) filePath) = true ->
            extractable X inDirPath (fst (packageInfo X config' w))
              (snd (packageInfo X config' w)) filePath)
    (plainFiles X inDirPath entries) ->
  isTruthy (package config') = true
  /\ exists evs,
       generate X config w
       = generate_output X config'
           (collect X inDirPath (path_resolve X [inDirPath]) includeRegs excludeRegs
              (fst (packageInfo X config' w)) (snd (packageInfo X config' w))
              (plainFiles X inDirPath entries) ([], []))
           (emitting w evs)
       /\ Forall (fun ev => forall path content, ev <> EvOutputFile path content) evs.
Proof.
  intros config' Hs Hd Hsrc Hinc Hexc Hci Hce Hdir Hr Hext.
  split; [apply (_setDefaultConfig_filled (Plugin_onHandleConfig X config))|].
  destruct (@readable_filesUnder X inDirPath entries Hr) as [Hl Hv].
  rewrite <- Hv in Hext |- *.
  destruct (generate_to_output config w inDirPath includePatterns excludePatterns
              includeRegs excludeRegs entries Hs Hd Hsrc Hinc Hexc Hci Hce Hdir Hl Hext)
    as (evs & Hrun & _ & Hall & _).
  exists evs. split; [exact Hrun | exact Hall].
Qed.

(** X12.  What [generate] gives to be written to [index.json] in a run that
    gets through the walk.  With patterns that compile, a source tree that can be listed,
    an extractor that does not raise on the files that pass the filters and
    an index file that can be read, the docs given to [Plugin.onHandleDocs]
    are [_resolveDuplication] of the docs of the files that pass the filters
    and parse, in walk order, followed by the index doc and then the package
    doc; and [fs.outputFileSync] is called on [index.json] under the
    destination with [JSON.stringify] of what the hook returned. *)
Theorem generate_writes_the_resolved_docs (config : ESDocConfig) (w : World X)
    (inDirPath dest indexPath indexContent : string)
    (includePatterns excludePatterns : list string)
    (includeRegs excludeRegs : list (RegExp X)) (entries : list Entry) :
  let config' := _setDefaultConfig (Plugin_onHandleConfig X config) in
  let collected :=
    collect X inDirPath (path_resolve X [inDirPath]) includeRegs excludeRegs
      (fst (packageInfo X config' w)) (snd (packageInfo X config' w))
      (plainFiles X inDirPath entries) ([], []) in
  let docs :=
    _resolveDuplication
      (fst collected ++ [indexDoc X indexPath indexContent] ++ [packageDoc X config' w]) in
  isTruthy (source config) = true -> isTruthy (destination config) = true ->
  source config' = Some inDirPath -> destination config' = Some dest ->
  includes config' = Some includePatterns -> excludes config' = Some excludePatterns ->
  compileAll X includePatterns = Ok includeRegs ->
  compileAll X excludePatterns = Ok excludeRegs ->
  lookup inDirPath (fs_dirs w) = Ok entries ->
  forallb readable entries = true ->
  Forall (fun filePath =>
            selected X includeRegs excludeRegs
              (path_relative X (path_resolve X [inDirPath]) filePath) = true ->
            extractable X inDirPath (fst (packageInfo X config' w))
              (snd (packageInfo X config' w)) filePath)
    (plainFiles X inDirPath entries) ->
  truthy (index config') = Some indexPath ->
  lookup indexPath (fs_files w) = Ok indexContent ->
  exists evs,
    trace (snd (generate X config w)) = trace w ++ evs
    /\ In (EvOnHandleDocs docs) evs
    /\ In (EvOutputFile (path_resolve X [dest; "index.json"])
             (JSON_stringify_docs X (Plugin_onHandleDocs X docs))) evs.
Proof.
  intros config' collected docs Hs Hd Hsrc Hdest Hinc Hexc Hci Hce Hdir Hr Hext
    Hidx Hread.
  destruct (generate_to_output_readable config w inDirPath includePatterns
              excludePatterns includeRegs excludeRegs entries
              Hs Hd Hsrc Hinc Hexc Hci Hce Hdir Hr Hext) as (Hpkg & evsW & Hrun & _).
  fold config' in Hpkg, Hrun. fold collected in Hrun.
  destruct collected as [results asts] eqn:Hcol.
  destruct (generate_output_calls config' results asts (emitting w evsW) indexPath
              indexContent dest Hidx Hread Hpkg Hdest) as (evsO & Ht & Hdocs & Hjson).
  change (packageDoc X config' (emitting w evsW)) with (packageDoc X config' w)
    in Hdocs, Hjson.
  exists (evsW ++ evsO). rewrite Hrun.
  split; [rewrite Ht; simpl; rewrite <- app_assoc; reflexivity|].
  split; apply in_or_app; right; assumption.
Qed.



End OutputCoverage.

Lemma generate_writes_the_resolved_docs_witness :
  In (EvOutputFile "/out/index.json" "f,p,f,p,./README.md,")
     (trace (snd (generate Demo.quiet (Demo.config None) (Demo.world Demo.quiet)))).
Proof.
  destruct (@generate_writes_the_resolved_docs Demo.quiet (Demo.config None)
              (Demo.world Demo.quiet) "/src" "/out" "./README.md" "# demo"
              ["\.(js|es6)$"] ["\.config\.(js|es6)$"]
              ["\.(js|es6)$"] ["\.config\.(js|es6)$"]
              [File "a.js"; File "broken.js";
               Directory "lib" [File "b.js"; File "b.config.js"];
               Special "socket"; File "notes.txt"])
    as (evs & Ht & _ & Hjson);
    [reflexivity .. | | reflexivity | reflexivity | rewrite Ht; exact Hjson].
  repeat constructor; intros Hsel ast Hparse; vm_compute in Hparse;
    (discriminate Hparse || (inversion Hparse; subst ast; eexists; reflexivity)).
Defined.



(** ** How a run of [generate] ends *)

Section Outcomes.

Context {X : Externals}.

(** The events of [generate] before the call of [Plugin.onPublish]. *)
Let early (ev : Event X) : Prop := beforeCatch ev /\ ev <> EvOnPublish.

Let EndsOneOfThreeWays (r : Outcome unit) (evs : list (Event X)) : Prop :=
  (r = Return tt
   /\ exists evs', evs = evs' ++ [EvOnComplete] /\ In EvOnPublish evs'
        /\ ~ In EvOnComplete evs' /\ forall e, ~ In (EvShowError e) evs')
  \/ (r = Exit 1%Z
      /\ exists e evs', evs = evs' ++ [EvShowError e] /\ In EvOnPublish evs'
           /\ ~ In EvOnComplete evs' /\ forall e', ~ In (EvShowError e') evs')
  \/ ((exists e, r = Throw e)
      /\ ~ In EvOnPublish evs /\ ~ In EvOnComplete evs
      /\ forall e, ~ In (EvShowError e) evs).

Lemma early_prelude (ev : Event X) : preludeEvent ev -> early ev.
Proof. intros H. split; [left; exact H | intros ->; exact H]. Qed.

Lemma early_walk (ev : Event X) : walkEvent ev -> early ev.
Proof. intros H. split; [right; left; exact H | intros ->; exact H]. Qed.

Lemma early_output (ev : Event X) : outputEvent ev -> ev <> EvOnPublish -> early ev.
Proof. intros H Hne. split; [right; right; exact H | exact Hne]. Qed.

Lemma early_silent (evs : list (Event X)) :
  Forall early evs ->
  ~ In EvOnPublish evs /\ ~ In EvOnComplete evs /\ forall e, ~ In (EvShowError e) evs.
Proof.
  rewrite Forall_forall. intros H. split; [|split].
  - intros Hin. destruct (H _ Hin) as [_ Hne]. apply Hne. reflexivity.
  - intros Hin. destruct (H _ Hin) as [Hb _]. unfold beforeCatch in Hb. simpl in Hb. tauto.
  - intros e Hin. destruct (H _ Hin) as [Hb _]. unfold beforeCatch in Hb. simpl in Hb.
    tauto.
Qed.

Lemma output_silent (evs : list (Event X)) :
  Forall outputEvent evs ->
  ~ In EvOnComplete evs /\ forall e, ~ In (EvShowError e) evs.
Proof.
  rewrite Forall_forall. intros H. split.
  - intros Hin. exact (H _ Hin).
  - intros e Hin. exact (H _ Hin).
Qed.

Lemma three_ways_stable (r : Outcome unit) (evs1 evs2 : list (Event X)) :
  Forall early evs1 -> EndsOneOfThreeWays r evs2 -> EndsOneOfThreeWays r (evs1 ++ evs2).
Proof.
  intros H1 HQ. destruct (early_silent evs1 H1) as (Hp & Hc & Hs).
  destruct HQ as [(Hr & evs' & -> & Hin & Hnc & Hns)
                 |[(Hr & e & evs' & -> & Hin & Hnc & Hns)
                  |(Hr & Hnp & Hnc & Hns)]].
  - left. split; [exact Hr|]. exists (evs1 ++ evs').
    split; [apply app_assoc|]. split; [apply in_or_app; right; exact Hin|]. split.
    + intros H. apply in_app_or in H. destruct H as [H|H]; [exact (Hc H) | exact (Hnc H)].
    + intros e H. apply in_app_or in H.
      destruct H as [H|H]; [exact (Hs e H) | exact (Hns e H)].
  - right. left. split; [exact Hr|]. exists e, (evs1 ++ evs').
    split; [apply app_assoc|]. split; [apply in_or_app; right; exact Hin|]. split.
    + intros H. apply in_app_or in H. destruct H as [H|H]; [exact (Hc H) | exact (Hnc H)].
    + intros e' H. apply in_app_or in H.
      destruct H as [H|H]; [exact (Hs e' H) | exact (Hns e' H)].
  - right. right. split; [exact Hr|]. split; [|split].
    + intros H. apply in_app_or in H. destruct H as [H|H]; [exact (Hp H) | exact (Hnp H)].
    + intros H. apply in_app_or in H. destruct H as [H|H]; [exact (Hc H) | exact (Hnc H)].
    + intros e H. apply in_app_or in H.
      destruct H as [H|H]; [exact (Hs e H) | exact (Hns e H)].
Qed.

Lemma three_ways_throw (e : JsError) (evs : list (Event X)) :
  Forall early evs -> EndsOneOfThreeWays (Throw e) evs.
Proof.
  intros H. right. right. split; [exists e; reflexivity | apply early_silent, H].
Qed.

(** [_publish] calls the hook; then it completes, or it logs what the hook
    raised and exits. *)
Lemma _publish_ends (config : ESDocConfig) :
  traced (_publish X config)
    (fun r evs =>
       exists rest,
         Forall outputEvent rest
         /\ ((r = Return tt /\ evs = EvOnPublish :: rest)
             \/ exists e, r = Exit 1%Z /\ evs = EvOnPublish :: rest ++ [EvShowError e])).
Proof.
  unfold _publish.
  eapply traced_try_catch with
    (Q1 := fun r evs => exists rest, evs = EvOnPublish :: rest /\ Forall outputEvent rest
                                     /\ forall code, r <> Exit code).
  - eapply traced_bind with (Q1 := fun r evs => r = Return tt /\ evs = [EvOnPublish]).
    + apply traced_emit. split; reflexivity.
    + intros []. eapply traced_weaken; [apply (emits_onPublish outputEvent False)|].
      * intros ev Hev. exact Hev.
      * simpl. intros r evs2 [H2 Hx] evs1 [_ ->]. exists evs2.
        split; [reflexivity|]. split; [exact H2|]. intros code E. exact (Hx code E).
    + intros e evs [E _]. discriminate E.
    + intros code evs [E _]. discriminate E.
  - intros e w. exists [EvShowError e]. split; [reflexivity|]. simpl.
    intros evs1 (rest & -> & Hall & _). exists rest. split; [exact Hall|].
    right. exists e. split; reflexivity.
  - intros [] evs (rest & -> & Hall & _). exists rest. split; [exact Hall|].
    left. split; reflexivity.
  - intros code evs (rest & _ & _ & Hx). exfalso. exact (Hx code eq_refl).
Qed.

Lemma emits_index_doc (P : Event X -> Prop) (canExit : Prop) (config : ESDocConfig) :
  (forall path, P (EvReadFile path)) -> emits P canExit (_generateForIndex X config).
Proof.
  intros HP. unfold _generateForIndex.
  apply emits_bind; [apply emits_string_arg|]. intros path.
  apply emits_bind; [apply emits_readFileSync, HP|]. intros text. apply emits_ret.
Qed.

Lemma emits_package_doc (P : Event X -> Prop) (canExit : Prop) (config : ESDocConfig) :
  (forall path, P (EvReadFile path)) -> emits P canExit (_generateForPackageJSON X config).
Proof.
  intros HP. unfold _generateForPackageJSON. apply emits_bind.
  - apply emits_try_catch.
    + apply emits_bind; [apply emits_string_arg|]. intros path.
      apply emits_bind; [apply emits_readFileSync, HP|]. intros text. apply emits_ret.
    + intros e. apply emits_ret.
  - intros [packageJSON packagePath]. apply emits_ret.
Qed.

Local Ltac before_publish :=
  eapply (traced_after early);
  [ | | apply three_ways_stable | apply three_ways_throw ].

Lemma generate_output_ends (config : ESDocConfig) (collected : Collected X) :
  traced (generate_output X config collected) EndsOneOfThreeWays.
Proof.
  destruct collected as [results asts]. unfold generate_output.
  before_publish.
  { destruct (isTruthy (index config)); [|apply emits_ret].
    apply emits_bind; [|intros tag; apply emits_ret].
    apply emits_index_doc. intros path. apply early_output; [exact I | discriminate]. }
  intros results1. before_publish.
  { destruct (isTruthy (package config)); [|apply emits_ret].
    apply emits_bind; [|intros tag; apply emits_ret].
    apply emits_package_doc. intros path. apply early_output; [exact I | discriminate]. }
  intros results2. before_publish.
  { apply emits_emit, early_output; [exact I | discriminate]. }
  intros _. before_publish.
  { apply emits_string_arg. }
  intros dest. before_publish.
  { apply emits_outputFileSync, early_output; [exact I | discriminate]. }
  intros _. before_publish.
  { apply emits_for_of. intros [] [astPath ast].
    apply emits_outputFileSync, early_output; [exact I | discriminate]. }
  intros _. eapply traced_bind; [apply _publish_ends | | |].
  - intros [] w. exists [EvOnComplete]. split; [reflexivity|]. simpl.
    intros evs1 (rest & Hall & [[_ ->]|(e & E & _)]); [|discriminate E].
    destruct (output_silent rest Hall) as [Hc Hs].
    left. split; [reflexivity|]. exists (EvOnPublish :: rest).
    split; [reflexivity|]. split; [left; reflexivity|]. split.
    + intros [E|Hin]; [discriminate E | exact (Hc Hin)].
    + intros e [E|Hin]; [discriminate E | exact (Hs e Hin)].
  - intros e evs (rest & _ & [[E _]|(e' & E & _)]); discriminate E.
  - intros code evs (rest & Hall & [[E _]|(e & E & ->)]); [discriminate E|].
    destruct (output_silent rest Hall) as [Hc Hs].
    right. left. split; [exact E|]. exists e, (EvOnPublish :: rest).
    split; [reflexivity|]. split; [left; reflexivity|]. split.
    + intros [E'|Hin]; [discriminate E' | exact (Hc Hin)].
    + intros e' [E'|Hin]; [discriminate E' | exact (Hs e' Hin)].
Qed.

Lemma generate_body_ends (config : ESDocConfig) :
  traced (generate_body X config) EndsOneOfThreeWays.
Proof.
  unfold generate_body.
  before_publish.
  { apply emits_emit, early_prelude. exact I. }
  intros _. before_publish.
  { apply emits_compile. }
  intros includes. before_publish.
  { apply emits_compile. }
  intros excludes. before_publish.
  { apply emits_package_info. intros path. apply early_prelude. exact I. }
  intros [packageName mainFilePath]. before_publish.
  { apply emits_string_arg. }
  intros inDirPath. before_publish.
  { eapply traced_weaken; [apply _walk_traced|]. simpl.
    intros r evs (Hall & Hexit & _). split.
    - eapply Forall_impl; [|exact Hall]. exact early_walk.
    - intros code E. exact (Hexit code E). }
  intros collected. apply generate_output_ends.
Qed.

Lemma generate_ends (config : ESDocConfig) :
  traced (generate X config) EndsOneOfThreeWays.
Proof.
  unfold generate.
  before_publish; [apply emits_assert|]. intros _.
  before_publish; [apply emits_assert|]. intros _.
  before_publish; [apply emits_emit, early_prelude; exact I|]. intros _.
  before_publish; [apply emits_emit, early_prelude; exact I|]. intros _.
  before_publish; [apply emits_emit, early_prelude; exact I|]. intros _.
  apply generate_body_ends.
Qed.

(** X14.  A run of [generate] ends in one of three ways, whatever the
    config, the files and the collaborators.  It completes, and then
    [Plugin.onComplete] was called once, as the last thing, after
    [Plugin.onPublish] and with no error logged by [_publish]; or it ends by
    [process.exit(1)], and then the last thing was the [showError] of
    [_publish], after [Plugin.onPublish], and [Plugin.onComplete] was not
    called; or it raises, and then neither [Plugin.onPublish] nor
    [Plugin.onComplete] was called.  So [generate] exits with no other code
    than 1, and nothing that happens from [_publish] on makes it raise. *)
Theorem generate_ends_one_of_three_ways (config : ESDocConfig) (w : World X) :
  exists evs,
    trace (snd (generate X config w)) = trace w ++ evs
    /\ ((fst (generate X config w) = Return tt
         /\ exists evs', evs = evs' ++ [EvOnComplete] /\ In EvOnPublish evs'
              /\ ~ In EvOnComplete evs' /\ forall e, ~ In (EvShowError e) evs')
        \/ (fst (generate X config w) = Exit 1%Z
            /\ exists e evs', evs = evs' ++ [EvShowError e] /\ In EvOnPublish evs'
                 /\ ~ In EvOnComplete evs' /\ forall e', ~ In (EvShowError e') evs')
        \/ ((exists e, fst (generate X config w) = Throw e)
            /\ ~ In EvOnPublish evs /\ ~ In EvOnComplete evs
            /\ forall e, ~ In (EvShowError e) evs)).
Proof. exact (generate_ends config w). Qed.

End Outcomes.

(** ** Errors and filters in the walk of [generate] *)

Section WalkErrors.

Context {X : Externals}.

Variables (inDirPath sourceDirPath : string) (includes excludes : list (RegExp X))
  (packageName mainFilePath : option string).

(** X16.  [_walk] has no [try]: at the first entry of the root whose
    status cannot be read, or which is a directory that cannot be listed,
    it raises what [statSync] or [readdirSync] raised.  The files before
    that entry that pass the filters have been given to the parser; the
    entries after it are not looked at. *)
Theorem walk_stops_at_the_first_error (acc : Collected X) (w : World X)
    (before after : list Entry) (entry : Entry) (name : string) (e : JsError) :
  lookup inDirPath (fs_dirs w) = Ok (before ++ entry :: after) ->
  entry = Unstatable name e \/ entry = Unlistable name e ->
  forallb readable before = true ->
  Forall (fun filePath =>
            selected X includes excludes (path_relative X sourceDirPath filePath) = true ->
            extractable X inDirPath packageName mainFilePath filePath)
    (plainFiles X inDirPath before) ->
  exists evs evs',
    _walk X inDirPath
      (visit X inDirPath sourceDirPath includes excludes packageName mainFilePath) acc w
    = (Throw e,
       emitting w (EvReaddir inDirPath :: evs
                   ++ EvStat (path_resolve X [inDirPath; name]) :: evs'))
    /\ parsedFiles evs
       = filter (fun filePath =>
                   selected X includes excludes (path_relative X sourceDirPath filePath))
           (plainFiles X inDirPath before)
    /\ (evs' = [] \/ evs' = [EvReaddir (path_resolve X [inDirPath; name])]).
Proof.
  intros Hdir Hentry Hr Hext.
  destruct (@readable_filesUnder X inDirPath before Hr) as [Hl Hv].
  unfold filesUnder in Hv. rewrite <- Hv in Hext.
  destruct (walk_steps_run inDirPath sourceDirPath includes excludes packageName
              mainFilePath (flat_map (steps X inDirPath) before) acc
              (emitting w [EvReaddir inDirPath]))
    as (r & evs & Hrun & _ & _ & _ & _ & Hret & Hfin).
  destruct (Hfin Hl Hext) as [acc' ->]. specialize (Hret acc' eq_refl).
  rewrite Hv in Hret.
  rewrite _walk_run, Hdir, flat_map_app, for_of_app.
  unfold bind at 1. rewrite Hrun.
  destruct Hentry as [->| ->].
  - exists evs, []. split; [|split; [exact Hret | left; reflexivity]].
    simpl. unfold bind. simpl. unfold emitting. simpl.
    rewrite <- !app_assoc. reflexivity.
  - exists evs, [EvReaddir (path_resolve X [inDirPath; name])].
    split; [|split; [exact Hret | right; reflexivity]].
    simpl. unfold bind. simpl. unfold emitting. simpl.
    rewrite <- !app_assoc. reflexivity.
Qed.

End WalkErrors.

Section NoIncludes.

Context {X : Externals}.

Let notParse (ev : Event X) : Prop := forall filePath, ev <> EvParse filePath.

Lemma traced_bind_ret {A B : Type} (a : A) (k : A -> M X B)
    (Q : Outcome B -> list (Event X) -> Prop) :
  traced (k a) Q -> traced (bind (ret a) k) Q.
Proof. intros H w. exact (H w). Qed.

Lemma walk_without_includes (inDirPath sourceDirPath : string)
    (excludes : list (RegExp X)) (packageName mainFilePath : option string)
    (acc : Collected X) :
  emits notParse False
    (_walk X inDirPath
       (visit X inDirPath sourceDirPath [] excludes packageName mainFilePath) acc).
Proof.
  intros w. rewrite _walk_run.
  destruct (lookup inDirPath (fs_dirs w)) as [entries|e].
  - destruct (walk_steps_run inDirPath sourceDirPath [] excludes packageName
                mainFilePath (flat_map (steps X inDirPath) entries) acc
                (emitting w [EvReaddir inDirPath]))
      as (r & evs & Hrun & Hexit & _ & _ & [rest Hpre] & _).
    rewrite Hrun. exists (EvReaddir inDirPath :: evs). simpl.
    split; [rewrite <- app_assoc; reflexivity|]. split.
    + constructor; [intros filePath; discriminate|].
      apply Forall_forall. intros ev Hin filePath ->.
      apply parsedFiles_In in Hin.
      assert (Hnone : forall l,
                filter (fun filePath =>
                          selected X [] excludes (path_relative X sourceDirPath filePath))
                  l = []).
      { induction l as [|f l IH]; [reflexivity | exact IH]. }
      rewrite Hnone in Hpre. apply app_eq_nil in Hpre. destruct Hpre as [Hpre _].
      rewrite Hpre in Hin. exact Hin.
    + intros code E. exact (Hexit code E).
  - exists [EvReaddir inDirPath]. simpl. split; [reflexivity|]. split.
    + repeat constructor. intros filePath. discriminate.
    + discriminate.
Qed.

Lemma generate_body_without_includes (config : ESDocConfig) :
  includes config = Some [] -> emits notParse True (generate_body X config).
Proof.
  intros Hinc. unfold generate_body. rewrite Hinc.
  apply emits_bind; [apply emits_emit; intros filePath; discriminate|]. intros _.
  apply (traced_bind_ret (A := list (RegExp X)) []). cbv beta.
  apply emits_bind; [apply emits_compile|]. intros excludes.
  apply emits_bind.
  { eapply traced_weaken;
      [apply (emits_package_info notParse); intros path filePath; discriminate|].
    simpl. intros r evs [Hall _]. split; [exact Hall | intros code _; exact I]. }
  intros [packageName mainFilePath].
  apply emits_bind; [apply emits_string_arg|]. intros inDirPath.
  apply emits_bind.
  { eapply traced_weaken; [apply walk_without_includes|]. simpl.
    intros r evs [Hall Hexit]. split; [exact Hall|]. intros code E.
    exfalso. exact (Hexit code E). }
  intros collected. apply emits_generate_output.
  - intros ev Hev filePath ->. exact Hev.
  - intros e filePath. discriminate.
  - intros filePath. discriminate.
Qed.

(** X17.  An empty [includes] is not replaced by the default pattern, an
    empty array being truthy; and with it no file is given to the parser,
    whatever is under the source root. *)
Theorem generate_with_no_include_pattern (config : ESDocConfig) (w : World X) :
  includes (Plugin_onHandleConfig X config) = Some [] ->
  includes (_setDefaultConfig (Plugin_onHandleConfig X config)) = Some []
  /\ exists evs,
       trace (snd (generate X config w)) = trace w ++ evs
       /\ forall filePath, ~ In (EvParse filePath) evs.
Proof.
  intros Hinc.
  assert (Hkept : includes (_setDefaultConfig (Plugin_onHandleConfig X config)) = Some []).
  { destruct (_setDefaultConfig_fields (Plugin_onHandleConfig X config))
      as (_ & _ & Hi & _).
    rewrite Hi, Hinc. reflexivity. }
  split; [exact Hkept|].
  assert (Hrun : emits notParse True (generate X config)).
  { unfold generate.
    apply emits_bind; [apply emits_assert|]. intros _.
    apply emits_bind; [apply emits_assert|]. intros _.
    apply emits_bind; [apply emits_emit; intros filePath; discriminate|]. intros _.
    apply emits_bind; [apply emits_emit; intros filePath; discriminate|]. intros _.
    apply emits_bind; [apply emits_emit; intros filePath; discriminate|]. intros _.
    apply generate_body_without_includes, Hkept. }
  destruct (Hrun w) as (evs & Ht & Hall & _). exists evs. split; [exact Ht|].
  intros filePath Hin. rewrite Forall_forall in Hall. exact (Hall _ Hin filePath eq_refl).
Qed.

End NoIncludes.

Lemma walk_stops_at_the_first_error_witness :
  exists evs,
    _walk Demo.quiet "/src"
      (visit Demo.quiet "/src" "/src" ["\.(js|es6)$"] ["\.config\.(js|es6)$"] None None)
      ([], [])
      (mkWorld []
         [("/src", [File "a.js"; Directory "lib" [File "b.js"];
                    Unlistable "locked" (Error "EACCES: permission denied");
                    File "c.js"])]
         [])
    = (Throw (Error "EACCES: permission denied"),
       mkWorld []
         [("/src", [File "a.js"; Directory "lib" [File "b.js"];
                    Unlistable "locked" (Error "EACCES: permission denied");
                    File "c.js"])]
         evs)
    /\ parsedFiles evs = ["/src/a.js"; "/src/lib/b.js"].
Proof.
  destruct (@walk_stops_at_the_first_error Demo.quiet "/src" "/src"
              ["\.(js|es6)$"] ["\.config\.(js|es6)$"] None None ([], [])
              (mkWorld []
                 [("/src", [File "a.js"; Directory "lib" [File "b.js"];
                            Unlistable "locked" (Error "EACCES: permission denied");
                            File "c.js"])]
                 [])
              [File "a.js"; Directory "lib" [File "b.js"]] [File "c.js"]
              (Unlistable "locked" (Error "EACCES: permission denied")) "locked"
              (Error "EACCES: permission denied"))
    as (evs & evs' & Hrun & Hparsed & Hlast);
    [reflexivity | right; reflexivity | reflexivity | | ].
  - repeat constructor; intros Hsel ast Hparse; vm_compute in Hparse;
      inversion Hparse; subst ast; eexists; reflexivity.
  - exists (EvReaddir "/src" :: evs ++ EvStat "/src/locked" :: evs').
    split; [exact Hrun|].
    unfold parsedFiles in *. simpl. rewrite flat_map_app, Hparsed.
    destruct Hlast as [-> | ->]; reflexivity.
Defined.

Lemma generate_with_no_include_pattern_witness :
  parsedFiles (trace (snd (generate Demo.quiet (Demo.config (Some []))
                             (Demo.world Demo.quiet))))
  = [].
Proof.
  destruct (@generate_with_no_include_pattern Demo.quiet (Demo.config (Some []))
              (Demo.world Demo.quiet) eq_refl) as (_ & evs & Ht & Hnone).
  rewrite Ht. simpl app.
  destruct (parsedFiles evs) as [|filePath rest] eqn:E; [reflexivity|].
  exfalso. apply (Hnone filePath), parsedFiles_In. rewrite E. left. reflexivity.
Defined.
